(** * P3P_Kneip: the closed-form P3P pose solver and its quartic solver

    A shallow embedding of [src/pnpsolvers/P3P_Kneip.cpp].

    - A C++ [double] is an IEEE-754 binary64 value: Rocq's primitive [float],
      whose [+ - * / sqrt] and comparisons are the processor's.  Every
      operation is rounded on its own, to nearest: no fused multiply-add, no
      extended precision.
    - Eigen's fixed-size vectors and matrices are records of coefficients,
      matrices column by column (Eigen's default storage order).  Coefficient,
      column and block accesses take the index as the code passes it and
      answer [None] where Eigen's index assertion would fail.
    - [std::complex<double>] is a pair of doubles; the operators between a
      complex and a scalar act as libstdc++'s [<complex>] writes them.
    - The functions of the C mathematical library that have no counterpart
      among the primitive operations ([pow], complex [pow], [sqrt] and
      division) are the fields of the class [Libm]: every theorem holds for
      whatever these functions compute.
    - Locals that the code declares without an initialiser ([T], [N],
      [factors], [realRoots], [gwc]) start from the indeterminate contents
      recorded in [Locals]. *)

From Stdlib Require Import ZArith List Bool Lia.
From Stdlib Require Import Floats.
From Stdlib Require Ascii String.
Import ListNotations.

Local Open Scope float_scope.

(** ** The error monad of the index assertions *)

Definition bind {A B : Type} (c : option A) (k : A -> option B) : option B :=
  match c with
  | Some a => k a
  | None => None
  end.

Notation "x <- c ;; k" := (bind c (fun x => k))
  (at level 61, c at next level, right associativity).
Notation "' p <- c ;; k" := (bind c (fun x => let 'p := x in k))
  (at level 61, p pattern, c at next level, right associativity).

(** ** Eigen's fixed-size dense types *)

Record Vector3d := V3 { x0 : float; x1 : float; x2 : float }.
Record Vector4d := V4 { q0 : float; q1 : float; q2 : float; q3 : float }.
Record Vector5d := V5 { a0 : float; a1 : float; a2 : float; a3 : float; a4 : float }.

(** [Matrix3d], column-major. *)
Record Matrix3d := M3 { c0 : Vector3d; c1 : Vector3d; c2 : Vector3d }.

(** [Matrix<double, 3, 4>], column-major. *)
Record Matrix34d := M34 { g0 : Vector3d; g1 : Vector3d; g2 : Vector3d; g3 : Vector3d }.

Module Eigen.

(** [v[i]] *)
Definition coeff (v : Vector3d) (i : Z) : option float :=
  match i with
  | 0%Z => Some (x0 v)
  | 1%Z => Some (x1 v)
  | 2%Z => Some (x2 v)
  | _ => None
  end.

Definition coeff4 (v : Vector4d) (i : Z) : option float :=
  match i with
  | 0%Z => Some (q0 v)
  | 1%Z => Some (q1 v)
  | 2%Z => Some (q2 v)
  | 3%Z => Some (q3 v)
  | _ => None
  end.

(** [v[i] = x] *)
Definition set_coeff4 (v : Vector4d) (i : Z) (x : float) : option Vector4d :=
  match i with
  | 0%Z => Some (V4 x (q1 v) (q2 v) (q3 v))
  | 1%Z => Some (V4 (q0 v) x (q2 v) (q3 v))
  | 2%Z => Some (V4 (q0 v) (q1 v) x (q3 v))
  | 3%Z => Some (V4 (q0 v) (q1 v) (q2 v) x)
  | _ => None
  end.

Definition coeff5 (v : Vector5d) (i : Z) : option float :=
  match i with
  | 0%Z => Some (a0 v)
  | 1%Z => Some (a1 v)
  | 2%Z => Some (a2 v)
  | 3%Z => Some (a3 v)
  | 4%Z => Some (a4 v)
  | _ => None
  end.

Definition set_coeff5 (v : Vector5d) (i : Z) (x : float) : option Vector5d :=
  match i with
  | 0%Z => Some (V5 x (a1 v) (a2 v) (a3 v) (a4 v))
  | 1%Z => Some (V5 (a0 v) x (a2 v) (a3 v) (a4 v))
  | 2%Z => Some (V5 (a0 v) (a1 v) x (a3 v) (a4 v))
  | 3%Z => Some (V5 (a0 v) (a1 v) (a2 v) x (a4 v))
  | 4%Z => Some (V5 (a0 v) (a1 v) (a2 v) (a3 v) x)
  | _ => None
  end.

(** [m.col(j)] *)
Definition col (m : Matrix3d) (j : Z) : option Vector3d :=
  match j with
  | 0%Z => Some (c0 m)
  | 1%Z => Some (c1 m)
  | 2%Z => Some (c2 m)
  | _ => None
  end.

(** [m.col(j) = v] *)
Definition set_col (m : Matrix3d) (j : Z) (v : Vector3d) : option Matrix3d :=
  match j with
  | 0%Z => Some (M3 v (c1 m) (c2 m))
  | 1%Z => Some (M3 (c0 m) v (c2 m))
  | 2%Z => Some (M3 (c0 m) (c1 m) v)
  | _ => None
  end.

(** [g.block<3, 3>(i, j) = r]: the block must fit in the 3x4 matrix. *)
Definition set_block33 (g : Matrix34d) (i j : Z) (r : Matrix3d) : option Matrix34d :=
  match i, j with
  | 0%Z, 0%Z => Some (M34 (c0 r) (c1 r) (c2 r) (g3 g))
  | 0%Z, 1%Z => Some (M34 (g0 g) (c0 r) (c1 r) (c2 r))
  | _, _ => None
  end.

(** [g.block<3, 1>(i, j) = c] *)
Definition set_block31 (g : Matrix34d) (i j : Z) (c : Vector3d) : option Matrix34d :=
  match i, j with
  | 0%Z, 0%Z => Some (M34 c (g1 g) (g2 g) (g3 g))
  | 0%Z, 1%Z => Some (M34 (g0 g) c (g2 g) (g3 g))
  | 0%Z, 2%Z => Some (M34 (g0 g) (g1 g) c (g3 g))
  | 0%Z, 3%Z => Some (M34 (g0 g) (g1 g) (g2 g) c)
  | _, _ => None
  end.

Definition vadd (u v : Vector3d) : Vector3d :=
  V3 (x0 u + x0 v) (x1 u + x1 v) (x2 u + x2 v).

Definition vsub (u v : Vector3d) : Vector3d :=
  V3 (x0 u - x0 v) (x1 u - x1 v) (x2 u - x2 v).

(** [v / s] *)
Definition vdiv (v : Vector3d) (s : float) : Vector3d :=
  V3 (x0 v / s) (x1 v / s) (x2 v / s).

Definition cross (u v : Vector3d) : Vector3d :=
  V3 (x1 u * x2 v - x2 u * x1 v)
     (x2 u * x0 v - x0 u * x2 v)
     (x0 u * x1 v - x1 u * x0 v).

(** The products are summed from the first on. *)
Definition dot (u v : Vector3d) : float :=
  x0 u * x0 v + x1 u * x1 v + x2 u * x2 v.

Definition squaredNorm (v : Vector3d) : float := dot v v.

Definition norm (v : Vector3d) : float := sqrt (squaredNorm v).

Definition row (m : Matrix3d) (i : Vector3d -> float) : Vector3d :=
  V3 (i (c0 m)) (i (c1 m)) (i (c2 m)).

Definition transpose (m : Matrix3d) : Matrix3d :=
  M3 (row m x0) (row m x1) (row m x2).

(** The matrix given row by row, as the comma initialiser fills it. *)
Definition of_rows (r0 r1 r2 : Vector3d) : Matrix3d :=
  transpose (M3 r0 r1 r2).

(** [m * v] *)
Definition mulv (m : Matrix3d) (v : Vector3d) : Vector3d :=
  V3 (dot (row m x0) v) (dot (row m x1) v) (dot (row m x2) v).

(** [m * n] *)
Definition mulm (m n : Matrix3d) : Matrix3d :=
  M3 (mulv m (c0 n)) (mulv m (c1 n)) (mulv m (c2 n)).

End Eigen.

(** ** [std::complex<double>] *)

Record complex := Cplx { real : float; imag : float }.

Module Complex.

Definition neg (z : complex) : complex := Cplx (- real z) (- imag z).

Definition add (z w : complex) : complex :=
  Cplx (real z + real w) (imag z + imag w).

Definition sub (z w : complex) : complex :=
  Cplx (real z - real w) (imag z - imag w).

(** complex [/] double *)
Definition div_s (z : complex) (s : float) : complex :=
  Cplx (real z / s) (imag z / s).

(** double [*] complex *)
Definition s_mul (s : float) (z : complex) : complex :=
  Cplx (real z * s) (imag z * s).

(** double [+] complex *)
Definition s_add (s : float) (z : complex) : complex :=
  Cplx (real z + s) (imag z).

(** double [-] complex *)
Definition s_sub (s : float) (z : complex) : complex :=
  Cplx (- real z + s) (- imag z).

End Complex.

(** ** The mathematical library *)

Class Libm := {
  (** [std::pow(double, double)] *)
  pow : float -> float -> float;
  (** [std::pow(const complex<double>&, const double&)] *)
  cpow : complex -> float -> complex;
  (** [std::sqrt(const complex<double>&)] *)
  csqrt : complex -> complex;
  (** complex [/] complex *)
  cdiv : complex -> complex -> complex
}.

(** double [/] complex: the scalar is converted first. *)
Definition s_div `{L : Libm} (s : float) (z : complex) : complex :=
  cdiv (Cplx s 0) z.

(** ** [P3P_Kneip::solveQuartic] *)

(** The depression parameters [alpha], [beta], [gamma] of the quartic
    [A x^4 + B x^3 + C x^2 + D x + E] (lines 205-214). *)
Record Depressed := mkDepressed { alpha : float; beta : float; gamma : float }.

Definition depress (A B C D E : float) : Depressed :=
  let A_pw2 := A * A in
  let B_pw2 := B * B in
  let A_pw3 := A_pw2 * A in
  let B_pw3 := B_pw2 * B in
  let A_pw4 := A_pw3 * A in
  let B_pw4 := B_pw3 * B in
  let alpha := -3 * B_pw2 / (8 * A_pw2) + C / A in
  let beta := B_pw3 / (8 * A_pw3) - B * C / (2 * A_pw2) + D / A in
  let gamma := -3 * B_pw4 / (256 * A_pw4) + B_pw2 * C / (16 * A_pw3) - B * D / (4 * A_pw2) + E / A in
  mkDepressed alpha beta gamma.

(** The quantities of the resolvent cubic (lines 216-233). *)
Record Resolvent := mkResolvent { rP : complex; rQ : complex; rR : complex; rU : complex; ry : complex }.

Definition resolvent `{L : Libm} (d : Depressed) : Resolvent :=
  let alpha := alpha d in
  let beta := beta d in
  let gamma := gamma d in
  let alpha_pw2 := alpha * alpha in
  let alpha_pw3 := alpha_pw2 * alpha in
  let P := Cplx (- alpha_pw2 / 12 - gamma) 0 in
  let Q := Cplx (- alpha_pw3 / 108 + alpha * gamma / 3 - pow beta 2 / 8) 0 in
  let R := Complex.add (Complex.div_s (Complex.neg Q) 2)
             (csqrt (Complex.add (Complex.div_s (cpow Q 2) 4) (Complex.div_s (cpow P 3) 27))) in
  let U := cpow R (1 / 3) in
  let y :=
    if real U =? 0
    then Complex.s_sub (-5 * alpha / 6) (cpow Q (1 / 3))
    else Complex.add (Complex.s_sub (-5 * alpha / 6) (cdiv P (Complex.s_mul 3 U))) U in
  mkResolvent P Q R U y.

(** The four roots written into [realRoots] (lines 235-246). *)
Definition write_roots `{L : Libm} (A B : float) (d : Depressed) (y : complex)
    (realRoots : Vector4d) : option Vector4d :=
  let alpha := alpha d in
  let beta := beta d in
  let w := csqrt (Complex.s_add alpha (Complex.s_mul 2 y)) in
  let temp :=
    Complex.s_add (- B / (4 * A))
      (Complex.s_mul 0.5
         (Complex.add w
            (csqrt (Complex.neg (Complex.add (Complex.s_add (3 * alpha) (Complex.s_mul 2 y))
                                             (s_div (2 * beta) w)))))) in
  realRoots <- Eigen.set_coeff4 realRoots 0 (real temp) ;;
  let temp :=
    Complex.s_add (- B / (4 * A))
      (Complex.s_mul 0.5
         (Complex.sub w
            (csqrt (Complex.neg (Complex.add (Complex.s_add (3 * alpha) (Complex.s_mul 2 y))
                                             (s_div (2 * beta) w)))))) in
  realRoots <- Eigen.set_coeff4 realRoots 1 (real temp) ;;
  let temp :=
    Complex.s_add (- B / (4 * A))
      (Complex.s_mul 0.5
         (Complex.add (Complex.neg w)
            (csqrt (Complex.neg (Complex.sub (Complex.s_add (3 * alpha) (Complex.s_mul 2 y))
                                             (s_div (2 * beta) w)))))) in
  realRoots <- Eigen.set_coeff4 realRoots 2 (real temp) ;;
  let temp :=
    Complex.s_add (- B / (4 * A))
      (Complex.s_mul 0.5
         (Complex.sub (Complex.neg w)
            (csqrt (Complex.neg (Complex.sub (Complex.s_add (3 * alpha) (Complex.s_mul 2 y))
                                             (s_div (2 * beta) w)))))) in
  realRoots <- Eigen.set_coeff4 realRoots 3 (real temp) ;;
  Some realRoots.

Definition solveQuartic `{L : Libm} (factors : Vector5d) (realRoots : Vector4d)
  : option (Z * Vector4d) :=
  A <- Eigen.coeff5 factors 0 ;;
  B <- Eigen.coeff5 factors 1 ;;
  C <- Eigen.coeff5 factors 2 ;;
  D <- Eigen.coeff5 factors 3 ;;
  E <- Eigen.coeff5 factors 4 ;;
  let d := depress A B C D E in
  let y := ry (resolvent d) in
  realRoots <- write_roots A B d y realRoots ;;
  Some (0%Z, realRoots).

(** ** [P3P_Kneip::computePoses] *)

(** The indeterminate initial contents of the locals declared without an
    initialiser. *)
Record Locals := mkLocals {
  T_init : Matrix3d;
  N_init : Matrix3d;
  factors_init : Vector5d;
  realRoots_init : Vector4d;
  gwc_init : Matrix34d
}.

(** The test of line 48 on the three world points. *)
Definition aligned (P1 P2 P3 : Vector3d) : bool :=
  let temp1 := Eigen.vsub P2 P1 in
  let temp2 := Eigen.vsub P3 P1 in
  Eigen.norm (Eigen.cross temp1 temp2) =? 0.

(** The frame [(e1, e2, e3)] of two directions, written into [T] and
    transposed in place (lines 59-68, and again lines 79-87). *)
Definition frame_of (T : Matrix3d) (f1 f2 : Vector3d) : option Matrix3d :=
  let e1 := f1 in
  let e3 := Eigen.cross f1 f2 in
  let e3 := Eigen.vdiv e3 (Eigen.norm e3) in
  let e2 := Eigen.cross e3 e1 in
  T <- Eigen.set_col T 0 e1 ;;
  T <- Eigen.set_col T 1 e2 ;;
  T <- Eigen.set_col T 2 e3 ;;
  Some (Eigen.transpose T).

(** What lines 53-94 leave in [f1], [f2], [f3], [T], [P1], [P2], [P3]. *)
Record Camera := mkCamera {
  cam_f1 : Vector3d; cam_f2 : Vector3d; cam_f3 : Vector3d;
  cam_T : Matrix3d;
  cam_P1 : Vector3d; cam_P2 : Vector3d; cam_P3 : Vector3d
}.

Definition camera_frame (T : Matrix3d) (featureVectors worldPoints : Matrix3d)
    (P1 P2 P3 : Vector3d) : option Camera :=
  f1 <- Eigen.col featureVectors 0 ;;
  f2 <- Eigen.col featureVectors 1 ;;
  f3 <- Eigen.col featureVectors 2 ;;
  T <- frame_of T f1 f2 ;;
  let f3 := Eigen.mulv T f3 in
  f3_2 <- Eigen.coeff f3 2 ;;
  if 0 <? f3_2 then
    f1 <- Eigen.col featureVectors 1 ;;
    f2 <- Eigen.col featureVectors 0 ;;
    f3 <- Eigen.col featureVectors 2 ;;
    T <- frame_of T f1 f2 ;;
    let f3 := Eigen.mulv T f3 in
    P1 <- Eigen.col worldPoints 1 ;;
    P2 <- Eigen.col worldPoints 0 ;;
    P3 <- Eigen.col worldPoints 2 ;;
    Some (mkCamera f1 f2 f3 T P1 P2 P3)
  else
    Some (mkCamera f1 f2 f3 T P1 P2 P3).

(** The intermediate world frame [N] and the third world point expressed in
    it (lines 96-110). *)
Definition world_frame (N : Matrix3d) (P1 P2 P3 : Vector3d)
  : option (Matrix3d * Vector3d) :=
  let n1 := Eigen.vsub P2 P1 in
  let n1 := Eigen.vdiv n1 (Eigen.norm n1) in
  let n3 := Eigen.cross n1 (Eigen.vsub P3 P1) in
  let n3 := Eigen.vdiv n3 (Eigen.norm n3) in
  let n2 := Eigen.cross n3 n1 in
  N <- Eigen.set_col N 0 n1 ;;
  N <- Eigen.set_col N 1 n2 ;;
  N <- Eigen.set_col N 2 n3 ;;
  let N := Eigen.transpose N in
  let P3 := Eigen.mulv N (Eigen.vsub P3 P1) in
  Some (N, P3).

(** The known parameters (lines 112-129). *)
Record Params := mkParams {
  d_12 : float; f_1 : float; f_2 : float; p_1 : float; p_2 : float;
  cos_beta : float; b : float
}.

(** Lines 119-129: [b], signed by [cos_beta]. *)
Definition signed_b `{L : Libm} (cos_beta : float) : float :=
  let b := 1 / (1 - pow cos_beta 2) - 1 in
  if cos_beta <? 0 then - sqrt b else sqrt b.

Definition parameters `{L : Libm} (f1 f2 f3 P1 P2 P3 : Vector3d) : option Params :=
  let d_12 := Eigen.norm (Eigen.vsub P2 P1) in
  f3_0 <- Eigen.coeff f3 0 ;;
  f3_1 <- Eigen.coeff f3 1 ;;
  f3_2 <- Eigen.coeff f3 2 ;;
  let f_1 := f3_0 / f3_2 in
  let f_2 := f3_1 / f3_2 in
  p_1 <- Eigen.coeff P3 0 ;;
  p_2 <- Eigen.coeff P3 1 ;;
  let cos_beta := Eigen.dot f1 f2 in
  let b := signed_b cos_beta in
  Some (mkParams d_12 f_1 f_2 p_1 p_2 cos_beta b).

(** The coefficients of the quartic (lines 131-153). *)
Definition quartic_factors `{L : Libm} (factors : Vector5d) (k : Params) : option Vector5d :=
  let d_12 := d_12 k in
  let f_1 := f_1 k in
  let f_2 := f_2 k in
  let p_1 := p_1 k in
  let p_2 := p_2 k in
  let b := b k in
  let f_1_pw2 := pow f_1 2 in
  let f_2_pw2 := pow f_2 2 in
  let p_1_pw2 := pow p_1 2 in
  let p_1_pw3 := p_1_pw2 * p_1 in
  let p_1_pw4 := p_1_pw3 * p_1 in
  let p_2_pw2 := pow p_2 2 in
  let p_2_pw3 := p_2_pw2 * p_2 in
  let p_2_pw4 := p_2_pw3 * p_2 in
  let d_12_pw2 := pow d_12 2 in
  let b_pw2 := pow b 2 in
  factors <- Eigen.set_coeff5 factors 0
    (- f_2_pw2 * p_2_pw4 - p_2_pw4 * f_1_pw2 - p_2_pw4) ;;
  factors <- Eigen.set_coeff5 factors 1
    (2 * p_2_pw3 * d_12 * b + 2 * f_2_pw2 * p_2_pw3 * d_12 * b - 2 * f_2 * p_2_pw3 * f_1 * d_12) ;;
  factors <- Eigen.set_coeff5 factors 2
    (- f_2_pw2 * p_2_pw2 * p_1_pw2 - f_2_pw2 * p_2_pw2 * d_12_pw2 * b_pw2
     - f_2_pw2 * p_2_pw2 * d_12_pw2 + f_2_pw2 * p_2_pw4 + p_2_pw4 * f_1_pw2
     + 2 * p_1 * p_2_pw2 * d_12 + 2 * f_1 * f_2 * p_1 * p_2_pw2 * d_12 * b
     - p_2_pw2 * p_1_pw2 * f_1_pw2 + 2 * p_1 * p_2_pw2 * f_2_pw2 * d_12
     - p_2_pw2 * d_12_pw2 * b_pw2 - 2 * p_1_pw2 * p_2_pw2) ;;
  factors <- Eigen.set_coeff5 factors 3
    (2 * p_1_pw2 * p_2 * d_12 * b + 2 * f_2 * p_2_pw3 * f_1 * d_12
     - 2 * f_2_pw2 * p_2_pw3 * d_12 * b - 2 * p_1 * p_2 * d_12_pw2 * b) ;;
  factors <- Eigen.set_coeff5 factors 4
    (-2 * f_2 * p_2_pw2 * f_1 * p_1 * d_12 * b + f_2_pw2 * p_2_pw2 * d_12_pw2
     + 2 * p_1_pw3 * d_12 - p_1_pw2 * d_12_pw2 + f_2_pw2 * p_2_pw2 * p_1_pw2
     - p_1_pw4 - 2 * f_2_pw2 * p_2_pw2 * p_1 * d_12 + p_2_pw2 * f_1_pw2 * p_1_pw2
     + f_2_pw2 * p_2_pw2 * d_12_pw2 * b_pw2) ;;
  Some factors.

(** The two angles recovered from one root (lines 163-174). *)
Record Angles := mkAngles {
  cot_alpha : float;
  cos_theta : float; sin_theta : float;
  sin_alpha : float; cos_alpha : float
}.

Definition angles `{L : Libm} (k : Params) (root : float) : Angles :=
  let cot_alpha :=
    (- f_1 k * p_1 k / f_2 k - root * p_2 k + d_12 k * b k) /
    (- f_1 k * root * p_2 k / f_2 k + p_1 k - d_12 k) in
  let cos_theta := root in
  let sin_theta := sqrt (1 - pow root 2) in
  let sin_alpha := sqrt (1 / (pow cot_alpha 2 + 1)) in
  let cos_alpha := sqrt (1 - pow sin_alpha 2) in
  let cos_alpha := if cot_alpha <? 0 then - cos_alpha else cos_alpha in
  mkAngles cot_alpha cos_theta sin_theta sin_alpha cos_alpha.

(** The camera centre [C] (lines 177-181). *)
Definition centre (k : Params) (N : Matrix3d) (P1 : Vector3d) (a : Angles) : Vector3d :=
  let C := V3 (d_12 k * cos_alpha a * (sin_alpha a * b k + cos_alpha a))
              (cos_theta a * d_12 k * sin_alpha a * (sin_alpha a * b k + cos_alpha a))
              (sin_theta a * d_12 k * sin_alpha a * (sin_alpha a * b k + cos_alpha a)) in
  Eigen.vadd P1 (Eigen.mulv (Eigen.transpose N) C).

(** The orientation [R] (lines 183-188). *)
Definition orientation (N T : Matrix3d) (a : Angles) : Matrix3d :=
  let R := Eigen.of_rows
    (V3 (- cos_alpha a) (- sin_alpha a * cos_theta a) (- sin_alpha a * sin_theta a))
    (V3 (sin_alpha a) (- cos_alpha a * cos_theta a) (- cos_alpha a * sin_theta a))
    (V3 0 (- sin_theta a) (cos_theta a)) in
  Eigen.mulm (Eigen.mulm (Eigen.transpose N) (Eigen.transpose R)) T.

(** One turn of the loop of lines 161-192, on [gwc] and [solutions]. *)
Definition backsubstitute `{L : Libm} (k : Params) (N T : Matrix3d) (P1 : Vector3d)
    (realRoots : Vector4d) (i : Z) (st : Matrix34d * list Matrix34d)
  : option (Matrix34d * list Matrix34d) :=
  let '(gwc, solutions) := st in
  root <- Eigen.coeff4 realRoots i ;;
  let a := angles k root in
  let C := centre k N P1 a in
  let R := orientation N T a in
  gwc <- Eigen.set_block33 gwc 0 0 R ;;
  gwc <- Eigen.set_block31 gwc 0 3 C ;;
  Some (gwc, solutions ++ [gwc]).

(** [for (int i = from; i < from + n; i++)] *)
Fixpoint for_loop {St : Type} (n : nat) (i : Z) (body : Z -> St -> option St) (s : St)
  : option St :=
  match n with
  | O => Some s
  | S n' => s' <- body i s ;; for_loop n' (i + 1)%Z body s'
  end.

(** Lines 96-194: everything after the camera frame is fixed. *)
Definition poses_in_frame `{L : Libm} (u : Locals) (cam : Camera) (solutions : list Matrix34d)
  : option (Z * list Matrix34d) :=
  '(N, P3) <- world_frame (N_init u) (cam_P1 cam) (cam_P2 cam) (cam_P3 cam) ;;
  k <- parameters (cam_f1 cam) (cam_f2 cam) (cam_f3 cam) (cam_P1 cam) (cam_P2 cam) P3 ;;
  factors <- quartic_factors (factors_init u) k ;;
  '(_, realRoots) <- solveQuartic factors (realRoots_init u) ;;
  '(_, solutions) <- for_loop 4 0%Z (backsubstitute k N (cam_T cam) (cam_P1 cam) realRoots)
                       (gwc_init u, solutions) ;;
  Some (0%Z, solutions).

Definition computePoses `{L : Libm} (u : Locals) (featureVectors worldPoints : Matrix3d)
    (solutions : list Matrix34d) : option (Z * list Matrix34d) :=
  P1 <- Eigen.col worldPoints 0 ;;
  P2 <- Eigen.col worldPoints 1 ;;
  P3 <- Eigen.col worldPoints 2 ;;
  if aligned P1 P2 P3 then Some ((-1)%Z, solutions) else
  cam <- camera_frame (T_init u) featureVectors worldPoints P1 P2 P3 ;;
  poses_in_frame u cam solutions.

(** The contents of [gwc] when a turn of the loop ends: the two block
    assignments of lines 189-190 overwrite all twelve coefficients. *)
Definition pose `{L : Libm} (k : Params) (N T : Matrix3d) (P1 : Vector3d) (root : float)
  : Matrix34d :=
  let a := angles k root in
  let R := orientation N T a in
  M34 (c0 R) (c1 R) (c2 R) (centre k N P1 a).

(** ** The specification's formulas *)

(** [x^n] in doubles, by repeated multiplication. *)
Fixpoint fpow (x : float) (n : nat) : float :=
  match n with
  | O => 1
  | S O => x
  | S n' => fpow x n' * x
  end.

(** Section 4.1, step 1: the depression parameters. *)
Definition alpha_spec (A B C : float) : float :=
  -3 * fpow B 2 / (8 * fpow A 2) + C / A.

Definition beta_spec (A B C D : float) : float :=
  fpow B 3 / (8 * fpow A 3) - B * C / (2 * fpow A 2) + D / A.

Definition gamma_spec (A B C D E : float) : float :=
  -3 * fpow B 4 / (256 * fpow A 4) + fpow B 2 * C / (16 * fpow A 3)
  - B * D / (4 * fpow A 2) + E / A.

(** One of the two signs of a [±]. *)
Inductive sign := plus | minus.

(** [± z] *)
Definition signed (s : sign) (z : complex) : complex :=
  match s with
  | plus => z
  | minus => Complex.neg z
  end.

(** [z ± w] *)
Definition plus_minus (s : sign) (z w : complex) : complex :=
  match s with
  | plus => Complex.add z w
  | minus => Complex.sub z w
  end.

(** Section 4.1, step 6: the root of the sign combination [(s1, s2)],
    [-B/(4A) ± w/2 ± sqrt(-(3 alpha + 2y ± 2 beta/w))/2], the halves taken
    once on the sum as the code takes them; the inner [±] is [s1]. *)
Definition root_spec `{L : Libm} (A B alpha beta : float) (y w : complex) (s1 s2 : sign)
  : complex :=
  Complex.s_add (- B / (4 * A))
    (Complex.s_mul 0.5
       (plus_minus s2 (signed s1 w)
          (csqrt (Complex.neg
             (plus_minus s1 (Complex.s_add (3 * alpha) (Complex.s_mul 2 y))
                            (s_div (2 * beta) w)))))).

(** A double that is a zero or [nan]. *)
Definition vanishes (x : float) : bool := (x =? 0) || is_nan x.

(** Two directions are parallel when their cross product vanishes; a
    coefficient lost to an overflow of the products counts as well. *)
Definition parallel (d0 d1 : Vector3d) : Prop :=
  let c := Eigen.cross d0 d1 in
  vanishes (x0 c) = true /\ vanishes (x1 c) = true /\ vanishes (x2 c) = true.

Definition nan3 : Vector3d := V3 nan nan nan.

(** Every coefficient of the orientation block of a pose is [nan]. *)
Definition orientation_nan (g : Matrix34d) : Prop :=
  g0 g = nan3 /\ g1 g = nan3 /\ g2 g = nan3.

(** ** A mathematical library to run the model

    A stand-in for libm and libstdc++ on the calls the solver makes: squares
    and cubes by multiplication, the real cube root by Newton's iteration,
    the principal complex square root and the quotient by the textbook
    formulas, the principal complex cube root in polar form, with the
    argument and its cosine and sine from their power series.  It serves
    the concrete runs at the end; no theorem depends on it. *)

Module Sample.

Fixpoint newton_cbrt (n : nat) (a x : float) : float :=
  match n with
  | O => x
  | S n' => newton_cbrt n' a ((2 * x + a / (x * x)) / 3)
  end.

Definition cbrt (a : float) : float := newton_cbrt 200 a 1.

Definition pow (x y : float) : float :=
  if y =? 2 then x * x
  else if y =? 3 then x * x * x
  else if (y =? 1 / 3) && (0 <? x) then cbrt x
  else nan.

(** [acc + sum of the next n terms] of the series of [cos] ([k = 0]) or
    [sin] ([k = 1]), [term] being the last term added. *)
Fixpoint trig_series (n : nat) (term acc xx k : float) : float :=
  match n with
  | O => acc
  | S n' =>
    let term := - term * xx / ((k + 1) * (k + 2)) in
    trig_series n' term (acc + term) xx (k + 2)
  end.

Definition cos (x : float) : float := trig_series 30 1 1 (x * x) 0.
Definition sin (x : float) : float := trig_series 30 x x (x * x) 1.

Fixpoint atan_series (n : nat) (power acc xx k : float) : float :=
  match n with
  | O => acc
  | S n' =>
    let power := - power * xx in
    atan_series n' power (acc + power / (k + 2)) xx (k + 2)
  end.

(** [atan t = 2 atan (t / (1 + sqrt (1 + t^2)))], three times, then the
    series. *)
Definition atan (t : float) : float :=
  let halve t := t / (1 + sqrt (1 + t * t)) in
  let t := halve (halve (halve t)) in
  8 * atan_series 60 t t (t * t) 1.

Definition cabs (z : complex) : float :=
  sqrt (real z * real z + imag z * imag z).

Definition arg (z : complex) : float :=
  if (imag z =? 0) && (real z <? 0) then 0x1.921fb54442d18p+1
  else 2 * atan (imag z / (cabs z + real z)).

Definition cmul (z w : complex) : complex :=
  Cplx (real z * real w - imag z * imag w) (real z * imag w + imag z * real w).

Definition cdiv (z w : complex) : complex :=
  let n := real w * real w + imag w * imag w in
  Cplx ((real z * real w + imag z * imag w) / n)
       ((imag z * real w - real z * imag w) / n).

Definition csqrt (z : complex) : complex :=
  let x := real z in
  let y := imag z in
  if x =? 0 then
    let t := sqrt (abs y / 2) in
    Cplx t (if y <? 0 then - t else t)
  else
    let t := sqrt (2 * (cabs z + abs x)) in
    let u := t / 2 in
    if 0 <? x then Cplx u (y / t)
    else Cplx (abs y / t) (if y <? 0 then - u else u).

(** Squares, cubes and principal cube roots; [nan] for other exponents. *)
Definition cpow (z : complex) (y : float) : complex :=
  if (imag z =? 0) && (0 <? real z) then Cplx (pow (real z) y) 0
  else if y =? 2 then cmul z z
  else if y =? 3 then cmul (cmul z z) z
  else if y =? 1 / 3 then
    if (real z =? 0) && (imag z =? 0) then Cplx 0 0
    else
      let r := cbrt (cabs z) in
      let t := arg z / 3 in
      Cplx (r * cos t) (r * sin t)
  else Cplx nan nan.

Definition libm : Libm :=
  Build_Libm pow cpow csqrt cdiv.

(** Indeterminate contents for the locals. *)
Definition locals : Locals :=
  let v := V3 7 7 7 in
  mkLocals (M3 v v v) (M3 v v v) (V5 7 7 7 7 7) (V4 7 7 7 7) (M34 v v v v).

(** Within [2^-30] of each other. *)
Definition close (x y : float) : bool := abs (x - y) <? 0x1p-30.

Definition close3 (u v : Vector3d) : bool :=
  close (x0 u) (x0 v) && close (x1 u) (x1 v) && close (x2 u) (x2 v).

(** The direction of the unit length along [v]. *)
Definition normalized (v : Vector3d) : Vector3d := Eigen.vdiv v (Eigen.norm v).

End Sample.

(** ** Facts on binary64 arithmetic *)

(** The values that are not below zero: a zero, a positive number or
    infinity, and [nan]. *)
Definition SFnot_neg (r : spec_float) : Prop :=
  match r with
  | S754_nan | S754_zero _ => True
  | S754_infinity s | S754_finite s _ _ => s = false
  end.

Definition SFnot_pos (r : spec_float) : Prop :=
  match r with
  | S754_nan | S754_zero _ => True
  | S754_infinity s | S754_finite s _ _ => s = true
  end.

(** Two values that are each other's opposite, the sign of a zero apart. *)
Definition SFzero (a : spec_float) : Prop :=
  match a with
  | S754_zero _ => True
  | _ => False
  end.

Definition SFopposite (a b : spec_float) : Prop :=
  b = SFopp a \/ (SFzero a /\ SFzero b).

Definition opposite (x y : float) : Prop := SFopposite (Prim2SF x) (Prim2SF y).

(** Two values that are the same, the sign of a zero apart. *)
Definition SFsame (a b : spec_float) : Prop :=
  b = a \/ (SFzero a /\ SFzero b).

(** An infinity or [nan]. *)
Definition SFnonfinite (a : spec_float) : Prop :=
  match a with
  | S754_nan | S754_infinity _ => True
  | _ => False
  end.

Definition NF (x : float) : Prop := SFnonfinite (Prim2SF x).

(** ** Quantities the further properties speak of *)

(** The third coordinate of direction [d2] in the frame of [d0] and [d1]:
    what [f3[2]] holds after line 70. *)
Definition third_coordinate (d0 d1 d2 : Vector3d) : float :=
  let e3 := Eigen.cross d0 d1 in
  let e3 := Eigen.vdiv e3 (Eigen.norm e3) in
  Eigen.dot e3 d2.

(** The same correspondences with the two first ones in the other order. *)
Definition exchange (m : Matrix3d) : Matrix3d := M3 (c1 m) (c0 m) (c2 m).

Definition finite3 (v : Vector3d) : bool :=
  is_finite (x0 v) && is_finite (x1 v) && is_finite (x2 v).

Definition has_nan3 (v : Vector3d) : bool :=
  is_nan (x0 v) || is_nan (x1 v) || is_nan (x2 v).

(** Equal as numbers, or both [nan]. *)
Definition same_value (x y : float) : Prop :=
  (x =? y) = true \/ (x = nan /\ y = nan).

(** The order of the doubles that are not [nan], as the order of triples of
    integers. *)
Definition SFkey (a : spec_float) : Z * Z * Z :=
  match a with
  | S754_infinity true => (-2, 0, 0)%Z
  | S754_finite true m e => (-1, - e, Z.neg m)%Z
  | S754_zero _ | S754_nan => (0, 0, 0)%Z
  | S754_finite false m e => (1, e, Z.pos m)%Z
  | S754_infinity false => (2, 0, 0)%Z
  end.

Definition lex3 (k k' : Z * Z * Z) : comparison :=
  let '(a, b, c) := k in
  let '(a', b', c') := k' in
  match Z.compare a a' with
  | Eq => match Z.compare b b' with
          | Eq => Z.compare c c'
          | r => r
          end
  | r => r
  end.

(** * Histogram: a counter with fixed bins

    The second unnamed source file, [theia::Histogram<T>].  The class is a
    template: the element type [T], its [operator<] and the two values
    [-std::numeric_limits<T>::infinity()] and [std::numeric_limits<T>::max()]
    are the variables of the section.  A [std::vector] is a list; what the
    C++ standard leaves undefined (an index out of range, the overflow of an
    [int] counter) answers [None].  The member
    [below_minimum_boundary_count_] is never read or written and is left
    out. *)

Module Histogram.
Import String.StringSyntax.

(** [int]: the value an [int] holds after a conversion from a wider type. *)
Definition INT_MAX : Z := 2147483647.

Definition to_int (z : Z) : Z := ((z + 2147483648) mod 4294967296 - 2147483648)%Z.

(** [v[i]] for an [int] index: the conversion to [size_t] sends a negative
    index beyond every size. *)
Definition at_index {A : Type} (l : list A) (i : Z) : option A :=
  if (i <? 0)%Z then None else nth_error l (Z.to_nat i).

Fixpoint set_nth {A : Type} (l : list A) (n : nat) (a : A) : list A :=
  match l, n with
  | [], _ => []
  | _ :: l', O => a :: l'
  | x :: l', S n' => x :: set_nth l' n' a
  end.

(** An argument of [StringPrintf]. *)
Inductive arg :=
| arg_s (s : String.string)
| arg_d (n : Z).

Section Template.
Local Open Scope string_scope.
Variable T : Type.
Variable lt : T -> T -> bool.
Variable minus_infinity : T.
Variable max : T.

Record t := mk {
  boundaries_ : list T;
  histogram_count_ : list Z
}.

(** The constructor. *)
Definition make (boundaries : list T) : t :=
  let boundaries_ := boundaries in
  let boundaries_ := minus_infinity :: boundaries_ in
  let boundaries_ := boundaries_ ++ [max] in
  mk boundaries_ (repeat 0%Z (length boundaries_)).

(** [std::upper_bound] as libstdc++ searches: [len] elements from [first]
    on are left to look at; [fuel] bounds the halvings. *)
Fixpoint upper_bound_loop (fuel : nat) (l : list T) (first len : nat) (value : T)
  : option nat :=
  match fuel with
  | O => if Nat.eqb len 0 then Some first else None
  | S fuel' =>
    if Nat.eqb len 0 then Some first else
    let half := Nat.div2 len in
    let middle := (first + half)%nat in
    m <- nth_error l middle ;;
    if lt value m
    then upper_bound_loop fuel' l first half value
    else upper_bound_loop fuel' l (S middle) (len - half - 1)%nat value
  end.

Definition upper_bound (l : list T) (value : T) : option nat :=
  upper_bound_loop (length l) l 0 (length l) value.

(** [Add] *)
Definition Add (h : t) (value : T) : option t :=
  it <- upper_bound (boundaries_ h) value ;;
  let bin_index := to_int (Z.of_nat it - 1) in
  count <- at_index (histogram_count_ h) bin_index ;;
  if (count <? INT_MAX)%Z
  then Some (mk (boundaries_ h)
                (set_nth (histogram_count_ h) (Z.to_nat bin_index) (count + 1)%Z))
  else None.

(** [PrintString], with [std::to_string] and [theia::StringPrintf], which
    is not among the sources, as they are called. *)
Variable to_string : T -> String.string.
Variable StringPrintf : String.string -> list arg -> String.string.

Definition newline : String.string :=
  String.String (Ascii.ascii_of_nat 10) String.EmptyString.

(** One turn of the loop of [PrintString]. *)
Definition print_bin (h : t) (i : Z) (msg : String.string) : option String.string :=
  lower <- at_index (boundaries_ h) i ;;
  upper <- at_index (boundaries_ h) (i + 1) ;;
  count <- at_index (histogram_count_ h) i ;;
  let msg := String.append msg
    (StringPrintf "[%s - %s) = %d " [arg_s (to_string lower); arg_s (to_string upper); arg_d count]) in
  Some (String.append msg newline).

Definition PrintString (h : t) : option String.string :=
  let msg := String.EmptyString in
  front <- hd_error (histogram_count_ h) ;;
  msg <- (if (0 <? front)%Z then
            b <- at_index (boundaries_ h) 1 ;;
            let msg := String.append msg
              (StringPrintf "< %s = %d" [arg_s (to_string b); arg_d front]) in
            Some (String.append msg newline)
          else Some msg) ;;
  let size := length (boundaries_ h) in
  if (size <? 2)%nat then None else
  msg <- for_loop (size - 3) 1%Z (print_bin h) msg ;;
  let max_boundary_index := to_int (Z.of_nat size - 2) in
  count <- at_index (histogram_count_ h) max_boundary_index ;;
  if (0 <? count)%Z then
    b <- at_index (boundaries_ h) max_boundary_index ;;
    Some (String.append msg
            (StringPrintf "> %s = %d" [arg_s (to_string b); arg_d count]))
  else Some msg.

(** The constructor's shape, kept by [Add]. *)
Definition well_formed (h : t) : Prop :=
  (exists boundaries, boundaries_ h = minus_infinity :: boundaries ++ [max]) /\
  length (histogram_count_ h) = length (boundaries_ h).

(** The sum of all the counters. *)
Definition total (h : t) : Z := fold_right Z.add 0%Z (histogram_count_ h).

(** No boundary is above a later one. *)
Definition sorted (l : list T) : Prop :=
  forall i j x y, (i <= j)%nat -> nth_error l i = Some x -> nth_error l j = Some y ->
                  lt y x = false.

End Template.

(** [Histogram<double>] *)
Definition DBL_MAX : float := 0x1.fffffffffffffp+1023.

Definition make_double : list float -> t float := make float neg_infinity DBL_MAX.

Definition Add_double : t float -> float -> option (t float) := Add float PrimFloat.ltb.

(** [Histogram<int>]: [int] has no infinity and
    [std::numeric_limits<int>::infinity()] is 0. *)
Definition make_int : list Z -> t Z := make Z 0%Z INT_MAX.

Definition Add_int : t Z -> Z -> option (t Z) := Add Z Z.ltb.

End Histogram.

(** * ConnectedComponents: union-find with a limit on the size

    The first unnamed source file, [theia::ConnectedComponents<T>].  The
    class is a template: the node type [T], its [operator==] and
    [std::numeric_limits<T>::max()] are the variables of the section.

    - [disjoint_set_], a [std::unordered_map<T, Root>], is an association
      list with one entry for a key.  The order in which [Extract] goes
      through it is the order of the list; [std::unordered_map] promises
      none.
    - A [Root*] is a pointer to the value of an entry of [disjoint_set_],
      and the entries of a [std::unordered_map] never move: the pointer is
      the key of its entry, [deref] reads through it and [assign] writes
      through it.
    - [FindOrNull] and [InsertOrDie] of [theia/util/map_util.h] are not
      among the sources; they are the lookup that answers a null pointer for
      a missing key and the insertion that aborts on a key that is there.
    - A failed [CHECK] aborts the program: [None].  [FindRoot] calls itself,
      once for every step from the node to its root; on parents that go
      round in a circle it never returns.  The model gives it as many steps
      as the map has entries, which is enough whenever there is no circle,
      and answers [None] otherwise.  The overflow of an [int] is undefined
      and answers [None] too. *)

Module ConnectedComponents.

Definition INT_MIN : Z := -2147483648.
Definition INT_MAX : Z := 2147483647.

(** The conversion to [uint64_t]. *)
Definition to_uint64 (z : Z) : Z := (z mod 18446744073709551616)%Z.

Section Template.
Variable T : Type.
Variable eqb : T -> T -> bool.
Variable T_max : Z.

Record Root := mkRoot { id : T; size : Z }.

Definition unordered_map : Type := list (T * Root).

Record t := mk {
  max_connected_component_size_ : Z;
  disjoint_set_ : unordered_map
}.

(** [FindOrNull(map, key)]: the pointer it returns is [key] itself, here is
    what it points to. *)
Fixpoint FindOrNull (m : unordered_map) (key : T) : option Root :=
  match m with
  | [] => None
  | (k, r) :: m' => if eqb k key then Some r else FindOrNull m' key
  end.

(** [InsertOrDie(&map, key, value)] *)
Definition InsertOrDie (m : unordered_map) (key : T) (value : Root) : option unordered_map :=
  match FindOrNull m key with
  | Some _ => None
  | None => Some ((key, value) :: m)
  end.

(** [*p] *)
Definition deref (m : unordered_map) (p : T) : option Root := FindOrNull m p.

(** [*p = r] *)
Fixpoint assign (m : unordered_map) (p : T) (r : Root) : unordered_map :=
  match m with
  | [] => []
  | (k, v) :: m' => if eqb k p then (k, r) :: m' else (k, v) :: assign m' p r
  end.

(** The two constructors. *)
Definition make : t := mk (to_uint64 T_max) [].

Definition make_max (max_size : Z) : option t :=
  let max_connected_component_size_ := to_uint64 max_size in
  if (0 <? max_connected_component_size_)%Z
  then Some (mk max_connected_component_size_ [])
  else None.

(** [FindRoot]: the map after the call and the pointer returned. *)
Fixpoint FindRoot_rec (fuel : nat) (m : unordered_map) (node : T)
  : option (unordered_map * T) :=
  match fuel with
  | O => None
  | S fuel' =>
    parent <- FindOrNull m node ;;
    if eqb node (id parent) then Some (m, node) else
    '(m, root) <- FindRoot_rec fuel' m (id parent) ;;
    r <- deref m root ;;
    Some (assign m node r, root)
  end.

Definition FindRoot (m : unordered_map) (node : T) : option (unordered_map * T) :=
  FindRoot_rec (length m) m node.

(** [FindOrInsert] *)
Definition FindOrInsert (m : unordered_map) (node : T) : option (unordered_map * T) :=
  match FindOrNull m node with
  | None =>
    m <- InsertOrDie m node (mkRoot node 1) ;;
    _ <- FindOrNull m node ;;
    Some (m, node)
  | Some _ => FindRoot m node
  end.

(** [AddEdge] *)
Definition AddEdge (c : t) (node1 node2 : T) : option t :=
  let max := max_connected_component_size_ c in
  '(m, root1) <- FindOrInsert (disjoint_set_ c) node1 ;;
  '(m, root2) <- FindOrInsert m node2 ;;
  r1 <- deref m root1 ;;
  r2 <- deref m root2 ;;
  if eqb (id r1) (id r2) then Some (mk max m) else
  let sum := (size r1 + size r2)%Z in
  if ((sum <? INT_MIN) || (INT_MAX <? sum))%Z then None else
  if (max <? to_uint64 sum)%Z then Some (mk max m) else
  if (size r1 <? size r2)%Z then
    let m := assign m root2 (mkRoot (id r2) sum) in
    r2 <- deref m root2 ;;
    Some (mk max (assign m root1 r2))
  else
    let m := assign m root1 (mkRoot (id r1) sum) in
    r1 <- deref m root1 ;;
    Some (mk max (assign m root2 r1)).

(** Edge after edge. *)
Fixpoint AddEdges (c : t) (edges : list (T * T)) : option t :=
  match edges with
  | [] => Some c
  | (node1, node2) :: edges' => c <- AddEdge c node1 node2 ;; AddEdges c edges'
  end.

(** [Extract]: [connected_components], a
    [std::unordered_map<T, std::unordered_set<T>>], is an association list
    of lists. *)
Definition set_insert (s : list T) (x : T) : list T :=
  if existsb (eqb x) s then s else x :: s.

(** The set under [key], made if it is not there, receives [node]. *)
Fixpoint insert_at (cc : list (T * list T)) (key node : T) : list (T * list T) :=
  match cc with
  | [] => [(key, set_insert [] node)]
  | (k, s) :: cc' =>
    if eqb k key then (k, set_insert s node) :: cc' else (k, s) :: insert_at cc' key node
  end.

Fixpoint Extract_loop (nodes : list T) (m : unordered_map) (cc : list (T * list T))
  : option (unordered_map * list (T * list T)) :=
  match nodes with
  | [] => Some (m, cc)
  | node :: nodes' =>
    '(m, root) <- FindRoot m node ;;
    r <- deref m root ;;
    Extract_loop nodes' m (insert_at cc (id r) node)
  end.

Definition Extract (c : t) : option (t * list (T * list T)) :=
  '(m, cc) <- Extract_loop (map fst (disjoint_set_ c)) (disjoint_set_ c) [] ;;
  Some (mk (max_connected_component_size_ c) m, cc).

(** *** What the structure means *)

(** [rooted m n r d]: [d] steps from a node to its parent lead from [n] to
    the root [r]. *)
Inductive rooted (m : unordered_map) : T -> T -> nat -> Prop :=
| rooted_here n p :
    FindOrNull m n = Some p -> id p = n -> rooted m n n 0
| rooted_step n p r d :
    FindOrNull m n = Some p -> id p <> n -> rooted m (id p) r d ->
    rooted m n r (S d).

Definition root_of (m : unordered_map) (n r : T) : Prop := exists d, rooted m n r d.

(** Two nodes of the same component. *)
Definition same_component (m : unordered_map) (x y : T) : Prop :=
  exists r, root_of m x r /\ root_of m y r.

(** The same node, or two nodes of the same component: a node that is not
    in the map is joined to itself alone. *)
Definition joined (m : unordered_map) (x y : T) : Prop :=
  x = y \/ same_component m x y.

(** The nodes of the component of the root [r], each one once. *)
Definition component (m : unordered_map) (r : T) (l : list T) : Prop :=
  NoDup l /\ forall x, In x l <-> root_of m x r.

(** A node right under its root, or a root. *)
Definition flat (m : unordered_map) (n : T) : Prop :=
  exists v, FindOrNull m n = Some v /\ root_of m n (id v).

(** The map is a forest, and every root knows the size of its tree. *)
Definition forest (m : unordered_map) : Prop :=
  NoDup (map fst m) /\
  (forall n, In n (map fst m) -> exists r, root_of m n r) /\
  (forall r v, FindOrNull m r = Some v -> id v = r ->
     exists l, component m r l /\ size v = Z.of_nat (length l)).

(** No component is above the limit. *)
Definition consistent (c : t) : Prop :=
  forest (disjoint_set_ c) /\
  (forall r l, component (disjoint_set_ c) r l ->
     (Z.of_nat (length l) <= Z.max 1 (max_connected_component_size_ c))%Z).

(** The components [Extract] returns: the nodes listed under the key [r]. *)
Fixpoint listed (cc : list (T * list T)) (r x : T) : Prop :=
  match cc with
  | [] => False
  | (k, s) :: cc' => (k = r /\ In x s) \/ listed cc' r x
  end.

End Template.

(** [ConnectedComponents<int>] with a limit of three nodes, after the edges
    1-2 and 3-4. *)
Definition sample : t Z :=
  mk Z 3 [(4, mkRoot Z 3 2); (3, mkRoot Z 3 2); (2, mkRoot Z 1 2); (1, mkRoot Z 1 2)]%Z.

(** [ConnectedComponents<int>] without a limit, after the edges 1-2, 3-4 and
    2-3: the node 4 is two steps away from its root. *)
Definition deep : t Z :=
  mk Z 2147483647
     [(4, mkRoot Z 3 2); (3, mkRoot Z 1 4); (2, mkRoot Z 1 2); (1, mkRoot Z 1 4)]%Z.

End ConnectedComponents.

Module FloatFacts.

Lemma binary_round_aux_sign prec emax sx mx ex lx :
  match binary_round_aux prec emax sx mx ex lx with
  | S754_nan => True
  | S754_zero s | S754_infinity s | S754_finite s _ _ => s = sx
  end.
Proof.
  unfold binary_round_aux.
  destruct (shr_fexp prec emax mx ex lx) as [mrs' e'].
  destruct (shr_fexp prec emax _ e' loc_Exact) as [mrs'' e''].
  destruct (shr_m mrs''); trivial.
  destruct (Z.leb e'' (Z.sub emax prec)); trivial.
Qed.

Lemma SFsqrt_not_neg prec emax x : SFnot_neg (SFsqrt prec emax x).
Proof.
  destruct x as [s | [|] | | [|] m e]; simpl; trivial.
  destruct (SFsqrt_core_binary prec emax (Z.pos m) e) as [[mz ez] lz].
  pose proof (binary_round_aux_sign prec emax false mz ez lz) as Hs.
  destruct (binary_round_aux prec emax false mz ez lz); simpl; trivial.
Qed.

Lemma SFopp_not_pos x : SFnot_neg x -> SFnot_pos (SFopp x).
Proof. destruct x; simpl; trivial; intros ->; reflexivity. Qed.

Lemma SFnot_neg_ltb x : SFnot_neg x -> SFltb x (S754_zero false) = false.
Proof. destruct x; simpl; trivial; intros ->; reflexivity. Qed.

Lemma SFnot_neg_leb x :
  SFnot_neg x -> x <> S754_nan -> SFleb (S754_zero false) x = true.
Proof. destruct x; simpl; trivial; try (intros ->; reflexivity). congruence. Qed.

Lemma SFnot_pos_ltb x : SFnot_pos x -> SFltb (S754_zero false) x = false.
Proof. destruct x; simpl; trivial; intros ->; reflexivity. Qed.

Lemma SFnot_pos_leb x :
  SFnot_pos x -> x <> S754_nan -> SFleb x (S754_zero false) = true.
Proof. destruct x; simpl; trivial; try (intros ->; reflexivity). congruence. Qed.

Lemma is_nan_false x : is_nan x = false -> Prim2SF x <> S754_nan.
Proof.
  unfold is_nan. rewrite eqb_spec. intros Hx Hn. rewrite Hn in Hx. discriminate.
Qed.

(** [sqrt] never answers a negative number. *)
Lemma sqrt_not_neg x :
  (sqrt x <? 0) = false /\ (is_nan (sqrt x) = false -> (0 <=? sqrt x) = true).
Proof.
  pose proof (SFsqrt_not_neg prec emax (Prim2SF x)) as Hs.
  fold SF64sqrt in Hs. rewrite <- sqrt_spec in Hs.
  split.
  - rewrite ltb_spec. now apply SFnot_neg_ltb.
  - intros Hn. rewrite leb_spec. apply SFnot_neg_leb; [exact Hs | now apply is_nan_false].
Qed.

Lemma opp_sqrt_not_pos x :
  (0 <? - sqrt x) = false /\ (is_nan (- sqrt x) = false -> (- sqrt x <=? 0) = true).
Proof.
  pose proof (SFsqrt_not_neg prec emax (Prim2SF x)) as Hs.
  fold SF64sqrt in Hs. rewrite <- sqrt_spec in Hs.
  apply SFopp_not_pos in Hs. rewrite <- opp_spec in Hs.
  split.
  - rewrite ltb_spec. now apply SFnot_pos_ltb.
  - intros Hn. rewrite leb_spec. apply SFnot_pos_leb; [exact Hs | now apply is_nan_false].
Qed.

(** [nan] is absorbing. *)
Lemma eq_nan x : Prim2SF x = S754_nan -> x = nan.
Proof. intros Hx. apply Prim2SF_inj. rewrite Hx. reflexivity. Qed.

Lemma mul_nan_r x : x * nan = nan.
Proof. apply eq_nan. rewrite mul_spec. destruct (Prim2SF x); reflexivity. Qed.

Lemma mul_nan_l x : nan * x = nan.
Proof. apply eq_nan. rewrite mul_spec. reflexivity. Qed.

Lemma add_nan_r x : x + nan = nan.
Proof. apply eq_nan. rewrite add_spec. destruct (Prim2SF x); reflexivity. Qed.

Lemma add_nan_l x : nan + x = nan.
Proof. apply eq_nan. rewrite add_spec. reflexivity. Qed.

Lemma sub_nan_r x : x - nan = nan.
Proof. apply eq_nan. rewrite sub_spec. destruct (Prim2SF x); reflexivity. Qed.

Lemma sub_nan_l x : nan - x = nan.
Proof. apply eq_nan. rewrite sub_spec. reflexivity. Qed.

Lemma div_nan_r x : x / nan = nan.
Proof. apply eq_nan. rewrite div_spec. destruct (Prim2SF x); reflexivity. Qed.

Lemma div_nan_l x : nan / x = nan.
Proof. apply eq_nan. rewrite div_spec. reflexivity. Qed.

Lemma is_nan_true x : is_nan x = true -> x = nan.
Proof.
  unfold is_nan. rewrite eqb_spec. intros Hx. apply eq_nan.
  destruct (Prim2SF x) as [s | s | | s m e]; trivial.
  - discriminate.
  - destruct s; discriminate.
  - exfalso. unfold SFeqb, SFcompare in Hx.
    rewrite Z.compare_refl, (Pos.compare_cont_refl m Eq) in Hx.
    destruct s; discriminate.
Qed.

(** The zeros. *)
Lemma eqb_zero x : (x =? 0) = true -> exists s, Prim2SF x = S754_zero s.
Proof.
  rewrite eqb_spec. change (Prim2SF 0) with (S754_zero false).
  destruct (Prim2SF x) as [s | s | | s m e]; try discriminate.
  - intros _. exists s. reflexivity.
  - destruct s; discriminate.
  - destruct s; discriminate.
Qed.

Lemma sq_zero x s : Prim2SF x = S754_zero s -> x * x = 0.
Proof.
  intros Hx. apply Prim2SF_inj. rewrite mul_spec, Hx. destruct s; reflexivity.
Qed.

Lemma zero_div_zero x s : Prim2SF x = S754_zero s -> x / 0 = nan.
Proof. intros Hx. apply eq_nan. rewrite div_spec, Hx. reflexivity. Qed.

Lemma vanishes_cases x :
  vanishes x = true -> (exists s, Prim2SF x = S754_zero s) \/ x = nan.
Proof.
  unfold vanishes. intros [Hx | Hx]%orb_true_iff.
  - left. now apply eqb_zero.
  - right. now apply is_nan_true.
Qed.

(** Products commute, and a difference [x - x] is a zero or [nan]. *)
Lemma mul_comm x y : x * y = y * x.
Proof.
  apply Prim2SF_inj. rewrite !mul_spec.
  destruct (Prim2SF x) as [sx | sx | | sx mx ex], (Prim2SF y) as [sy | sy | | sy my ey];
    cbn; rewrite ?(xorb_comm sx sy); trivial.
  now rewrite Pos.mul_comm, Z.add_comm.
Qed.

Lemma sub_diag x : vanishes (x - x) = true.
Proof.
  unfold vanishes, is_nan. rewrite !eqb_spec, sub_spec.
  change (Prim2SF 0) with (S754_zero false).
  destruct (Prim2SF x) as [s | s | | s m e]; cbn.
  - destruct s; reflexivity.
  - destruct s; reflexivity.
  - reflexivity.
  - rewrite Z.sub_diag. reflexivity.
Qed.

Lemma binary_round_aux_opp p em s m e l :
  binary_round_aux p em (negb s) m e l = SFopp (binary_round_aux p em s m e l).
Proof.
  unfold binary_round_aux.
  destruct (shr_fexp p em m e l) as [mrs' e'].
  destruct (shr_fexp p em (round_nearest_even (shr_m mrs') (loc_of_shr_record mrs'))
              e' loc_Exact) as [mrs'' e''].
  destruct (shr_m mrs''); cbn; trivial.
  destruct (Z.leb e'' (Z.sub em p)); reflexivity.
Qed.

Lemma opp_mul_l x y : (- x) * y = - (x * y).
Proof.
  apply Prim2SF_inj. rewrite opp_spec, !mul_spec, opp_spec.
  destruct (Prim2SF x) as [sx | sx | | sx mx ex], (Prim2SF y) as [sy | sy | | sy my ey];
    try (destruct sx, sy; reflexivity); try reflexivity.
  change (binary_round_aux prec emax (xorb (negb sx) sy)
            (Z.pos (mx * my)) (Z.add ex ey) loc_Exact
          = SFopp (binary_round_aux prec emax (xorb sx sy)
                     (Z.pos (mx * my)) (Z.add ex ey) loc_Exact)).
  rewrite <- binary_round_aux_opp. now rewrite negb_xorb_l.
Qed.

Lemma opp_mul_r x y : x * (- y) = - (x * y).
Proof. now rewrite mul_comm, opp_mul_l, mul_comm. Qed.

End FloatFacts.

(** ** The stages of [computePoses] never fail

    Each index the code passes is within range, and what a stage leaves
    behind does not depend on the previous contents of the local it writes. *)

Section Stages.
Context `{L : Libm}.

Lemma frame_of_some f1 f2 :
  exists Tf, forall T', frame_of T' f1 f2 = Some Tf.
Proof.
  eexists. intros T'. unfold frame_of.
  cbn [bind Eigen.set_col c0 c1 c2]. reflexivity.
Qed.

Lemma world_frame_some P1 P2 P3 :
  exists N P3', forall N0, world_frame N0 P1 P2 P3 = Some (N, P3').
Proof.
  do 2 eexists. intros N0. unfold world_frame.
  cbn [bind Eigen.set_col c0 c1 c2]. reflexivity.
Qed.

Lemma parameters_some f1 f2 f3 P1 P2 P3 :
  exists k, parameters f1 f2 f3 P1 P2 P3 = Some k.
Proof. eexists. reflexivity. Qed.

Lemma quartic_factors_some k :
  exists F, forall F0, quartic_factors F0 k = Some F.
Proof.
  eexists. intros F0. unfold quartic_factors.
  cbn [bind Eigen.set_coeff5 a0 a1 a2 a3 a4]. reflexivity.
Qed.

Lemma write_roots_some A B d y :
  exists rr, forall rr0, write_roots A B d y rr0 = Some rr.
Proof.
  eexists. intros rr0. unfold write_roots.
  cbn [bind Eigen.set_coeff4 q0 q1 q2 q3]. reflexivity.
Qed.

Lemma solveQuartic_some F :
  exists rr, forall rr0, solveQuartic F rr0 = Some (0%Z, rr).
Proof.
  destruct (write_roots_some (a0 F) (a1 F)
              (depress (a0 F) (a1 F) (a2 F) (a3 F) (a4 F))
              (ry (resolvent (depress (a0 F) (a1 F) (a2 F) (a3 F) (a4 F)))))
    as [rr Hrr].
  exists rr. intros rr0. unfold solveQuartic. cbn [bind Eigen.coeff5].
  rewrite Hrr. reflexivity.
Qed.

Lemma backsubstitute_pose k N T P1 rr i root g sols :
  Eigen.coeff4 rr i = Some root ->
  backsubstitute k N T P1 rr i (g, sols)
  = Some (pose k N T P1 root, sols ++ [pose k N T P1 root]).
Proof. intros Hi. unfold backsubstitute. rewrite Hi. reflexivity. Qed.

Lemma loop_poses k N T P1 rr g sols :
  for_loop 4 0%Z (backsubstitute k N T P1 rr) (g, sols)
  = Some (pose k N T P1 (q3 rr),
          sols ++ map (pose k N T P1) [q0 rr; q1 rr; q2 rr; q3 rr]).
Proof.
  cbn [for_loop Z.add Pos.add Pos.succ].
  rewrite (backsubstitute_pose k N T P1 rr 0 (q0 rr)) by reflexivity. cbn [bind].
  rewrite (backsubstitute_pose k N T P1 rr 1 (q1 rr)) by reflexivity. cbn [bind].
  rewrite (backsubstitute_pose k N T P1 rr 2 (q2 rr)) by reflexivity. cbn [bind].
  rewrite (backsubstitute_pose k N T P1 rr 3 (q3 rr)) by reflexivity. cbn [bind].
  rewrite <- !app_assoc. reflexivity.
Qed.

(** Once the camera frame is fixed, four poses are appended: one for each
    root, in the order of the roots. *)
Lemma poses_in_frame_some cam :
  exists N k rr, forall u sols,
    poses_in_frame u cam sols
    = Some (0%Z, sols ++ map (pose k N (cam_T cam) (cam_P1 cam))
                             [q0 rr; q1 rr; q2 rr; q3 rr]).
Proof.
  destruct (world_frame_some (cam_P1 cam) (cam_P2 cam) (cam_P3 cam)) as (N & P3' & HN).
  destruct (parameters_some (cam_f1 cam) (cam_f2 cam) (cam_f3 cam)
              (cam_P1 cam) (cam_P2 cam) P3') as (k & Hk).
  destruct (quartic_factors_some k) as (F & HF).
  destruct (solveQuartic_some F) as (rr & Hrr).
  exists N, k, rr. intros u sols. unfold poses_in_frame.
  rewrite HN. cbn [bind]. rewrite Hk. cbn [bind]. rewrite HF. cbn [bind].
  rewrite Hrr. cbn [bind]. rewrite loop_poses. reflexivity.
Qed.

Lemma camera_frame_some fv wp :
  exists Tf Ts,
    (forall T', frame_of T' (c0 fv) (c1 fv) = Some Tf) /\
    (forall T', frame_of T' (c1 fv) (c0 fv) = Some Ts) /\
    forall T' P1 P2 P3,
      camera_frame T' fv wp P1 P2 P3
      = Some (if 0 <? x2 (Eigen.mulv Tf (c2 fv))
              then mkCamera (c1 fv) (c0 fv) (Eigen.mulv Ts (c2 fv)) Ts
                            (c1 wp) (c0 wp) (c2 wp)
              else mkCamera (c0 fv) (c1 fv) (Eigen.mulv Tf (c2 fv)) Tf P1 P2 P3).
Proof.
  destruct (frame_of_some (c0 fv) (c1 fv)) as [Tf HTf].
  destruct (frame_of_some (c1 fv) (c0 fv)) as [Ts HTs].
  exists Tf, Ts. split; [exact HTf|]. split; [exact HTs|].
  intros T' P1 P2 P3. unfold camera_frame. cbn [bind Eigen.col].
  rewrite HTf. cbn [bind Eigen.coeff].
  destruct (0 <? x2 (Eigen.mulv Tf (c2 fv))).
  - rewrite HTs. reflexivity.
  - reflexivity.
Qed.

(** The whole function, stage by stage. *)
Lemma computePoses_unfold fv wp :
  exists cam new,
    (forall T', camera_frame T' fv wp (c0 wp) (c1 wp) (c2 wp) = Some cam) /\
    (forall u sols, poses_in_frame u cam sols = Some (0%Z, sols ++ new)) /\
    length new = 4%nat /\
    forall u sols,
      computePoses u fv wp sols
      = if aligned (c0 wp) (c1 wp) (c2 wp)
        then Some ((-1)%Z, sols)
        else Some (0%Z, sols ++ new).
Proof.
  destruct (camera_frame_some fv wp) as (Tf & Ts & _ & _ & Hcam).
  set (cam := if 0 <? x2 (Eigen.mulv Tf (c2 fv))
              then mkCamera (c1 fv) (c0 fv) (Eigen.mulv Ts (c2 fv)) Ts
                            (c1 wp) (c0 wp) (c2 wp)
              else mkCamera (c0 fv) (c1 fv) (Eigen.mulv Tf (c2 fv)) Tf
                            (c0 wp) (c1 wp) (c2 wp)) in *.
  destruct (poses_in_frame_some cam) as (N & k & rr & Hp).
  exists cam, (map (pose k N (cam_T cam) (cam_P1 cam)) [q0 rr; q1 rr; q2 rr; q3 rr]).
  split; [intros T'; apply Hcam|]. split; [exact Hp|]. split; [reflexivity|].
  intros u sols. unfold computePoses. cbn [bind Eigen.col].
  destruct (aligned (c0 wp) (c1 wp) (c2 wp)); [reflexivity|].
  rewrite Hcam. cbn [bind]. apply Hp.
Qed.

End Stages.

(** ** Parallel directions *)

Section Parallel.
Context `{L : Libm}.

Lemma vdiv_norm_vanishes c :
  vanishes (x0 c) = true -> vanishes (x1 c) = true -> vanishes (x2 c) = true ->
  Eigen.vdiv c (Eigen.norm c) = nan3.
Proof.
  destruct c as [x y z]. cbn [x0 x1 x2].
  unfold Eigen.vdiv, Eigen.norm, Eigen.squaredNorm, Eigen.dot. cbn [x0 x1 x2].
  intros [[sx Hx] | ->]%FloatFacts.vanishes_cases
         [[sy Hy] | ->]%FloatFacts.vanishes_cases
         [[sz Hz] | ->]%FloatFacts.vanishes_cases;
    rewrite ?(FloatFacts.sq_zero _ _ Hx), ?(FloatFacts.sq_zero _ _ Hy),
            ?(FloatFacts.sq_zero _ _ Hz),
            ?FloatFacts.mul_nan_l, ?FloatFacts.add_nan_l, ?FloatFacts.add_nan_r;
    [ change (sqrt (0 + 0 + 0)) with 0;
      rewrite (FloatFacts.zero_div_zero _ _ Hx), (FloatFacts.zero_div_zero _ _ Hy),
              (FloatFacts.zero_div_zero _ _ Hz)
    | change (sqrt nan) with nan; rewrite !FloatFacts.div_nan_r .. ];
    reflexivity.
Qed.

Lemma frame_of_parallel f1 f2 :
  parallel f1 f2 ->
  forall T', frame_of T' f1 f2 = Some (Eigen.transpose (M3 f1 nan3 nan3)).
Proof.
  intros (H0 & H1 & H2) T'. unfold frame_of.
  rewrite (vdiv_norm_vanishes _ H0 H1 H2).
  unfold Eigen.cross at 1, nan3. cbn [x0 x1 x2].
  rewrite !FloatFacts.mul_nan_l, !FloatFacts.sub_nan_l.
  reflexivity.
Qed.

(** A direction is parallel to itself and to its opposite. *)
Lemma parallel_same d : parallel d d.
Proof.
  unfold parallel, Eigen.cross. cbn [x0 x1 x2].
  rewrite (FloatFacts.mul_comm (x2 d) (x1 d)), (FloatFacts.mul_comm (x0 d) (x2 d)),
          (FloatFacts.mul_comm (x1 d) (x0 d)).
  repeat split; apply FloatFacts.sub_diag.
Qed.

Lemma parallel_opposite d : parallel d (V3 (- x0 d) (- x1 d) (- x2 d)).
Proof.
  unfold parallel, Eigen.cross. cbn [x0 x1 x2].
  rewrite !FloatFacts.opp_mul_r.
  rewrite (FloatFacts.mul_comm (x2 d) (x1 d)), (FloatFacts.mul_comm (x0 d) (x2 d)),
          (FloatFacts.mul_comm (x1 d) (x0 d)).
  repeat split; apply FloatFacts.sub_diag.
Qed.

Lemma mulv_nan_rows f v :
  x2 (Eigen.mulv (Eigen.transpose (M3 f nan3 nan3)) v) = nan.
Proof.
  cbn. rewrite !FloatFacts.mul_nan_l, !FloatFacts.add_nan_l. reflexivity.
Qed.

Lemma mulv_nan_column M a : Eigen.mulv M (V3 a nan nan) = nan3.
Proof.
  unfold Eigen.mulv, Eigen.dot. cbn [x0 x1 x2].
  rewrite !FloatFacts.mul_nan_r, !FloatFacts.add_nan_r. reflexivity.
Qed.

Lemma mulm_nan_rows M f :
  Eigen.mulm M (Eigen.transpose (M3 f nan3 nan3)) = M3 nan3 nan3 nan3.
Proof.
  unfold Eigen.mulm, Eigen.transpose, Eigen.row, nan3.
  cbn [c0 c1 c2 x0 x1 x2].
  rewrite !mulv_nan_column. reflexivity.
Qed.

Lemma pose_orientation_nan k N f P1 root :
  orientation_nan (pose k N (Eigen.transpose (M3 f nan3 nan3)) P1 root).
Proof.
  unfold orientation_nan, pose, orientation.
  rewrite mulm_nan_rows. cbn [g0 g1 g2 c0 c1 c2]. repeat split.
Qed.

End Parallel.

(** ** The claims *)

Section Claims.
Context `{L : Libm}.

(** C1. [computePoses] answers -1 exactly when the norm of the cross
    product of [worldPoint1 - worldPoint0] and [worldPoint2 - worldPoint0]
    compares equal to zero, and then adds no pose; on every other input it
    answers 0 and adds exactly four poses. *)
Theorem computePoses_status u fv wp sols :
  exists status sols',
    computePoses u fv wp sols = Some (status, sols') /\
    (status = (-1)%Z <->
     (Eigen.norm (Eigen.cross (Eigen.vsub (c1 wp) (c0 wp))
                              (Eigen.vsub (c2 wp) (c0 wp))) =? 0) = true) /\
    (status = (-1)%Z -> sols' = sols) /\
    (status <> (-1)%Z ->
     status = 0%Z /\ exists p0 p1 p2 p3, sols' = sols ++ [p0; p1; p2; p3]).
Proof.
  destruct (computePoses_unfold fv wp) as (cam & new & _ & _ & Hlen & Hrun).
  rewrite Hrun. unfold aligned.
  destruct (Eigen.norm _ =? 0).
  - exists (-1)%Z, sols.
    split; [reflexivity|]. split; [tauto|]. split; [reflexivity|].
    intros Hs. now elim Hs.
  - exists 0%Z, (sols ++ new).
    split; [reflexivity|]. split; [split; discriminate|]. split; [discriminate|].
    intros _. split; [reflexivity|].
    destruct new as [|p0 [|p1 [|p2 [|p3 [|p4 new]]]]]; try discriminate.
    now exists p0, p1, p2, p3.
Qed.

(** C2. For [A <> 0], [solveQuartic] writes all four entries of
    [realRoots]: the real parts of the roots of the sign combinations
    (+,+), (+,-), (-,+), (-,-), in this order, whatever [realRoots] held. *)
Theorem solveQuartic_branch_order A B C D E realRoots :
  (A =? 0) = false ->
  let d := depress A B C D E in
  let y := ry (resolvent d) in
  let w := csqrt (Complex.s_add (alpha d) (Complex.s_mul 2 y)) in
  let x := root_spec A B (alpha d) (beta d) y w in
  solveQuartic (V5 A B C D E) realRoots
  = Some (0%Z, V4 (real (x plus plus)) (real (x plus minus))
                  (real (x minus plus)) (real (x minus minus))).
Proof. intros _. reflexivity. Qed.

(** C3. For [A <> 0], the depression parameters [solveQuartic] works with
    are [alpha = -3B^2/(8A^2) + C/A],
    [beta = B^3/(8A^3) - BC/(2A^2) + D/A] and
    [gamma = -3B^4/(256A^4) + B^2 C/(16A^3) - BD/(4A^2) + E/A]. *)
Theorem solveQuartic_depression A B C D E realRoots :
  (A =? 0) = false ->
  let d := mkDepressed (alpha_spec A B C) (beta_spec A B C D) (gamma_spec A B C D E) in
  depress A B C D E = d /\
  solveQuartic (V5 A B C D E) realRoots
  = (realRoots <- write_roots A B d (ry (resolvent d)) realRoots ;;
     Some (0%Z, realRoots)).
Proof. intros _. split; reflexivity. Qed.

(** C4. The roles of directions 0 and 1, and of world points 0 and 1, are
    exchanged and the camera frame is built again from the exchanged
    directions exactly when the third coordinate of direction 2 in the
    frame of directions 0 and 1 is above zero; all that follows works in
    the frame so chosen. *)
Theorem computePoses_swap fv wp :
  let d0 := c0 fv in let d1 := c1 fv in let d2 := c2 fv in
  let w0 := c0 wp in let w1 := c1 wp in let w2 := c2 wp in
  exists Tf Ts,
    (forall T', frame_of T' d0 d1 = Some Tf) /\
    (forall T', frame_of T' d1 d0 = Some Ts) /\
    forall u sols,
      computePoses u fv wp sols
      = if aligned w0 w1 w2 then Some ((-1)%Z, sols)
        else poses_in_frame u
               (if 0 <? x2 (Eigen.mulv Tf d2)
                then mkCamera d1 d0 (Eigen.mulv Ts d2) Ts w1 w0 w2
                else mkCamera d0 d1 (Eigen.mulv Tf d2) Tf w0 w1 w2)
               sols.
Proof.
  intros d0 d1 d2 w0 w1 w2.
  destruct (camera_frame_some fv wp) as (Tf & Ts & HTf & HTs & Hcam).
  exists Tf, Ts. split; [exact HTf|]. split; [exact HTs|].
  intros u sols. unfold computePoses. cbn [bind Eigen.col].
  fold w0 w1 w2. destruct (aligned w0 w1 w2); [reflexivity|].
  rewrite Hcam. reflexivity.
Qed.

(** C5. [b] is a square root of [1/(1 - cos_beta^2) - 1], where [cos_beta]
    is the dot product of the first two directions the frame was built
    from: the root negated when [cos_beta < 0], the root itself otherwise.
    So [b] is never above zero in the first case and never below zero in
    the second, and is on that side of zero whenever it is a number. *)
Theorem parameters_b_sign f1 f2 f3 P1 P2 P3 :
  exists k,
    parameters f1 f2 f3 P1 P2 P3 = Some k /\
    cos_beta k = Eigen.dot f1 f2 /\
    let r := 1 / (1 - pow (cos_beta k) 2) - 1 in
    b k = (if cos_beta k <? 0 then - sqrt r else sqrt r) /\
    ((cos_beta k <? 0) = true ->
     (0 <? b k) = false /\ (is_nan (b k) = false -> (b k <=? 0) = true)) /\
    ((cos_beta k <? 0) = false ->
     (b k <? 0) = false /\ (is_nan (b k) = false -> (0 <=? b k) = true)).
Proof.
  eexists. split; [reflexivity|]. cbn [cos_beta b]. split; [reflexivity|].
  unfold signed_b. split; [reflexivity|].
  split; intros ->.
  - apply FloatFacts.opp_sqrt_not_pos.
  - apply FloatFacts.sqrt_not_neg.
Qed.

(** C6. With [P] and [Q] the quantities of the resolvent cubic,
    [R = -Q/2 + sqrt(Q^2/4 + P^3/27)] and [U = R^(1/3)] in complex
    arithmetic, [y] is [-5 alpha/6 - Q^(1/3)] exactly when the real part
    of [U] compares equal to zero and [-5 alpha/6 - P/(3U) + U] otherwise;
    this [y] is the one [solveQuartic] computes the roots from. *)
Theorem resolvent_y d :
  let s := resolvent d in
  let P := rP s in
  let Q := rQ s in
  let R := Complex.add (Complex.div_s (Complex.neg Q) 2)
             (csqrt (Complex.add (Complex.div_s (cpow Q 2) 4)
                                 (Complex.div_s (cpow P 3) 27))) in
  let U := cpow R (1 / 3) in
  rR s = R /\ rU s = U /\
  ((real U =? 0) = true ->
   ry s = Complex.s_sub (-5 * alpha d / 6) (cpow Q (1 / 3))) /\
  ((real U =? 0) = false ->
   ry s = Complex.add (Complex.s_sub (-5 * alpha d / 6)
                                     (cdiv P (Complex.s_mul 3 U))) U) /\
  forall A B C D E realRoots,
    d = depress A B C D E ->
    solveQuartic (V5 A B C D E) realRoots
    = (realRoots <- write_roots A B d (ry s) realRoots ;; Some (0%Z, realRoots)).
Proof.
  cbv zeta. split; [reflexivity|]. split; [reflexivity|].
  split; [|split].
  - unfold resolvent. cbn [ry rP rQ]. intros ->. reflexivity.
  - unfold resolvent. cbn [ry rP rQ]. intros ->. reflexivity.
  - intros A B C D E realRoots ->. reflexivity.
Qed.


(** C8. The status and the poses [computePoses] adds are determined by
    the directions and the world points alone, and the roots
    [solveQuartic] writes by the coefficients alone: neither depends on the
    previous contents of the locals, of [solutions] or of [realRoots]. *)
Theorem solver_deterministic fv wp factors :
  (exists status new, forall u sols,
      computePoses u fv wp sols = Some (status, sols ++ new)) /\
  (exists roots, forall realRoots,
      solveQuartic factors realRoots = Some (0%Z, roots)).
Proof.
  split.
  - destruct (computePoses_unfold fv wp) as (cam & new & _ & _ & _ & Hrun).
    destruct (aligned (c0 wp) (c1 wp) (c2 wp)).
    + exists (-1)%Z, []. intros u sols. rewrite Hrun, app_nil_r. reflexivity.
    + exists 0%Z, new. intros u sols. apply Hrun.
  - apply solveQuartic_some.
Qed.

(** C9. On every input, finite or not, both functions run to their end: no
    index assertion fails, and there is no other way to stop.  Parallel
    directions, in particular a direction given twice or with its opposite,
    do not stop [computePoses]: when the world points are not aligned it
    answers 0 and adds four poses, whose orientation coefficients are all
    [nan]. *)
Theorem solver_never_aborts :
  (forall u fv wp sols,
      exists status sols', computePoses u fv wp sols = Some (status, sols')) /\
  (forall factors realRoots,
      exists status roots, solveQuartic factors realRoots = Some (status, roots)) /\
  (forall u fv wp sols,
      parallel (c0 fv) (c1 fv) ->
      aligned (c0 wp) (c1 wp) (c2 wp) = false ->
      exists p0 p1 p2 p3,
        computePoses u fv wp sols = Some (0%Z, sols ++ [p0; p1; p2; p3]) /\
        orientation_nan p0 /\ orientation_nan p1 /\
        orientation_nan p2 /\ orientation_nan p3) /\
  (forall d, parallel d d /\ parallel d (V3 (- x0 d) (- x1 d) (- x2 d))).
Proof.
  split; [|split; [|split]]; [| | |split; [apply parallel_same|apply parallel_opposite]].
  - intros u fv wp sols.
    destruct (computePoses_unfold fv wp) as (cam & new & _ & _ & _ & Hrun).
    rewrite Hrun. destruct (aligned _ _ _); eexists; eexists; reflexivity.
  - intros factors realRoots.
    destruct (solveQuartic_some factors) as [roots Hr].
    exists 0%Z, roots. apply Hr.
  - intros u fv wp sols Hpar Hal.
    destruct (camera_frame_some fv wp) as (Tf & Ts & HTf & _ & Hcam).
    pose proof (frame_of_parallel _ _ Hpar Tf) as HT.
    rewrite HTf in HT. injection HT as HT.
    assert (Hz : (0 <? x2 (Eigen.mulv Tf (c2 fv))) = false)
      by (rewrite HT, mulv_nan_rows; reflexivity).
    rewrite Hz in Hcam.
    destruct (poses_in_frame_some
                (mkCamera (c0 fv) (c1 fv) (Eigen.mulv Tf (c2 fv)) Tf
                          (c0 wp) (c1 wp) (c2 wp))) as (N & k & rr & Hp).
    cbn [cam_T cam_P1] in Hp.
    exists (pose k N Tf (c0 wp) (q0 rr)), (pose k N Tf (c0 wp) (q1 rr)),
           (pose k N Tf (c0 wp) (q2 rr)), (pose k N Tf (c0 wp) (q3 rr)).
    split.
    + unfold computePoses. cbn [bind Eigen.col]. rewrite Hal, Hcam. cbn [bind].
      apply Hp.
    + rewrite HT. repeat split; apply pose_orientation_nan.
Qed.

(** C10. [computePoses] only appends to [solutions]: what the caller
    passed stays in front, nothing is added when the answer is -1 and
    exactly four poses are added when it is 0.  So [solutions] comes back
    empty on failure, and with exactly four entries on success, only when
    it was passed empty. *)
Theorem computePoses_appends u fv wp sols :
  exists status new,
    computePoses u fv wp sols = Some (status, sols ++ new) /\
    (status = (-1)%Z /\ new = [] \/ status = 0%Z /\ length new = 4%nat) /\
    (status = (-1)%Z -> (sols ++ new = [] <-> sols = [])) /\
    (status = 0%Z -> (length (sols ++ new) = 4%nat <-> sols = [])).
Proof.
  destruct (computePoses_unfold fv wp) as (cam & new & _ & _ & Hlen & Hrun).
  rewrite Hrun. destruct (aligned _ _ _).
  - exists (-1)%Z, []. rewrite app_nil_r.
    split; [reflexivity|]. split; [now left|]. split; [tauto|discriminate].
  - exists 0%Z, new.
    split; [reflexivity|]. split; [now right|]. split; [discriminate|].
    intros _. rewrite length_app, Hlen. split.
    + intros Hn. destruct sols; [reflexivity|]. cbn [length] in Hn. lia.
    + intros ->. reflexivity.
Qed.

End Claims.

(** ** Concrete runs *)

(** The quartic [(x - 1)(x - 2)(x^2 + 1)]: the roots come out in the order
    of the sign combinations. *)
Example solveQuartic_run :
  solveQuartic (L := Sample.libm) (V5 1 (-3) 3 (-3) 2) (V4 7 7 7 7)
  = Some (0%Z, V4 2 1 0 0).
Proof. vm_compute. reflexivity. Qed.

(** The quartic [(x - 1)(x - 2)(x - 3)(x - 4)], whose resolvent needs a
    complex cube root: the roots come out as 4, 3, 2, 1. *)
Example solveQuartic_four_real_roots :
  exists r,
    solveQuartic (L := Sample.libm) (V5 1 (-10) 35 (-50) 24) (V4 7 7 7 7) = Some (0%Z, r) /\
    Sample.close (q0 r) 4 && Sample.close (q1 r) 3
    && Sample.close (q2 r) 2 && Sample.close (q3 r) 1 = true.
Proof. eexists. split; vm_compute; reflexivity. Qed.

(** On [x^4 - 1] the four values come out neither increasing nor
    decreasing. *)
Example solveQuartic_not_sorted :
  exists r, solveQuartic (L := Sample.libm) (V5 1 0 0 0 (-1)) (V4 7 7 7 7) = Some (0%Z, r)
            /\ (q1 r <? q0 r) = true /\ (q1 r <? q2 r) = true.
Proof. eexists. split; [vm_compute; reflexivity|]. split; reflexivity. Qed.

Lemma solveQuartic_branch_order_witness :
  (1 =? 0) = false /\
  solveQuartic (L := Sample.libm) (V5 1 (-3) 3 (-3) 2) (V4 7 7 7 7)
  = Some (0%Z, V4 2 1 0 0).
Proof.
  split; [reflexivity|].
  etransitivity.
  - exact (solveQuartic_branch_order (L := Sample.libm) 1 (-3) 3 (-3) 2 (V4 7 7 7 7) eq_refl).
  - vm_compute. reflexivity.
Defined.

Example depress_run : depress 2 4 6 8 10 = mkDepressed 1.5 2 3.5625.
Proof. vm_compute. reflexivity. Qed.

Lemma solveQuartic_depression_witness :
  (2 =? 0) = false /\
  depress 2 4 6 8 10
  = mkDepressed (alpha_spec 2 4 6) (beta_spec 2 4 6 8) (gamma_spec 2 4 6 8 10).
Proof.
  split; [reflexivity|].
  exact (proj1 (solveQuartic_depression (L := Sample.libm) 2 4 6 8 10 (V4 7 7 7 7) eq_refl)).
Defined.

(** Three world points on a line: the answer is -1 and [solutions] is as it
    was. *)
Example computePoses_aligned_run :
  computePoses (L := Sample.libm) Sample.locals
    (M3 (V3 1 0 0) (V3 0 1 0) (V3 0 0 1))
    (M3 (V3 0 0 0) (V3 1 1 1) (V3 2 2 2))
    [Sample.locals.(gwc_init)]
  = Some ((-1)%Z, [Sample.locals.(gwc_init)]).
Proof. vm_compute. reflexivity. Qed.

(** Direction 2 on the positive side of the frame of directions 0 and 1:
    the two directions and the two world points change places. *)
Example camera_frame_swaps :
  let fv := M3 (V3 1 0 0) (V3 0 1 0) (V3 0 0 1) in
  let wp := M3 (V3 1 0 5) (V3 0 1 5) (V3 (-1) (-1) 4) in
  exists cam,
    camera_frame (T_init Sample.locals) fv wp (c0 wp) (c1 wp) (c2 wp) = Some cam /\
    cam_f1 cam = c1 fv /\ cam_f2 cam = c0 fv /\
    cam_P1 cam = c1 wp /\ cam_P2 cam = c0 wp /\
    cam_f3 cam = V3 0 0 (-1).
Proof. eexists. split; [vm_compute; reflexivity|]. repeat split. Qed.

(** Direction 2 on the negative side: nothing changes places. *)
Example camera_frame_keeps :
  let fv := M3 (V3 1 0 0) (V3 0 1 0) (V3 0 0 (-1)) in
  let wp := M3 (V3 1 0 5) (V3 0 1 5) (V3 (-1) (-1) 4) in
  exists cam,
    camera_frame (T_init Sample.locals) fv wp (c0 wp) (c1 wp) (c2 wp) = Some cam /\
    cam_f1 cam = c0 fv /\ cam_f2 cam = c1 fv /\
    cam_P1 cam = c0 wp /\ cam_P2 cam = c1 wp /\
    cam_f3 cam = V3 0 0 (-1).
Proof. eexists. split; [vm_compute; reflexivity|]. repeat split. Qed.

(** A camera at (1, 2, 3) with the axes of the world looks at three points:
    the directions are the unit vectors towards them.  The two first
    directions change places, and the last of the four poses is the
    camera's. *)
Example computePoses_round_trip :
  let wp := M3 (V3 1 0 5) (V3 0 1 5) (V3 (-1) (-1) 4) in
  let centre := V3 1 2 3 in
  let fv := M3 (Sample.normalized (Eigen.vsub (c0 wp) centre))
               (Sample.normalized (Eigen.vsub (c1 wp) centre))
               (Sample.normalized (Eigen.vsub (c2 wp) centre)) in
  exists cam p0 p1 p2 p3,
    camera_frame (T_init Sample.locals) fv wp (c0 wp) (c1 wp) (c2 wp) = Some cam /\
    cam_f1 cam = c1 fv /\
    computePoses (L := Sample.libm) Sample.locals fv wp [] = Some (0%Z, [p0; p1; p2; p3]) /\
    Sample.close3 (g0 p3) (V3 1 0 0) && Sample.close3 (g1 p3) (V3 0 1 0)
    && Sample.close3 (g2 p3) (V3 0 0 1) && Sample.close3 (g3 p3) centre = true.
Proof.
  do 5 eexists. split; [vm_compute; reflexivity|]. split; [vm_compute; reflexivity|].
  split; vm_compute; reflexivity.
Qed.

(** A cosine just below zero: [b] is the negated root, a zero. *)
Example signed_b_small_cosine :
  signed_b (L := Sample.libm) (-0x1p-60) = (-0)%float.
Proof. vm_compute. reflexivity. Qed.

(** A cosine beyond one, of directions that are not unit vectors: there is
    no real root and [b] is [nan]. *)
Example signed_b_no_root : signed_b (L := Sample.libm) 2 = nan.
Proof. vm_compute. reflexivity. Qed.

(** ** Where the sign of [b] and of [cos_alpha] is not the sign of
    [cos_beta] and of [cot_alpha] *)

(** C5 as worded fails on three inputs of the step of lines 118-129.  The
    directions (1, 0, 0) and (-2^-60, 1, 0), both of length 1 in binary64:
    [cos_beta] is below zero, [1 - cos_beta^2] rounds to 1 and [b] is a zero,
    not below zero.  Twice the direction (1, 1, 1) divided by its norm:
    [cos_beta] is the double after 1, the radicand is below zero and [b] is
    no number.  The directions (1, 0, 0) and (-0, -1, -1): [cos_beta] is the
    zero of negative sign, not below zero, and [b] the zero of positive
    sign. *)
Lemma parameters_b_sign_counterexample :
  let f3 := V3 0 1 1 in
  let P1 := V3 0 0 0 in
  let P2 := V3 1 0 0 in
  let P3 := V3 2 0 0 in
  let u := Sample.normalized (V3 1 1 1) in
  (exists k,
     parameters (L := Sample.libm) (V3 1 0 0) (V3 (-0x1p-60) 1 0) f3 P1 P2 P3 = Some k /\
     (cos_beta k <? 0) = true /\ (b k <? 0) = false /\ (b k =? 0) = true) /\
  (exists k,
     parameters (L := Sample.libm) u u f3 P1 P2 P3 = Some k /\
     (0 <? cos_beta k) = true /\ is_nan (b k) = true) /\
  (exists k,
     parameters (L := Sample.libm) (V3 1 0 0) (V3 (-0) (-1) (-1)) f3 P1 P2 P3 = Some k /\
     Prim2SF (cos_beta k) = S754_zero true /\ Prim2SF (b k) = S754_zero false).
Proof.
  cbv zeta. split; [|split].
  - eexists. split; [reflexivity|]. vm_compute. auto.
  - eexists. split; [reflexivity|]. vm_compute. auto.
  - eexists. split; [reflexivity|]. vm_compute. auto.
Qed.

(** The parameters of a right angle between the two first directions, with
    the third world point a little off the line of the two first, on one
    side and on the other; and of an angle a little above the right one,
    with the third world point on the line. *)
Example parameters_right_angle :
  parameters (L := Sample.libm) (V3 1 0 0) (V3 0 1 0) (V3 0 1 1)
    (V3 0 0 0) (V3 1 0 0) (V3 2 0x1p-30 0)
  = Some (mkParams 1 0 1 2 0x1p-30 0 0) /\
  parameters (L := Sample.libm) (V3 1 0 0) (V3 0 1 0) (V3 0 1 1)
    (V3 0 0 0) (V3 1 0 0) (V3 2 (-0x1p-30) 0)
  = Some (mkParams 1 0 1 2 (-0x1p-30) 0 0) /\
  parameters (L := Sample.libm) (V3 1 0 0) (V3 (-0x1p-60) 1 0) (V3 0 1 1)
    (V3 0 0 0) (V3 1 0 0) (V3 2 0 0)
  = Some (mkParams 1 0 1 2 0 (-0x1p-60) (-0)).
Proof. vm_compute. repeat split. Qed.


(** Twice the same direction: four poses, no orientation among them. *)
Lemma solver_never_aborts_witness :
  exists p0 p1 p2 p3,
    computePoses (L := Sample.libm) Sample.locals
      (M3 (V3 1 0 0) (V3 1 0 0) (V3 0 0 1))
      (M3 (V3 1 0 5) (V3 0 1 5) (V3 (-1) (-1) 4)) []
    = Some (0%Z, [p0; p1; p2; p3]) /\
    orientation_nan p0 /\ orientation_nan p1 /\
    orientation_nan p2 /\ orientation_nan p3.
Proof.
  apply (proj1 (proj2 (proj2 (solver_never_aborts (L := Sample.libm))))).
  - apply (proj2 (proj2 (proj2 (solver_never_aborts (L := Sample.libm))))).
  - reflexivity.
Defined.

(** ** More facts on binary64 arithmetic *)

Module FloatSigns.

Lemma binary_round_opp p em s m e :
  binary_round p em (negb s) m e = SFopp (binary_round p em s m e).
Proof.
  unfold binary_round. destruct (shl_align _ _ _) as [mz ez].
  apply FloatFacts.binary_round_aux_opp.
Qed.

Lemma binary_normalize_opp p em m e :
  SFopposite (binary_normalize p em m e false) (binary_normalize p em (Z.opp m) e false).
Proof.
  destruct m as [|m|m]; cbn.
  - right. split; exact I.
  - left. apply (binary_round_opp p em false).
  - left. rewrite <- (binary_round_opp p em true). reflexivity.
Qed.

Lemma SFzero_cases a : SFzero a -> exists s, a = S754_zero s.
Proof. destruct a; cbn; try tauto. eauto. Qed.

Lemma cond_Zopp_negb s m : cond_Zopp (negb s) m = Z.opp (cond_Zopp s m).
Proof. destruct s; cbn; lia. Qed.

(** [b - a] is the opposite of [a - b]. *)
Lemma SFsub_anti p em a b : SFopposite (SFsub p em a b) (SFsub p em b a).
Proof.
  destruct a as [sa | sa | | sa ma ea], b as [sb | sb | | sb mb eb]; cbn;
    try (left; reflexivity);
    try (destruct sa, sb; cbn; (left; reflexivity) || (right; split; exact I)).
  change IntDef.Z.min with Z.min. rewrite (Z.min_comm eb ea).
  set (X := cond_Zopp sa _). set (Y := cond_Zopp sb _).
  replace (Z.sub Y X) with (Z.opp (Z.sub X Y)) by lia.
  apply binary_normalize_opp.
Qed.

Lemma SFmul_opp_l p em a a' c :
  SFopposite a a' -> SFopposite (SFmul p em a c) (SFmul p em a' c).
Proof.
  intros [-> | [[sa ->]%SFzero_cases [sa' ->]%SFzero_cases]].
  - left.
    destruct a as [sa | sa | | sa ma ea], c as [sc | sc | | sc mc ec]; cbn;
      rewrite <- ?negb_xorb_l; trivial.
    apply FloatFacts.binary_round_aux_opp.
  - destruct c as [sc | sc | | sc mc ec]; cbn;
      (left; reflexivity) || (right; split; exact I).
Qed.

Lemma SFmul_square p em a a' :
  SFopposite a a' -> SFmul p em a a = SFmul p em a' a'.
Proof.
  intros [-> | [[sa ->]%SFzero_cases [sa' ->]%SFzero_cases]].
  - destruct a as [sa | sa | | sa ma ea]; cbn; trivial; now destruct sa.
  - cbn. now destruct sa, sa'.
Qed.

Lemma SFdiv_opp_l p em a a' n :
  SFopposite a a' -> SFopposite (SFdiv p em a n) (SFdiv p em a' n).
Proof.
  intros [-> | [[sa ->]%SFzero_cases [sa' ->]%SFzero_cases]].
  - left.
    destruct a as [sa | sa | | sa ma ea], n as [sn | sn | | sn mn en]; cbn;
      rewrite <- ?negb_xorb_l; trivial.
    destruct (SFdiv_core_binary p em (Z.pos ma) ea (Z.pos mn) en) as [[mz ez] lz].
    apply FloatFacts.binary_round_aux_opp.
  - destruct n as [sn | sn | | sn mn en]; cbn;
      (left; reflexivity) || (right; split; exact I).
Qed.

Lemma SFadd_opp p em a a' b b' :
  SFopposite a a' -> SFopposite b b' ->
  SFopposite (SFadd p em a b) (SFadd p em a' b').
Proof.
  intros [-> | [[sa ->]%SFzero_cases [sa' ->]%SFzero_cases]]
         [-> | [[sb ->]%SFzero_cases [sb' ->]%SFzero_cases]].
  - destruct a as [sa | sa | | sa ma ea], b as [sb | sb | | sb mb eb]; cbn;
      try (left; reflexivity);
      try (destruct sa, sb; cbn; (left; reflexivity) || (right; split; exact I)).
    rewrite !cond_Zopp_negb.
    set (X := cond_Zopp sa _). set (Y := cond_Zopp sb _).
    replace (Z.add (Z.opp X) (Z.opp Y)) with (Z.opp (Z.add X Y)) by lia.
    apply binary_normalize_opp.
  - destruct a as [sa | sa | | sa ma ea]; cbn;
      try (left; reflexivity);
      try (destruct sa, sb, sb'; cbn; (left; reflexivity) || (right; split; exact I)).
  - destruct b as [sb | sb | | sb mb eb]; cbn;
      try (left; reflexivity);
      try (destruct sa, sa', sb; cbn; (left; reflexivity) || (right; split; exact I)).
  - destruct sa, sa', sb, sb'; cbn; (left; reflexivity) || (right; split; exact I).
Qed.

Lemma SFopposite_pos a a' :
  SFopposite a a' -> SFltb (S754_zero false) a = true ->
  SFltb a' (S754_zero false) = true /\ SFltb (S754_zero false) a' = false.
Proof.
  intros [-> | [[sa ->]%SFzero_cases _]]; [|discriminate].
  destruct a as [sa | sa | | sa ma ea]; try discriminate; destruct sa; try discriminate;
    split; reflexivity.
Qed.

Lemma SFopposite_neg a a' :
  SFopposite a a' -> SFltb a (S754_zero false) = true ->
  SFltb (S754_zero false) a' = true.
Proof.
  intros [-> | [[sa ->]%SFzero_cases _]]; [|discriminate].
  destruct a as [sa | sa | | sa ma ea]; try discriminate; destruct sa; try discriminate;
    reflexivity.
Qed.

(** The same on doubles. *)
Lemma sub_anti x y : opposite (x - y) (y - x).
Proof. unfold opposite. rewrite !sub_spec. apply SFsub_anti. Qed.

Lemma mul_opposite x x' c : opposite x x' -> opposite (x * c) (x' * c).
Proof. unfold opposite. rewrite !mul_spec. apply SFmul_opp_l. Qed.

Lemma square_opposite x x' : opposite x x' -> x * x = x' * x'.
Proof.
  intros Hx. apply Prim2SF_inj. rewrite !mul_spec. now apply SFmul_square.
Qed.

Lemma div_opposite x x' n : opposite x x' -> opposite (x / n) (x' / n).
Proof. unfold opposite. rewrite !div_spec. apply SFdiv_opp_l. Qed.

Lemma add_opposite x x' y y' :
  opposite x x' -> opposite y y' -> opposite (x + y) (x' + y').
Proof. unfold opposite. rewrite !add_spec. apply SFadd_opp. Qed.

Lemma opposite_pos x x' :
  opposite x x' -> (0 <? x) = true -> (x' <? 0) = true /\ (0 <? x') = false.
Proof. unfold opposite. rewrite !ltb_spec. apply SFopposite_pos. Qed.

Lemma opposite_neg x x' :
  opposite x x' -> (x <? 0) = true -> (0 <? x') = true.
Proof. unfold opposite. rewrite !ltb_spec. apply SFopposite_neg. Qed.

Lemma ltb_asym x : (x <? 0) = true -> (0 <? x) = false.
Proof.
  rewrite !ltb_spec. change (Prim2SF 0) with (S754_zero false).
  destruct (Prim2SF x) as [s | s | | s m e]; try discriminate; now destruct s.
Qed.

End FloatSigns.

(** ** The frame of the two first directions, in either order *)

Section Exchange.
Context `{L : Libm}.

Lemma cross_exchange d0 d1 :
  opposite (x0 (Eigen.cross d0 d1)) (x0 (Eigen.cross d1 d0)) /\
  opposite (x1 (Eigen.cross d0 d1)) (x1 (Eigen.cross d1 d0)) /\
  opposite (x2 (Eigen.cross d0 d1)) (x2 (Eigen.cross d1 d0)).
Proof.
  unfold Eigen.cross. cbn [x0 x1 x2].
  rewrite (FloatFacts.mul_comm (x1 d1) (x2 d0)), (FloatFacts.mul_comm (x2 d1) (x1 d0)),
          (FloatFacts.mul_comm (x2 d1) (x0 d0)), (FloatFacts.mul_comm (x0 d1) (x2 d0)),
          (FloatFacts.mul_comm (x0 d1) (x1 d0)), (FloatFacts.mul_comm (x1 d1) (x0 d0)).
  repeat split; apply FloatSigns.sub_anti.
Qed.

Lemma norm_exchange d0 d1 :
  Eigen.norm (Eigen.cross d0 d1) = Eigen.norm (Eigen.cross d1 d0).
Proof.
  destruct (cross_exchange d0 d1) as (H0 & H1 & H2).
  unfold Eigen.norm, Eigen.squaredNorm, Eigen.dot.
  now rewrite (FloatSigns.square_opposite _ _ H0), (FloatSigns.square_opposite _ _ H1),
              (FloatSigns.square_opposite _ _ H2).
Qed.

Lemma third_coordinate_exchange d0 d1 d2 :
  opposite (third_coordinate d0 d1 d2) (third_coordinate d1 d0 d2).
Proof.
  destruct (cross_exchange d0 d1) as (H0 & H1 & H2).
  unfold third_coordinate, Eigen.dot, Eigen.vdiv. cbn [x0 x1 x2].
  rewrite <- (norm_exchange d0 d1).
  repeat apply FloatSigns.add_opposite;
    apply FloatSigns.mul_opposite, FloatSigns.div_opposite; assumption.
Qed.

Lemma frame_of_third T' d0 d1 d2 Tf :
  frame_of T' d0 d1 = Some Tf ->
  x2 (Eigen.mulv Tf d2) = third_coordinate d0 d1 d2.
Proof. intros HT. injection HT as <-. reflexivity. Qed.

End Exchange.

(** ** Further properties of [computePoses] and [solveQuartic] *)

Section CameraFrame.
Context `{L : Libm}.

(** X1. Whatever the directions, the camera frame step (lines 53-94) ends
    with the third coordinate of [f3] not above zero; it is below zero as
    soon as that coordinate in the frame of directions 0 and 1 is a number
    other than zero. *)
Theorem camera_frame_third_not_positive T' fv wp P1 P2 P3 :
  let z := third_coordinate (c0 fv) (c1 fv) (c2 fv) in
  exists cam,
    camera_frame T' fv wp P1 P2 P3 = Some cam /\
    (0 <? x2 (cam_f3 cam)) = false /\
    ((0 <? z) = true \/ (z <? 0) = true -> (x2 (cam_f3 cam) <? 0) = true).
Proof.
  intros z.
  destruct (camera_frame_some fv wp) as (Tf & Ts & HTf & HTs & Hcam).
  rewrite Hcam.
  rewrite (frame_of_third _ _ _ (c2 fv) _ (HTf T')). fold z.
  pose proof (third_coordinate_exchange (c0 fv) (c1 fv) (c2 fv)) as Hop. fold z in Hop.
  destruct (0 <? z) eqn:Hz; eexists; (split; [reflexivity|]); cbn [cam_f3];
    rewrite (frame_of_third _ _ _ (c2 fv) _ (HTf T')) || rewrite (frame_of_third _ _ _ (c2 fv) _ (HTs T')).
  - destruct (FloatSigns.opposite_pos _ _ Hop Hz) as [Hneg Hnp].
    split; [exact Hnp|]. intros _. exact Hneg.
  - fold z. split; [exact Hz|]. intros [Hp | Hn]; [discriminate | exact Hn].
Qed.

(** X2. Handing the two first correspondences in the other order changes
    nothing: when the alignment test answers the same on both orders and the
    third coordinate of direction 2 in the frame of directions 0 and 1 is a
    number other than zero, [computePoses] returns the same status and the
    same poses. *)
Theorem computePoses_exchange u fv wp sols :
  let z := third_coordinate (c0 fv) (c1 fv) (c2 fv) in
  (0 <? z) = true \/ (z <? 0) = true ->
  aligned (c1 wp) (c0 wp) (c2 wp) = aligned (c0 wp) (c1 wp) (c2 wp) ->
  computePoses u (exchange fv) (exchange wp) sols = computePoses u fv wp sols.
Proof.
  intros z Hz Hal.
  destruct (camera_frame_some fv wp) as (Tf & Ts & HTf & HTs & Hcam).
  destruct (camera_frame_some (exchange fv) (exchange wp)) as (Tf' & Ts' & HTf' & HTs' & Hcam').
  cbn [exchange c0 c1 c2] in HTf', HTs', Hcam'.
  assert (Tf' = Ts) as -> by (specialize (HTf' Tf); rewrite HTs in HTf'; congruence).
  assert (Ts' = Tf) as -> by (specialize (HTs' Tf); rewrite HTf in HTs'; congruence).
  unfold computePoses. cbn [bind Eigen.col exchange c0 c1 c2].
  rewrite Hal. destruct (aligned (c0 wp) (c1 wp) (c2 wp)); [reflexivity|].
  rewrite Hcam, Hcam'. cbn [bind].
  rewrite (frame_of_third _ _ _ (c2 fv) _ (HTf Tf)).
  rewrite (frame_of_third _ _ _ (c2 fv) _ (HTs Tf)). fold z.
  pose proof (third_coordinate_exchange (c0 fv) (c1 fv) (c2 fv)) as Hop. fold z in Hop.
  destruct Hz as [Hp | Hn].
  - destruct (FloatSigns.opposite_pos _ _ Hop Hp) as [_ Hnp].
    rewrite Hp, Hnp. reflexivity.
  - rewrite (FloatSigns.opposite_neg _ _ Hop Hn), (FloatSigns.ltb_asym _ Hn). reflexivity.
Qed.

End CameraFrame.

(** ** Infinite and [nan] values *)

Module FloatFinite.

Lemma is_finite_false x : is_finite x = false <-> NF x.
Proof.
  unfold NF, is_finite, is_infinity, is_nan.
  rewrite !eqb_spec, abs_spec. change (Prim2SF infinity) with (S754_infinity false).
  destruct (Prim2SF x) as [s | s | | s m e] eqn:Hx.
  - destruct s; cbn; split; intros H; (discriminate H || elim H).
  - destruct s; cbn; split; intros H; (exact I || reflexivity).
  - cbn. split; intros H; (exact I || reflexivity).
  - unfold SFeqb, SFabs, SFcompare.
    rewrite Z.compare_refl, (Pos.compare_cont_refl m Eq).
    destruct s; cbn; split; intros H; (discriminate H || elim H).
Qed.

Lemma is_finite_true x :
  is_finite x = true ->
  (exists s, Prim2SF x = S754_zero s) \/ (exists s m e, Prim2SF x = S754_finite s m e).
Proof.
  intros Hx. destruct (Prim2SF x) as [s | s | | s m e] eqn:Hp; eauto.
  - assert (is_finite x = false) by (apply is_finite_false; unfold NF; now rewrite Hp).
    congruence.
  - assert (is_finite x = false) by (apply is_finite_false; unfold NF; now rewrite Hp).
    congruence.
Qed.

Lemma NF_mul_l a b : NF a -> NF (a * b).
Proof.
  unfold NF. rewrite mul_spec.
  destruct (Prim2SF a), (Prim2SF b); cbn; tauto.
Qed.

Lemma NF_mul_r a b : NF b -> NF (a * b).
Proof. rewrite FloatFacts.mul_comm. apply NF_mul_l. Qed.

Lemma NF_add_l a b : NF a -> NF (a + b).
Proof.
  unfold NF. rewrite add_spec.
  destruct (Prim2SF a) as [|[|]| |], (Prim2SF b) as [|[|]| |]; cbn; tauto.
Qed.

Lemma NF_add_r a b : NF b -> NF (a + b).
Proof.
  unfold NF. rewrite add_spec.
  destruct (Prim2SF a) as [|[|]| |], (Prim2SF b) as [|[|]| |]; cbn; tauto.
Qed.

Lemma NF_sub_l a b : NF a -> NF (a - b).
Proof.
  unfold NF. rewrite sub_spec.
  destruct (Prim2SF a) as [|[|]| |], (Prim2SF b) as [|[|]| |]; cbn; tauto.
Qed.

Lemma NF_sub_r a b : NF b -> NF (a - b).
Proof.
  unfold NF. rewrite sub_spec.
  destruct (Prim2SF a) as [|[|]| |], (Prim2SF b) as [|[|]| |]; cbn; tauto.
Qed.

Lemma NF_div_l a b : NF a -> NF (a / b).
Proof.
  unfold NF. rewrite div_spec.
  destruct (Prim2SF a), (Prim2SF b); cbn; tauto.
Qed.

Lemma NF_div_nan a b : b = nan -> NF (a / b).
Proof. intros ->. rewrite FloatFacts.div_nan_r. exact I. Qed.

Lemma NF_div_zero a b s : Prim2SF b = S754_zero s -> NF (a / b).
Proof.
  unfold NF. rewrite div_spec. intros ->.
  destruct (Prim2SF a); cbn; tauto.
Qed.

Lemma NF_opp a : NF a -> NF (- a).
Proof. unfold NF. rewrite opp_spec. destruct (Prim2SF a); cbn; tauto. Qed.

Lemma NF_sqrt a : NF a -> NF (sqrt a).
Proof.
  unfold NF. rewrite sqrt_spec.
  destruct (Prim2SF a) as [|[|]| |]; cbn; tauto.
Qed.

Lemma NF_not_zero a : NF a -> (a =? 0) = false.
Proof.
  unfold NF. rewrite eqb_spec. change (Prim2SF 0) with (S754_zero false).
  destruct (Prim2SF a) as [|[|]| |]; cbn; tauto.
Qed.

(** Differences and products of zeros and finite values. *)
Lemma sub_diag_finite x : is_finite x = true -> x - x = 0.
Proof.
  intros [[s Hx] | (s & m & e & Hx)]%is_finite_true;
    apply Prim2SF_inj; rewrite sub_spec, Hx; cbn.
  - now destruct s.
  - now rewrite Z.sub_diag.
Qed.

Lemma zero_mul_finite a b s :
  Prim2SF a = S754_zero s -> is_finite b = true ->
  (exists t, Prim2SF (a * b) = S754_zero t) /\ (exists t, Prim2SF (b * a) = S754_zero t).
Proof.
  intros Ha [[t Hb] | (t & m & e & Hb)]%is_finite_true;
    rewrite !mul_spec, Ha, Hb; cbn; eauto.
Qed.

Lemma zero_sub_zero a b s t :
  Prim2SF a = S754_zero s -> Prim2SF b = S754_zero t ->
  exists r, Prim2SF (a - b) = S754_zero r.
Proof.
  intros Ha Hb. rewrite sub_spec, Ha, Hb. destruct s, t; cbn; eauto.
Qed.

(** Values that are the same, the sign of a zero apart. *)
Lemma SFadd_sub_zero p em a z :
  SFzero z -> SFsame (SFadd p em a z) (SFsub p em a z).
Proof.
  intros [sz ->]%FloatSigns.SFzero_cases.
  destruct a as [sa | sa | | sa ma ea]; cbn;
    try (left; reflexivity).
  destruct sa, sz; cbn; (left; reflexivity) || (right; split; exact I).
Qed.

Lemma SFsame_mul p em a b c :
  SFsame a b -> SFsame (SFmul p em a c) (SFmul p em b c).
Proof.
  intros [-> | [[sa ->]%FloatSigns.SFzero_cases [sb ->]%FloatSigns.SFzero_cases]];
    [left; reflexivity|].
  destruct c; cbn; (left; reflexivity) || (right; split; exact I).
Qed.

Lemma SFsame_add p em a b c :
  SFsame a b -> SFsame (SFadd p em a c) (SFadd p em b c).
Proof.
  intros [-> | [[sa ->]%FloatSigns.SFzero_cases [sb ->]%FloatSigns.SFzero_cases]];
    [left; reflexivity|].
  destruct c as [sc | sc | | sc mc ec]; cbn; try (left; reflexivity).
  destruct sa, sb, sc; cbn; (left; reflexivity) || (right; split; exact I).
Qed.

Lemma SFsame_value x y : SFsame (Prim2SF x) (Prim2SF y) -> same_value x y.
Proof.
  unfold same_value. rewrite eqb_spec.
  intros [Hxy | [[sx Hx]%FloatSigns.SFzero_cases [sy Hy]%FloatSigns.SFzero_cases]].
  - rewrite Hxy. destruct (Prim2SF x) as [s | s | | s m e] eqn:Hx.
    + left. reflexivity.
    + left. now destruct s.
    + right. split; apply FloatFacts.eq_nan; congruence.
    + left. unfold SFeqb, SFcompare.
      rewrite Z.compare_refl, (Pos.compare_cont_refl m Eq). now destruct s.
  - left. rewrite Hx, Hy. reflexivity.
Qed.

End FloatFinite.

Section Degenerate.
Context `{L : Libm}.

Lemma norm_of_zeros c s0 s1 s2 :
  Prim2SF (x0 c) = S754_zero s0 -> Prim2SF (x1 c) = S754_zero s1 ->
  Prim2SF (x2 c) = S754_zero s2 -> Eigen.norm c = 0.
Proof.
  intros H0 H1 H2. unfold Eigen.norm, Eigen.squaredNorm, Eigen.dot.
  rewrite (FloatFacts.sq_zero _ _ H0), (FloatFacts.sq_zero _ _ H1),
          (FloatFacts.sq_zero _ _ H2).
  reflexivity.
Qed.

Lemma zero3_diag P : finite3 P = true -> Eigen.vsub P P = V3 0 0 0.
Proof.
  unfold finite3. intros [[H0 H1]%andb_true_iff H2]%andb_true_iff.
  unfold Eigen.vsub.
  now rewrite (FloatFinite.sub_diag_finite _ H0), (FloatFinite.sub_diag_finite _ H1),
              (FloatFinite.sub_diag_finite _ H2).
Qed.

Lemma norm_cross_zero_l v :
  finite3 v = true -> Eigen.norm (Eigen.cross (V3 0 0 0) v) = 0.
Proof.
  unfold finite3. intros [[H0 H1]%andb_true_iff H2]%andb_true_iff.
  destruct (FloatFinite.zero_mul_finite 0 _ false eq_refl H0) as [[a0 Ha0] _].
  destruct (FloatFinite.zero_mul_finite 0 _ false eq_refl H1) as [[a1 Ha1] _].
  destruct (FloatFinite.zero_mul_finite 0 _ false eq_refl H2) as [[a2 Ha2] _].
  destruct (FloatFinite.zero_sub_zero _ _ _ _ Ha2 Ha1) as [r0 Hr0].
  destruct (FloatFinite.zero_sub_zero _ _ _ _ Ha0 Ha2) as [r1 Hr1].
  destruct (FloatFinite.zero_sub_zero _ _ _ _ Ha1 Ha0) as [r2 Hr2].
  now apply (norm_of_zeros _ r0 r1 r2).
Qed.

Lemma norm_cross_zero_r v :
  finite3 v = true -> Eigen.norm (Eigen.cross v (V3 0 0 0)) = 0.
Proof.
  unfold finite3. intros [[H0 H1]%andb_true_iff H2]%andb_true_iff.
  destruct (FloatFinite.zero_mul_finite 0 _ false eq_refl H0) as [_ [a0 Ha0]].
  destruct (FloatFinite.zero_mul_finite 0 _ false eq_refl H1) as [_ [a1 Ha1]].
  destruct (FloatFinite.zero_mul_finite 0 _ false eq_refl H2) as [_ [a2 Ha2]].
  destruct (FloatFinite.zero_sub_zero _ _ _ _ Ha1 Ha2) as [r0 Hr0].
  destruct (FloatFinite.zero_sub_zero _ _ _ _ Ha2 Ha0) as [r1 Hr1].
  destruct (FloatFinite.zero_sub_zero _ _ _ _ Ha0 Ha1) as [r2 Hr2].
  now apply (norm_of_zeros _ r0 r1 r2).
Qed.

(** X3. A world point given twice is reported as aligned: when world point
    1 or world point 2 equals world point 0, with finite coordinates and a
    finite difference of the other point to it, the answer is -1 and
    [solutions] is left as it was. *)
Theorem computePoses_coincident u fv wp sols :
  finite3 (c0 wp) = true ->
  (c1 wp = c0 wp /\ finite3 (Eigen.vsub (c2 wp) (c0 wp)) = true) \/
  (c2 wp = c0 wp /\ finite3 (Eigen.vsub (c1 wp) (c0 wp)) = true) ->
  computePoses u fv wp sols = Some ((-1)%Z, sols).
Proof.
  intros Hf Hc. unfold computePoses. cbn [bind Eigen.col].
  assert (Ha : aligned (c0 wp) (c1 wp) (c2 wp) = true).
  { unfold aligned. destruct Hc as [[-> Hd] | [-> Hd]]; rewrite (zero3_diag _ Hf).
    - now rewrite (norm_cross_zero_l _ Hd).
    - now rewrite (norm_cross_zero_r _ Hd). }
  now rewrite Ha.
Qed.

Create HintDb nonfinite.
#[local] Hint Resolve FloatFinite.NF_sqrt FloatFinite.NF_add_l FloatFinite.NF_add_r
  FloatFinite.NF_mul_l FloatFinite.NF_mul_r FloatFinite.NF_sub_l FloatFinite.NF_sub_r
  : nonfinite.

Lemma norm_cross_nonfinite u v :
  finite3 u && finite3 v = false -> NF (Eigen.norm (Eigen.cross u v)).
Proof.
  unfold finite3. rewrite !andb_false_iff, !FloatFinite.is_finite_false.
  unfold Eigen.norm, Eigen.squaredNorm, Eigen.dot, Eigen.cross. cbn [x0 x1 x2].
  intros [[[H | H] | H] | [[H | H] | H]]; eauto 8 with nonfinite.
Qed.

Lemma vsub_nonfinite P Q :
  finite3 P && finite3 Q = false -> finite3 (Eigen.vsub Q P) = false.
Proof.
  unfold finite3, Eigen.vsub. cbn [x0 x1 x2].
  rewrite !andb_false_iff, !FloatFinite.is_finite_false.
  intros [[[H | H] | H] | [[H | H] | H]]; auto with nonfinite.
Qed.

(** X4. A world point with an infinite or [nan] coordinate is never
    reported as aligned: the answer is 0 and four poses are added. *)
Theorem computePoses_nonfinite_world u fv wp sols :
  finite3 (c0 wp) && finite3 (c1 wp) && finite3 (c2 wp) = false ->
  exists p0 p1 p2 p3,
    computePoses u fv wp sols = Some (0%Z, sols ++ [p0; p1; p2; p3]).
Proof.
  intros Hnf.
  assert (Ha : aligned (c0 wp) (c1 wp) (c2 wp) = false).
  { unfold aligned. apply FloatFinite.NF_not_zero, norm_cross_nonfinite.
    apply andb_false_iff.
    apply andb_false_iff in Hnf as [[H0 | H1]%andb_false_iff | H2].
    - left. apply vsub_nonfinite. now rewrite H0.
    - left. apply vsub_nonfinite. rewrite H1. apply andb_false_r.
    - right. apply vsub_nonfinite. rewrite H2. apply andb_false_r. }
  destruct (computePoses_unfold fv wp) as (cam & new & _ & _ & Hlen & Hrun).
  destruct new as [|p0 [|p1 [|p2 [|p3 [|p4 new]]]]]; try discriminate.
  exists p0, p1, p2, p3. rewrite Hrun, Ha. reflexivity.
Qed.

(** X5. Without a leading coefficient there is no root to find: when [A]
    is zero or [nan], or [B] is infinite or [nan], none of the four values
    [solveQuartic] writes is finite. *)
Theorem solveQuartic_no_finite_root A B C D E realRoots :
  (A =? 0) = true \/ is_nan A = true \/ is_finite B = false ->
  exists r,
    solveQuartic (V5 A B C D E) realRoots = Some (0%Z, r) /\
    is_finite (q0 r) = false /\ is_finite (q1 r) = false /\
    is_finite (q2 r) = false /\ is_finite (q3 r) = false.
Proof.
  intros H.
  assert (Hc : NF (- B / (4 * A))).
  { destruct H as [[s HA]%FloatFacts.eqb_zero | [HA%FloatFacts.is_nan_true | HB]].
    - assert (exists t, Prim2SF (4 * A) = S754_zero t) as [t Ht]
        by (rewrite mul_spec, HA; cbn; eauto).
      now apply (FloatFinite.NF_div_zero _ _ t).
    - apply FloatFinite.NF_div_nan. rewrite HA. apply FloatFacts.mul_nan_r.
    - apply FloatFinite.NF_div_l, FloatFinite.NF_opp. now apply FloatFinite.is_finite_false. }
  eexists. split.
  - unfold solveQuartic, write_roots.
    cbn [bind Eigen.coeff5 Eigen.set_coeff4 a0 a1 a2 a3 a4 q0 q1 q2 q3]. reflexivity.
  - cbn [q0 q1 q2 q3 Complex.s_add real].
    repeat split; apply FloatFinite.is_finite_false, FloatFinite.NF_add_r, Hc.
Qed.

(** X6. A pair of complex conjugate roots comes out as the same value
    twice: when the square root inside the two first roots has a zero real
    part, [realRoots[0]] and [realRoots[1]] are the same value, and so for
    [realRoots[2]] and [realRoots[3]]. *)
Theorem solveQuartic_conjugate_pair A B C D E realRoots :
  let d := depress A B C D E in
  let y := ry (resolvent d) in
  let w := csqrt (Complex.s_add (alpha d) (Complex.s_mul 2 y)) in
  let t := Complex.s_add (3 * alpha d) (Complex.s_mul 2 y) in
  let s01 := csqrt (Complex.neg (Complex.add t (s_div (2 * beta d) w))) in
  let s23 := csqrt (Complex.neg (Complex.sub t (s_div (2 * beta d) w))) in
  exists r,
    solveQuartic (V5 A B C D E) realRoots = Some (0%Z, r) /\
    ((real s01 =? 0) = true -> same_value (q0 r) (q1 r)) /\
    ((real s23 =? 0) = true -> same_value (q2 r) (q3 r)).
Proof.
  intros d y w t s01 s23. eexists. split.
  - unfold solveQuartic, write_roots.
    cbn [bind Eigen.coeff5 Eigen.set_coeff4 a0 a1 a2 a3 a4 q0 q1 q2 q3]. reflexivity.
  - cbn [q0 q1 q2 q3 Complex.s_add Complex.s_mul Complex.add Complex.sub real].
    fold d y. fold w. fold t. fold s01 s23.
    split; intros [sz Hz]%FloatFacts.eqb_zero;
      apply FloatFinite.SFsame_value; rewrite !add_spec, !mul_spec;
      apply FloatFinite.SFsame_add, FloatFinite.SFsame_mul;
      rewrite sub_spec, add_spec, Hz; now apply FloatFinite.SFadd_sub_zero.
Qed.

Lemma norm_cross_nan d0 d1 :
  has_nan3 d0 || has_nan3 d1 = true -> Eigen.norm (Eigen.cross d0 d1) = nan.
Proof.
  destruct d0 as [a0 a1 a2], d1 as [b0 b1 b2]. unfold has_nan3. cbn [x0 x1 x2].
  rewrite !orb_true_iff.
  unfold Eigen.norm, Eigen.squaredNorm, Eigen.dot, Eigen.cross. cbn [x0 x1 x2].
  intros [[[H | H] | H] | [[H | H] | H]]; apply FloatFacts.is_nan_true in H; subst;
    repeat rewrite ?FloatFacts.mul_nan_l, ?FloatFacts.mul_nan_r, ?FloatFacts.sub_nan_l,
                   ?FloatFacts.sub_nan_r, ?FloatFacts.add_nan_l, ?FloatFacts.add_nan_r;
    reflexivity.
Qed.

Lemma frame_of_nan f1 f2 :
  Eigen.norm (Eigen.cross f1 f2) = nan ->
  forall T', frame_of T' f1 f2 = Some (Eigen.transpose (M3 f1 nan3 nan3)).
Proof.
  intros Hn T'. unfold frame_of. rewrite Hn. unfold Eigen.vdiv.
  rewrite !FloatFacts.div_nan_r.
  unfold Eigen.cross at 1, nan3. cbn [x0 x1 x2].
  rewrite !FloatFacts.mul_nan_l, !FloatFacts.sub_nan_l.
  reflexivity.
Qed.

(** X7. A [nan] coordinate in direction 0 or 1 is not reported: when the
    world points are not aligned the answer is 0, and every orientation
    coefficient of the four poses added is [nan]. *)
Theorem computePoses_nan_direction u fv wp sols :
  has_nan3 (c0 fv) || has_nan3 (c1 fv) = true ->
  aligned (c0 wp) (c1 wp) (c2 wp) = false ->
  exists p0 p1 p2 p3,
    computePoses u fv wp sols = Some (0%Z, sols ++ [p0; p1; p2; p3]) /\
    orientation_nan p0 /\ orientation_nan p1 /\
    orientation_nan p2 /\ orientation_nan p3.
Proof.
  intros Hnan Hal.
  destruct (camera_frame_some fv wp) as (Tf & Ts & HTf & _ & Hcam).
  pose proof (frame_of_nan _ _ (norm_cross_nan _ _ Hnan) Tf) as HT.
  rewrite HTf in HT. injection HT as HT.
  assert (Hz : (0 <? x2 (Eigen.mulv Tf (c2 fv))) = false)
    by (rewrite HT, mulv_nan_rows; reflexivity).
  rewrite Hz in Hcam.
  destruct (poses_in_frame_some
              (mkCamera (c0 fv) (c1 fv) (Eigen.mulv Tf (c2 fv)) Tf
                        (c0 wp) (c1 wp) (c2 wp))) as (N & k & rr & Hp).
  cbn [cam_T cam_P1] in Hp.
  exists (pose k N Tf (c0 wp) (q0 rr)), (pose k N Tf (c0 wp) (q1 rr)),
         (pose k N Tf (c0 wp) (q2 rr)), (pose k N Tf (c0 wp) (q3 rr)).
  split.
  - unfold computePoses. cbn [bind Eigen.col]. rewrite Hal, Hcam. cbn [bind].
    apply Hp.
  - rewrite HT. repeat split; apply pose_orientation_nan.
Qed.

End Degenerate.

(** ** The edge cases at work *)

(** The camera of the round trip above sees the third point on the positive
    side: the two first points are exchanged, and exchanging them beforehand
    gives the same poses. *)
Lemma computePoses_exchange_witness :
  let wp := M3 (V3 1 0 5) (V3 0 1 5) (V3 (-1) (-1) 4) in
  let centre := V3 1 2 3 in
  let fv := M3 (Sample.normalized (Eigen.vsub (c0 wp) centre))
               (Sample.normalized (Eigen.vsub (c1 wp) centre))
               (Sample.normalized (Eigen.vsub (c2 wp) centre)) in
  computePoses (L := Sample.libm) Sample.locals (exchange fv) (exchange wp) []
  = computePoses (L := Sample.libm) Sample.locals fv wp [].
Proof.
  intros wp centre fv.
  apply (computePoses_exchange (L := Sample.libm) Sample.locals fv wp []).
  - left. vm_compute. reflexivity.
  - vm_compute. reflexivity.
Defined.

(** Twice the same world point. *)
Lemma computePoses_coincident_witness :
  computePoses (L := Sample.libm) Sample.locals
    (M3 (V3 1 0 0) (V3 0 1 0) (V3 0 0 1))
    (M3 (V3 1 0 5) (V3 1 0 5) (V3 0 1 5)) []
  = Some ((-1)%Z, []).
Proof.
  apply (computePoses_coincident (L := Sample.libm)).
  - reflexivity.
  - left. split; reflexivity.
Defined.

(** A world point at infinity. *)
Lemma computePoses_nonfinite_world_witness :
  exists p0 p1 p2 p3,
    computePoses (L := Sample.libm) Sample.locals
      (M3 (V3 1 0 0) (V3 0 1 0) (V3 0 0 1))
      (M3 (V3 1 0 5) (V3 0 1 5) (V3 infinity 0 4)) []
    = Some (0%Z, [] ++ [p0; p1; p2; p3]).
Proof.
  apply (computePoses_nonfinite_world (L := Sample.libm)). reflexivity.
Defined.

(** A quartic without its leading term. *)
Lemma solveQuartic_no_finite_root_witness :
  exists r,
    solveQuartic (L := Sample.libm) (V5 0 1 (-3) 2 0) (V4 7 7 7 7) = Some (0%Z, r) /\
    is_finite (q0 r) = false /\ is_finite (q1 r) = false /\
    is_finite (q2 r) = false /\ is_finite (q3 r) = false.
Proof.
  apply (solveQuartic_no_finite_root (L := Sample.libm)). left. reflexivity.
Defined.

(** A direction that is not a number. *)
Lemma computePoses_nan_direction_witness :
  exists p0 p1 p2 p3,
    computePoses (L := Sample.libm) Sample.locals
      (M3 (V3 nan 0 0) (V3 0 1 0) (V3 0 0 1))
      (M3 (V3 1 0 5) (V3 0 1 5) (V3 (-1) (-1) 4)) []
    = Some (0%Z, [] ++ [p0; p1; p2; p3]) /\
    orientation_nan p0 /\ orientation_nan p1 /\
    orientation_nan p2 /\ orientation_nan p3.
Proof.
  apply (computePoses_nan_direction (L := Sample.libm)).
  - reflexivity.
  - vm_compute. reflexivity.
Defined.

(** ** The order of the doubles *)

Module FloatOrder.

Lemma SFcompare_key a b :
  a <> S754_nan -> b <> S754_nan -> SFcompare a b = Some (lex3 (SFkey a) (SFkey b)).
Proof.
  intros Ha Hb.
  destruct a as [sa | sa | | sa ma ea], b as [sb | sb | | sb mb eb];
    try congruence; try (destruct sa; try destruct sb; reflexivity).
  destruct sa, sb; cbn; try reflexivity.
  rewrite Z.compare_opp, (Z.compare_antisym ea eb).
  now destruct (Z.compare ea eb).
Qed.

Lemma lex3_lt k k' :
  lex3 k k' = Lt <->
  (let '(a, b, c) := k in let '(a', b', c') := k' in
   a < a' \/ (a = a' /\ (b < b' \/ (b = b' /\ c < c'))))%Z.
Proof.
  destruct k as [[a b] c], k' as [[a' b'] c']. cbn.
  destruct (Z.compare_spec a a'), (Z.compare_spec b b'), (Z.compare_spec c c');
    split; intros Hx; try discriminate; try reflexivity; try lia.
Qed.

(** [a < b] and not [c < b], for a number [c]: then [a < c]. *)
Lemma SFltb_above a b c :
  c <> S754_nan -> SFltb a b = true -> SFltb c b = false -> SFltb a c = true.
Proof.
  intros Hc. unfold SFltb.
  destruct (SFcompare a b) as [[]|] eqn:Hab; try discriminate. intros _.
  assert (Ha : a <> S754_nan) by (intros ->; discriminate).
  assert (Hb : b <> S754_nan) by (intros ->; destruct a; discriminate).
  rewrite SFcompare_key in Hab by assumption. injection Hab as Hab.
  rewrite !SFcompare_key by assumption.
  apply lex3_lt in Hab.
  destruct (lex3 (SFkey c) (SFkey b)) eqn:Hcb; try discriminate; intros _;
    (assert (lex3 (SFkey a) (SFkey c) = Lt) as ->; [|reflexivity]);
    apply lex3_lt;
    destruct (SFkey a) as [[a1 a2] a3], (SFkey b) as [[b1 b2] b3], (SFkey c) as [[c1 c2] c3];
    cbn in Hcb;
    destruct (Z.compare_spec c1 b1), (Z.compare_spec c2 b2), (Z.compare_spec c3 b3);
    try discriminate; lia.
Qed.

Lemma ltb_above a b c :
  is_nan c = false -> (a <? b) = true -> (c <? b) = false -> (a <? c) = true.
Proof.
  intros Hc. rewrite !ltb_spec. apply SFltb_above.
  unfold is_nan in Hc. rewrite eqb_spec in Hc. intros Hn. rewrite Hn in Hc. discriminate.
Qed.

Lemma ltb_neg_infinity v : (v <? neg_infinity) = false.
Proof.
  rewrite ltb_spec. change (Prim2SF neg_infinity) with (S754_infinity true).
  destruct (Prim2SF v) as [s | s | | s m e]; try reflexivity; now destruct s.
Qed.

Lemma ltb_nan_l v : (nan <? v) = false.
Proof. rewrite ltb_spec. reflexivity. Qed.

Lemma ltb_infinity_l v : (infinity <? v) = false.
Proof.
  rewrite ltb_spec. change (Prim2SF infinity) with (S754_infinity false).
  destruct (Prim2SF v) as [s | s | | s m e]; try reflexivity; now destruct s.
Qed.

End FloatOrder.

(** * Histogram *)

Module HistogramFacts.
Import Histogram.

Section Search.
Variable T : Type.
Variable lt : T -> T -> bool.

Lemma div2_lt n : (n <> 0 -> Nat.div2 n < n)%nat.
Proof. intros Hn. apply Nat.lt_div2. lia. Qed.

(** The search ends within the range it started from; it ends at the start
    of the range only when the range is empty or its first element is above
    the value. *)
Lemma upper_bound_loop_range fuel l first len value :
  (len <= fuel)%nat -> (first + len <= length l)%nat ->
  exists r,
    upper_bound_loop T lt fuel l first len value = Some r /\
    (first <= r <= first + len)%nat /\
    (r = first -> len <> 0%nat ->
     exists x, nth_error l first = Some x /\ lt value x = true).
Proof.
  revert first len.
  induction fuel as [|fuel IH]; intros first len Hfuel Hlen.
  - assert (len = 0%nat) as -> by lia. cbn. exists first. repeat split; lia.
  - cbn [upper_bound_loop]. destruct (Nat.eqb_spec len 0) as [-> | Hne].
    + exists first. repeat split; lia.
    + pose proof (div2_lt len Hne) as Hhalf.
      set (half := Nat.div2 len) in *. clearbody half.
      destruct (nth_error l (first + half)) as [m|] eqn:Hm.
      2:{ apply nth_error_None in Hm. lia. }
      cbn [bind]. destruct (lt value m) eqn:Hlt.
      * destruct (IH first half) as (r & Hr & Hrange & Hfirst); [lia | lia |].
        exists r. split; [exact Hr|]. split; [lia|].
        intros Heq _. destruct (Nat.eq_dec half 0) as [Hz | Hnz].
        -- rewrite Hz, Nat.add_0_r in Hm. eauto.
        -- auto.
      * destruct (IH (S (first + half)) (len - half - 1)%nat)
          as (r & Hr & Hrange & _); [lia | lia |].
        exists r. split; [exact Hr|]. split; [lia|]. intros Heq. lia.
Qed.

(** A value that is below no element ends the search behind the last one. *)
Lemma upper_bound_loop_none_above fuel l first len value :
  (len <= fuel)%nat -> (first + len <= length l)%nat ->
  (forall x, In x l -> lt value x = false) ->
  upper_bound_loop T lt fuel l first len value = Some (first + len)%nat.
Proof.
  intros Hfuel Hlen Hall. revert first len Hfuel Hlen.
  induction fuel as [|fuel IH]; intros first len Hfuel Hlen.
  - assert (len = 0%nat) as -> by lia. cbn. now rewrite Nat.add_0_r.
  - cbn [upper_bound_loop]. destruct (Nat.eqb_spec len 0) as [-> | Hne].
    + now rewrite Nat.add_0_r.
    + pose proof (div2_lt len Hne) as Hhalf.
      set (half := Nat.div2 len) in *. clearbody half.
      destruct (nth_error l (first + half)) as [m|] eqn:Hm.
      2:{ apply nth_error_None in Hm. lia. }
      cbn [bind]. rewrite (Hall m (nth_error_In _ _ Hm)).
      rewrite IH by lia. f_equal. lia.
Qed.

(** A value that is below every element ends the search where it started. *)
Lemma upper_bound_loop_all_above fuel l first len value :
  (len <= fuel)%nat -> (first + len <= length l)%nat ->
  (forall x, In x l -> lt value x = true) ->
  upper_bound_loop T lt fuel l first len value = Some first.
Proof.
  intros Hfuel Hlen Hall. revert first len Hfuel Hlen.
  induction fuel as [|fuel IH]; intros first len Hfuel Hlen.
  - assert (len = 0%nat) as -> by lia. reflexivity.
  - cbn [upper_bound_loop]. destruct (Nat.eqb_spec len 0) as [-> | Hne]; [reflexivity|].
    pose proof (div2_lt len Hne) as Hhalf.
      set (half := Nat.div2 len) in *. clearbody half.
    destruct (nth_error l (first + half)) as [m|] eqn:Hm.
    2:{ apply nth_error_None in Hm. lia. }
    cbn [bind]. rewrite (Hall m (nth_error_In _ _ Hm)).
    apply IH; lia.
Qed.

(** On boundaries in order the search ends between the elements that are
    not above the value and those that are.  [ok] tells the elements the
    order holds for. *)
Variable ok : T -> Prop.
Hypothesis lt_above :
  forall a b c, ok c -> lt a b = true -> lt c b = false -> lt a c = true.

Lemma upper_bound_loop_sorted fuel l first len value :
  sorted T lt l -> Forall ok l ->
  (len <= fuel)%nat -> (first + len <= length l)%nat ->
  (forall j x, (j < first)%nat -> nth_error l j = Some x -> lt value x = false) ->
  (forall j x, (first + len <= j)%nat -> nth_error l j = Some x -> lt value x = true) ->
  exists r,
    upper_bound_loop T lt fuel l first len value = Some r /\
    (forall j x, (j < r)%nat -> nth_error l j = Some x -> lt value x = false) /\
    (forall j x, (r <= j)%nat -> nth_error l j = Some x -> lt value x = true).
Proof.
  intros Hsorted Hok. revert first len.
  induction fuel as [|fuel IH]; intros first len Hfuel Hlen Hbelow Habove.
  - assert (len = 0%nat) as -> by lia. cbn. exists first.
    rewrite Nat.add_0_r in Habove. auto.
  - cbn [upper_bound_loop]. destruct (Nat.eqb_spec len 0) as [-> | Hne].
    + exists first. rewrite Nat.add_0_r in Habove. auto.
    + pose proof (div2_lt len Hne) as Hhalf.
      set (half := Nat.div2 len) in *. clearbody half.
      destruct (nth_error l (first + half)) as [m|] eqn:Hm.
      2:{ apply nth_error_None in Hm. lia. }
      cbn [bind]. destruct (lt value m) eqn:Hlt.
      * apply IH; [lia | lia | exact Hbelow |].
        intros j x Hj Hx.
        apply (lt_above value m x); [|exact Hlt|].
        -- rewrite Forall_forall in Hok. eapply Hok, nth_error_In, Hx.
        -- apply (Hsorted (first + half)%nat j m x); [lia | exact Hm | exact Hx].
      * apply IH; [lia | lia | | ].
        -- intros j x Hj Hx. destruct (lt value x) eqn:Hvx; [|reflexivity].
           assert (Hmm : lt value m = true).
           { apply (lt_above value x m); [|exact Hvx|].
             - rewrite Forall_forall in Hok. eapply Hok, nth_error_In, Hm.
             - apply (Hsorted j (first + half)%nat x m); [lia | exact Hx | exact Hm]. }
           congruence.
        -- intros j x Hj Hx. apply (Habove j x); [lia | exact Hx].
Qed.

End Search.

End HistogramFacts.

Module HistogramCounts.
Import Histogram.

Lemma to_int_small z : (0 <= z < 2147483648)%Z -> to_int z = z.
Proof. intros Hz. unfold to_int. rewrite Z.mod_small by lia. lia. Qed.


Lemma nth_error_set_nth_other {A : Type} (l : list A) n a i :
  i <> n -> nth_error (set_nth l n a) i = nth_error l i.
Proof.
  revert n i. induction l as [|x l IH]; intros [|n] [|i] Hi; cbn; trivial.
  - congruence.
  - apply IH. congruence.
Qed.

Lemma nth_error_set_nth_same {A : Type} (l : list A) n a :
  (n < length l)%nat -> nth_error (set_nth l n a) n = Some a.
Proof.
  revert n. induction l as [|x l IH]; intros [|n] Hn; cbn in *; try lia; trivial.
  apply IH. lia.
Qed.

Lemma fold_set_nth l n c :
  nth_error l n = Some c ->
  fold_right Z.add 0%Z (set_nth l n (c + 1)%Z) = (fold_right Z.add 0%Z l + 1)%Z.
Proof.
  revert n. induction l as [|x l IH]; intros [|n] Hn; cbn in *; try discriminate.
  - injection Hn as ->. lia.
  - rewrite (IH n Hn). lia.
Qed.

Section Counting.
Variable T : Type.
Variable lt : T -> T -> bool.
Variable minus_infinity : T.
Variable max : T.

Lemma make_well_formed boundaries :
  well_formed T minus_infinity max (make T minus_infinity max boundaries).
Proof.
  split.
  - exists boundaries. reflexivity.
  - cbn. now rewrite repeat_length.
Qed.

(** A value that is not below the first boundary is found in a bin. *)
Lemma upper_bound_positive h value :
  lt value minus_infinity = false ->
  well_formed T minus_infinity max h ->
  exists it,
    upper_bound T lt (boundaries_ T h) value = Some it /\
    (1 <= it <= length (boundaries_ T h))%nat.
Proof.
  intros below_none [[b Hb] _]. unfold upper_bound.
  destruct (HistogramFacts.upper_bound_loop_range T lt (length (boundaries_ T h))
              (boundaries_ T h) 0 (length (boundaries_ T h)) value)
    as (r & Hr & Hrange & Hfirst); [lia | lia |].
  exists r. split; [exact Hr|].
  destruct r as [|r]; [|lia].
  destruct Hfirst as (x & Hx & Hlt); [reflexivity | rewrite Hb; cbn; lia |].
  rewrite Hb in Hx. cbn in Hx. injection Hx as <-.
  rewrite below_none in Hlt. discriminate.
Qed.

(** What [Add] does when the search ends at [it]. *)
Lemma Add_at h value it :
  well_formed T minus_infinity max h ->
  (Z.of_nat (length (boundaries_ T h)) < 2147483648)%Z ->
  (forall c, In c (histogram_count_ T h) -> (c < INT_MAX)%Z) ->
  upper_bound T lt (boundaries_ T h) value = Some it ->
  (1 <= it <= length (boundaries_ T h))%nat ->
  exists c,
    nth_error (histogram_count_ T h) (it - 1) = Some c /\
    Add T lt h value
    = Some (mk T (boundaries_ T h) (set_nth (histogram_count_ T h) (it - 1) (c + 1)%Z)).
Proof.
  intros [_ Hlen] Hsize Hcount Hit Hrange. unfold Add. rewrite Hit. cbn [bind].
  rewrite to_int_small by lia. unfold at_index.
  destruct (Z.ltb_spec (Z.of_nat it - 1) 0) as [Hneg | _]; [lia|].
  replace (Z.to_nat (Z.of_nat it - 1)) with (it - 1)%nat by lia.
  destruct (nth_error (histogram_count_ T h) (it - 1)) as [c|] eqn:Hc.
  2:{ apply nth_error_None in Hc. lia. }
  exists c. split; [reflexivity|]. cbn [bind].
  destruct (Z.ltb_spec c INT_MAX) as [_ | Hge]; [reflexivity|].
  specialize (Hcount c (nth_error_In _ _ Hc)). lia.
Qed.

(** A value below no boundary is counted in the last bin. *)
Lemma Add_last h value :
  well_formed T minus_infinity max h ->
  (Z.of_nat (length (boundaries_ T h)) < 2147483648)%Z ->
  (forall c, In c (histogram_count_ T h) -> (c < INT_MAX)%Z) ->
  (forall x, lt value x = false) ->
  exists c,
    nth_error (histogram_count_ T h) (length (boundaries_ T h) - 1) = Some c /\
    Add T lt h value
    = Some (mk T (boundaries_ T h)
               (set_nth (histogram_count_ T h) (length (boundaries_ T h) - 1) (c + 1)%Z)).
Proof.
  intros Hwf Hsize Hcount Hv.
  assert (Hit : upper_bound T lt (boundaries_ T h) value
                = Some (length (boundaries_ T h))).
  { unfold upper_bound.
    rewrite HistogramFacts.upper_bound_loop_none_above; [reflexivity | lia | lia |].
    intros x _. apply Hv. }
  assert (Hpos : (1 <= length (boundaries_ T h))%nat).
  { destruct Hwf as [[b Hb] _]. rewrite Hb. cbn. lia. }
  apply (Add_at h value _ Hwf Hsize Hcount Hit). lia.
Qed.

(** *** [PrintString] *)

Variable to_string : T -> String.string.
Variable StringPrintf : String.string -> list arg -> String.string.

Lemma well_formed_size h :
  well_formed T minus_infinity max h -> (2 <= length (boundaries_ T h))%nat.
Proof. intros [[b Hb] _]. rewrite Hb. cbn. rewrite length_app. cbn. lia. Qed.

Lemma at_index_some {A : Type} (l : list A) i :
  (0 <= i < Z.of_nat (length l))%Z -> exists a, at_index l i = Some a.
Proof.
  intros Hi. unfold at_index.
  destruct (Z.ltb_spec i 0) as [Hneg | _]; [lia|].
  destruct (nth_error l (Z.to_nat i)) as [a|] eqn:Ha; [now exists a|].
  apply nth_error_None in Ha. lia.
Qed.

Lemma at_index_set_nth_other {A : Type} (l : list A) n a i :
  i <> Z.of_nat n -> at_index (set_nth l n a) i = at_index l i.
Proof.
  intros Hi. unfold at_index.
  destruct (Z.ltb_spec i 0) as [Hneg | Hpos]; [reflexivity|].
  apply nth_error_set_nth_other. lia.
Qed.

(** The loop of [PrintString] stays inside the two vectors. *)
Lemma for_loop_print_some h n i msg :
  length (histogram_count_ T h) = length (boundaries_ T h) ->
  (0 <= i)%Z -> (i + Z.of_nat n < Z.of_nat (length (boundaries_ T h)))%Z ->
  exists msg', for_loop n i (print_bin T to_string StringPrintf h) msg = Some msg'.
Proof.
  intros Hlen. revert i msg. induction n as [|n IH]; intros i msg Hi Hn.
  - now exists msg.
  - cbn [for_loop]. unfold print_bin at 1.
    destruct (at_index_some (boundaries_ T h) i) as [lower ->]; [lia|].
    destruct (at_index_some (boundaries_ T h) (i + 1)) as [upper ->]; [lia|].
    destruct (at_index_some (histogram_count_ T h) i) as [count ->]; [lia|].
    cbn [bind]. apply IH; lia.
Qed.

(** The loop reads the counters of the indices it goes through and no
    other. *)
Lemma for_loop_print_ext h h' n i msg :
  boundaries_ T h' = boundaries_ T h ->
  (forall j, (i <= j < i + Z.of_nat n)%Z ->
             at_index (histogram_count_ T h') j = at_index (histogram_count_ T h) j) ->
  for_loop n i (print_bin T to_string StringPrintf h') msg
  = for_loop n i (print_bin T to_string StringPrintf h) msg.
Proof.
  intros Hb. revert i msg. induction n as [|n IH]; intros i msg Hc; [reflexivity|].
  cbn [for_loop]. unfold print_bin at 1 3. rewrite Hb, (Hc i) by lia.
  destruct (at_index (boundaries_ T h) i) as [lower|]; [|reflexivity].
  destruct (at_index (boundaries_ T h) (i + 1)) as [upper|]; [|reflexivity].
  destruct (at_index (histogram_count_ T h) i) as [count|]; [|reflexivity].
  cbn [bind]. apply IH. intros j Hj. apply Hc. lia.
Qed.

Lemma hd_error_set_nth {A : Type} (l : list A) n a :
  n <> 0%nat -> hd_error (set_nth l n a) = hd_error l.
Proof. intros Hn. destruct l, n; cbn; congruence. Qed.

(** [PrintString] never reads the last counter. *)
Lemma PrintString_last h c :
  well_formed T minus_infinity max h ->
  (Z.of_nat (length (boundaries_ T h)) < 2147483648)%Z ->
  PrintString T to_string StringPrintf
    (mk T (boundaries_ T h)
        (set_nth (histogram_count_ T h) (length (boundaries_ T h) - 1) c))
  = PrintString T to_string StringPrintf h.
Proof.
  intros Hwf Hsize. pose proof (well_formed_size h Hwf) as H2.
  unfold PrintString. cbn [boundaries_ histogram_count_].
  rewrite hd_error_set_nth by lia.
  destruct (hd_error (histogram_count_ T h)) as [front|]; [|reflexivity]. cbn [bind].
  destruct (if (0 <? front)%Z then _ else _) as [msg|]; [|reflexivity]. cbn [bind].
  destruct (Nat.ltb_spec (length (boundaries_ T h)) 2) as [Hlt | _]; [reflexivity|].
  rewrite (for_loop_print_ext h (mk T (boundaries_ T h) _)); [|reflexivity|].
  2:{ intros j Hj. cbn [histogram_count_]. apply at_index_set_nth_other. lia. }
  destruct (for_loop _ _ _ msg) as [msg'|]; [|reflexivity]. cbn [bind].
  rewrite to_int_small by lia.
  rewrite at_index_set_nth_other by lia. reflexivity.
Qed.

End Counting.


(** X9. With boundaries in order and none of them [nan], [Add] picks the
    bin the value belongs to: the boundary of the bin is not above the value
    and the next boundary, when there is one, is. *)
Theorem Add_double_bin h value :
  well_formed float neg_infinity DBL_MAX h ->
  (Z.of_nat (length (boundaries_ float h)) < 2147483648)%Z ->
  (forall c, In c (histogram_count_ float h) -> (c < INT_MAX)%Z) ->
  sorted float PrimFloat.ltb (boundaries_ float h) ->
  Forall (fun x => is_nan x = false) (boundaries_ float h) ->
  exists i c lower,
    Add_double h value
    = Some (mk float (boundaries_ float h)
               (set_nth (histogram_count_ float h) i (c + 1)%Z)) /\
    nth_error (histogram_count_ float h) i = Some c /\
    nth_error (boundaries_ float h) i = Some lower /\
    (value <? lower) = false /\
    (forall upper, nth_error (boundaries_ float h) (S i) = Some upper ->
                   (value <? upper) = true).
Proof.
  intros Hwf Hsize Hcount Hsorted Hnan.
  destruct (upper_bound_positive float PrimFloat.ltb neg_infinity DBL_MAX h value
              (FloatOrder.ltb_neg_infinity value) Hwf) as (it & Hit & Hrange).
  destruct (Add_at float PrimFloat.ltb neg_infinity DBL_MAX h value it
              Hwf Hsize Hcount Hit Hrange) as (c & Hc & Hadd).
  destruct (HistogramFacts.upper_bound_loop_sorted float PrimFloat.ltb
              (fun x => is_nan x = false) FloatOrder.ltb_above
              (length (boundaries_ float h)) (boundaries_ float h) 0
              (length (boundaries_ float h)) value Hsorted Hnan)
    as (r & Hr & Hbelow & Habove); [lia | lia | intros; lia | |].
  { intros j x Hj Hx. assert (nth_error (boundaries_ float h) j <> None) by congruence.
    apply nth_error_Some in H. cbn in Hj. lia. }
  unfold upper_bound in Hit. rewrite Hit in Hr. injection Hr as <-.
  destruct (nth_error (boundaries_ float h) (it - 1)) as [lower|] eqn:Hlower.
  2:{ apply nth_error_None in Hlower. lia. }
  exists (it - 1)%nat, c, lower.
  split; [exact Hadd|]. split; [exact Hc|]. split; [exact Hlower|]. split.
  - apply (Hbelow (it - 1)%nat); [lia | exact Hlower].
  - intros upper Hupper. apply (Habove (S (it - 1))); [lia | exact Hupper].
Qed.

(** X10. A [nan] and [+infinity] are below no boundary: [Add] counts them
    in the last bin, whatever the boundaries. *)
Theorem Add_double_last_bin h value :
  well_formed float neg_infinity DBL_MAX h ->
  (Z.of_nat (length (boundaries_ float h)) < 2147483648)%Z ->
  (forall c, In c (histogram_count_ float h) -> (c < INT_MAX)%Z) ->
  value = nan \/ value = infinity ->
  exists c,
    nth_error (histogram_count_ float h) (length (boundaries_ float h) - 1) = Some c /\
    Add_double h value
    = Some (mk float (boundaries_ float h)
               (set_nth (histogram_count_ float h)
                        (length (boundaries_ float h) - 1) (c + 1)%Z)).
Proof.
  intros Hwf Hsize Hcount Hv.
  apply (Add_last float PrimFloat.ltb neg_infinity DBL_MAX h value Hwf Hsize Hcount).
  intros x. destruct Hv as [-> | ->].
  - apply FloatOrder.ltb_nan_l.
  - apply FloatOrder.ltb_infinity_l.
Qed.

(** X11. [PrintString] returns a message for every histogram the
    constructor and [Add] build: it reads no counter and no boundary out of
    range, whatever [std::to_string] and [StringPrintf] print. *)
Theorem PrintString_returns (T : Type) (minus_infinity max : T) to_string StringPrintf h :
  well_formed T minus_infinity max h ->
  (Z.of_nat (length (boundaries_ T h)) < 2147483648)%Z ->
  exists msg, PrintString T to_string StringPrintf h = Some msg.
Proof.
  intros Hwf Hsize. pose proof (well_formed_size T minus_infinity max h Hwf) as H2.
  destruct Hwf as [_ Hlen]. unfold PrintString.
  destruct (histogram_count_ T h) as [|front counts] eqn:Hcounts; [cbn in Hlen; lia|].
  cbn [hd_error bind]. rewrite <- Hcounts in Hlen |- *.
  destruct (at_index_some (boundaries_ T h) 1) as [b1 Hb1]; [lia|]. rewrite Hb1. cbn [bind].
  match goal with
  | |- context [if ?c then Some ?x else Some ?y] =>
    replace (if c then Some x else Some y) with (Some (if c then x else y))
      by now destruct c
  end.
  set (msg := if (0 <? front)%Z then _ else _). clearbody msg.
  cbn [bind].
  destruct (Nat.ltb_spec (length (boundaries_ T h)) 2) as [Hlt | _]; [lia|].
  destruct (for_loop_print_some T to_string StringPrintf h
              (length (boundaries_ T h) - 3) 1 msg) as [msg' ->]; [exact Hlen | lia | lia |].
  cbn [bind]. rewrite to_int_small by lia.
  destruct (at_index_some (histogram_count_ T h) (Z.of_nat (length (boundaries_ T h)) - 2))
    as [count ->]; [lia|].
  cbn [bind]. destruct (0 <? count)%Z; [|now eexists].
  destruct (at_index_some (boundaries_ T h) (Z.of_nat (length (boundaries_ T h)) - 2))
    as [b ->]; [lia|].
  now eexists.
Qed.

(** X12. A [nan] or a [+infinity] added to the histogram never shows in
    the report: [Add] counts it in the last bin, which [PrintString] does
    not print, so the message after [Add] is the message before. *)
Theorem PrintString_after_Add_nan to_string StringPrintf h value :
  well_formed float neg_infinity DBL_MAX h ->
  (Z.of_nat (length (boundaries_ float h)) < 2147483648)%Z ->
  (forall c, In c (histogram_count_ float h) -> (c < INT_MAX)%Z) ->
  value = nan \/ value = infinity ->
  exists h',
    Add_double h value = Some h' /\
    total float h' = (total float h + 1)%Z /\
    PrintString float to_string StringPrintf h'
    = PrintString float to_string StringPrintf h.
Proof.
  intros Hwf Hsize Hcount Hv.
  destruct (Add_last float PrimFloat.ltb neg_infinity DBL_MAX h value Hwf Hsize Hcount)
    as (c & Hc & Hadd).
  { intros x. destruct Hv as [-> | ->].
    - apply FloatOrder.ltb_nan_l.
    - apply FloatOrder.ltb_infinity_l. }
  eexists. split; [exact Hadd|]. split.
  - unfold total. cbn [histogram_count_]. now apply fold_set_nth.
  - now apply (PrintString_last float neg_infinity DBL_MAX).
Qed.

(** X13. [Histogram<int>] has 0 for its first boundary: a value below 0 and
    below the boundaries given falls before the first bin, and [Add] reaches
    for the counter of index -1. *)
Theorem Add_int_below_zero h boundaries value :
  boundaries_ Z h = 0%Z :: boundaries ++ [INT_MAX] ->
  (value < 0)%Z ->
  (forall x, In x boundaries -> (value < x)%Z) ->
  upper_bound Z Z.ltb (boundaries_ Z h) value = Some 0%nat /\
  Add_int h value = None.
Proof.
  intros Hb Hneg Hall.
  assert (Hit : upper_bound Z Z.ltb (boundaries_ Z h) value = Some 0%nat).
  { unfold upper_bound.
    apply HistogramFacts.upper_bound_loop_all_above; [lia | lia |].
    intros x Hx. apply Z.ltb_lt. rewrite Hb in Hx.
    destruct Hx as [<- | [Hx | [<- | []]]%in_app_or]; [lia | auto | unfold INT_MAX; lia]. }
  split; [exact Hit|].
  unfold Add_int, Add. rewrite Hit. reflexivity.
Qed.


End HistogramCounts.

(** ** The histogram at work *)

Module HistogramRuns.
Import Histogram.
Import String.StringSyntax.
Local Open Scope string_scope.

Lemma sample_sorted :
  sorted float PrimFloat.ltb (boundaries_ float (make_double [0; 1]%float)).
Proof.
  intros i j x y Hij Hi Hj.
  destruct i as [|[|[|[|i]]]]; cbn in Hi; try (destruct i; discriminate);
    injection Hi as <-;
    destruct j as [|[|[|[|j]]]]; cbn in Hj; try (destruct j; discriminate);
    injection Hj as <-; try lia; reflexivity.
Qed.

Lemma sample_counters c :
  In c (histogram_count_ float (make_double [0; 1]%float)) -> (c < INT_MAX)%Z.
Proof. cbn. unfold INT_MAX. intros [<- | [<- | [<- | [<- | []]]]]; lia. Qed.

(** A value, a [nan] and a negative number into a histogram with the
    boundaries 0 and 1. *)
Example Add_double_run :
  (h <- Add_double (make_double [0; 1]%float) 0x1p-1 ;;
   h <- Add_double h nan ;;
   h <- Add_double h (-3)%float ;;
   Some (histogram_count_ float h))
  = Some [1; 1; 0; 1]%Z.
Proof. reflexivity. Qed.


Lemma Add_double_bin_witness :
  exists i c lower,
    Add_double (make_double [0; 1]%float) 0x1p-1
    = Some (mk float (boundaries_ float (make_double [0; 1]%float))
               (set_nth (histogram_count_ float (make_double [0; 1]%float)) i (c + 1)%Z)) /\
    nth_error (histogram_count_ float (make_double [0; 1]%float)) i = Some c /\
    nth_error (boundaries_ float (make_double [0; 1]%float)) i = Some lower /\
    (0x1p-1 <? lower) = false /\
    (forall upper, nth_error (boundaries_ float (make_double [0; 1]%float)) (S i) = Some upper ->
                   (0x1p-1 <? upper) = true).
Proof.
  apply (HistogramCounts.Add_double_bin (make_double [0; 1]%float) 0x1p-1).
  - apply HistogramCounts.make_well_formed.
  - cbn. lia.
  - exact sample_counters.
  - exact sample_sorted.
  - repeat constructor.
Defined.

Lemma Add_double_last_bin_witness :
  exists c,
    nth_error (histogram_count_ float (make_double [0; 1]%float))
              (length (boundaries_ float (make_double [0; 1]%float)) - 1) = Some c /\
    Add_double (make_double [0; 1]%float) nan
    = Some (mk float (boundaries_ float (make_double [0; 1]%float))
               (set_nth (histogram_count_ float (make_double [0; 1]%float))
                        (length (boundaries_ float (make_double [0; 1]%float)) - 1) (c + 1)%Z)).
Proof.
  apply (HistogramCounts.Add_double_last_bin (make_double [0; 1]%float) nan).
  - apply HistogramCounts.make_well_formed.
  - cbn. lia.
  - exact sample_counters.
  - left. reflexivity.
Defined.

Lemma PrintString_returns_witness :
  exists msg,
    PrintString float (fun _ => "x") (fun format _ => format) (make_double [0; 1]%float)
    = Some msg.
Proof.
  apply (HistogramCounts.PrintString_returns float neg_infinity DBL_MAX).
  - apply HistogramCounts.make_well_formed.
  - cbn. lia.
Defined.

Lemma PrintString_after_Add_nan_witness :
  exists h',
    Add_double (make_double [0; 1]%float) nan = Some h' /\
    total float h' = (total float (make_double [0; 1]%float) + 1)%Z /\
    PrintString float (fun _ => "x") (fun format _ => format) h'
    = PrintString float (fun _ => "x") (fun format _ => format) (make_double [0; 1]%float).
Proof.
  apply (HistogramCounts.PrintString_after_Add_nan _ _ (make_double [0; 1]%float) nan).
  - apply HistogramCounts.make_well_formed.
  - cbn. lia.
  - exact sample_counters.
  - left. reflexivity.
Defined.

Lemma Add_int_below_zero_witness :
  upper_bound Z Z.ltb (boundaries_ Z (make_int [5; 10]%Z)) (-3)%Z = Some 0%nat /\
  Add_int (make_int [5; 10]%Z) (-3)%Z = None.
Proof.
  apply (HistogramCounts.Add_int_below_zero (make_int [5; 10]%Z) [5; 10]%Z (-3)%Z).
  - reflexivity.
  - lia.
  - cbn. intros x [<- | [<- | []]]; lia.
Defined.


End HistogramRuns.

(** ** ConnectedComponents *)

Module ComponentFacts.
Import ConnectedComponents.

Section Forest.
Variable T : Type.
Variable eqb : T -> T -> bool.
Hypothesis eqb_eq : forall a b, eqb a b = true <-> a = b.

#[local] Abbreviation FindOrNull := (FindOrNull T eqb).
#[local] Abbreviation assign := (assign T eqb).
#[local] Abbreviation rooted := (rooted T eqb).
#[local] Abbreviation root_of := (root_of T eqb).
#[local] Abbreviation component := (component T eqb).
#[local] Abbreviation forest := (forest T eqb).
#[local] Abbreviation keys := (map (@fst T (Root T))).

Lemma eqb_refl a : eqb a a = true.
Proof. now apply eqb_eq. Qed.

Lemma eqb_neq a b : a <> b -> eqb a b = false.
Proof.
  intros Hab. destruct (eqb a b) eqn:E; [|reflexivity].
  apply eqb_eq in E. contradiction.
Qed.

Lemma eq_dec (a b : T) : a = b \/ a <> b.
Proof.
  destruct (eqb a b) eqn:E.
  - left. now apply eqb_eq.
  - right. intros ->. rewrite eqb_refl in E. discriminate.
Qed.

(** *** The map *)

Lemma FindOrNull_key m k v : FindOrNull m k = Some v -> In k (keys m).
Proof.
  induction m as [|[k' v'] m IH]; cbn; [discriminate|].
  destruct (eqb k' k) eqn:E.
  - apply eqb_eq in E. now left.
  - intros H. right. now apply IH.
Qed.

Lemma key_FindOrNull m k : In k (keys m) -> exists v, FindOrNull m k = Some v.
Proof.
  induction m as [|[k' v'] m IH]; cbn; [intros []|].
  intros Hk. destruct (eqb k' k) eqn:E; [now eexists|].
  destruct Hk as [-> | Hk]; [rewrite eqb_refl in E; discriminate | now apply IH].
Qed.

Lemma FindOrNull_none m k : ~ In k (keys m) -> FindOrNull m k = None.
Proof.
  intros Hk. destruct (FindOrNull m k) eqn:E; [|reflexivity].
  apply FindOrNull_key in E. contradiction.
Qed.

Lemma key_dec m k : In k (keys m) \/ ~ In k (keys m).
Proof.
  destruct (FindOrNull m k) as [v|] eqn:E.
  - left. eapply FindOrNull_key, E.
  - right. intros Hk. apply key_FindOrNull in Hk. destruct Hk as [v Hv]. congruence.
Qed.

Lemma keys_assign m p r : keys (assign m p r) = keys m.
Proof.
  induction m as [|[k v] m IH]; cbn; [reflexivity|].
  destruct (eqb k p); cbn; [reflexivity | now rewrite IH].
Qed.

Lemma length_assign m p r : length (assign m p r) = length m.
Proof. rewrite <- (length_map fst), keys_assign. apply length_map. Qed.

Lemma FindOrNull_assign_same m p r v :
  FindOrNull m p = Some v -> FindOrNull (assign m p r) p = Some r.
Proof.
  induction m as [|[k v'] m IH]; cbn; [discriminate|].
  destruct (eqb k p) eqn:E; cbn; rewrite E; [reflexivity | exact IH].
Qed.

Lemma FindOrNull_assign_other m p r k :
  k <> p -> FindOrNull (assign m p r) k = FindOrNull m k.
Proof.
  intros Hk. induction m as [|[k' v'] m IH]; cbn; [reflexivity|].
  destruct (eqb k' p) eqn:E; cbn.
  - apply eqb_eq in E. now rewrite (eqb_neq k' k) by congruence.
  - destruct (eqb k' k); [reflexivity | exact IH].
Qed.

(** *** Roots *)

Lemma rooted_fun m n r d r' d' :
  rooted m n r d -> rooted m n r' d' -> r = r' /\ d = d'.
Proof.
  intros H. revert r' d'. induction H as [n p Hp Hid | n p r d Hp Hid H IH];
    intros r' d' H'; inversion H' as [n' p' Hp' Hid' | n' p' r'' d'' Hp' Hid' H'']; subst.
  - now split.
  - rewrite Hp in Hp'. injection Hp' as <-. contradiction.
  - rewrite Hp in Hp'. injection Hp' as <-. contradiction.
  - rewrite Hp in Hp'. injection Hp' as <-.
    destruct (IH _ _ H'') as [-> ->]. now split.
Qed.

Lemma root_of_fun m n r r' : root_of m n r -> root_of m n r' -> r = r'.
Proof. intros [d H] [d' H']. now destruct (rooted_fun _ _ _ _ _ _ H H'). Qed.

Lemma rooted_key m n r d : rooted m n r d -> In n (keys m).
Proof. intros H. destruct H; eapply FindOrNull_key; eassumption. Qed.

Lemma rooted_root m n r d : rooted m n r d -> rooted m r r 0.
Proof. intros H. induction H; [econstructor; eassumption | assumption]. Qed.

Lemma root_root m r :
  rooted m r r 0 <-> exists v, FindOrNull m r = Some v /\ id T v = r.
Proof.
  split.
  - intros H. inversion H; subst. eauto.
  - intros (v & Hv & Hid). econstructor; eassumption.
Qed.

Lemma rooted_zero m n r : rooted m n r 0 -> n = r.
Proof. intros H. now inversion H. Qed.

(** A root is its own root, and only that. *)
Lemma root_of_root m r x : rooted m r r 0 -> root_of m r x -> x = r.
Proof. intros H Hx. symmetry. eapply root_of_fun; [|exact Hx]. now exists 0%nat. Qed.

(** The nodes on the way to the root are all different: the way is no
    longer than the map. *)
Lemma rooted_path m n r d :
  rooted m n r d ->
  exists l, length l = S d /\ NoDup l /\
            forall x, In x l -> In x (keys m) /\ exists d', (d' <= d)%nat /\ rooted m x r d'.
Proof.
  intros H. induction H as [n p Hp Hid | n p r d Hp Hid H (l & Hlen & Hnd & Hl)].
  - exists [n]. split; [reflexivity|]. split; [repeat constructor; intros []|].
    intros x [<- | []]. split; [eapply FindOrNull_key; eassumption|].
    exists 0%nat. split; [lia|]. econstructor; eassumption.
  - exists (n :: l). split; [cbn; now rewrite Hlen|]. split.
    + constructor; [|exact Hnd]. intros Hn.
      destruct (Hl n Hn) as (_ & d' & Hd' & Hr).
      assert (Hr' : rooted m n r (S d)) by (econstructor; eassumption).
      destruct (rooted_fun _ _ _ _ _ _ Hr Hr') as [_ ->]. lia.
    + intros x [<- | Hx].
      * split; [eapply FindOrNull_key; eassumption|].
        exists (S d). split; [lia|]. econstructor; eassumption.
      * destruct (Hl x Hx) as (Hk & d' & Hd' & Hr). split; [exact Hk|].
        exists d'. split; [lia | exact Hr].
Qed.

Lemma rooted_bound m n r d : rooted m n r d -> (d < length m)%nat.
Proof.
  intros H. destruct (rooted_path _ _ _ _ H) as (l & Hlen & Hnd & Hl).
  assert (Hincl : incl l (keys m)) by (intros x Hx; now apply Hl).
  pose proof (NoDup_incl_length Hnd Hincl) as Hle.
  rewrite length_map in Hle. lia.
Qed.

(** Two maps with the same parents have the same roots. *)
Lemma rooted_parents m m' n r d :
  (forall k, option_map (id T) (FindOrNull m' k) = option_map (id T) (FindOrNull m k)) ->
  rooted m n r d -> rooted m' n r d.
Proof.
  intros Hsame H. induction H as [n p Hp Hid | n p r d Hp Hid H IH].
  - specialize (Hsame n). rewrite Hp in Hsame.
    destruct (FindOrNull m' n) as [p'|] eqn:Hp'; [|discriminate].
    injection Hsame as Hsame. econstructor; [exact Hp' | congruence].
  - specialize (Hsame n). rewrite Hp in Hsame.
    destruct (FindOrNull m' n) as [p'|] eqn:Hp'; [|discriminate].
    injection Hsame as Hsame. econstructor; [exact Hp' | congruence |].
    now rewrite Hsame.
Qed.

(** *** Writing through a pointer *)

(** A node hung directly under its root: no node changes its root. *)
Lemma compress_root_of m n0 r0 v :
  root_of m n0 r0 -> n0 <> r0 -> FindOrNull m r0 = Some v -> id T v = r0 ->
  forall x rx, root_of m x rx -> root_of (assign m n0 v) x rx.
Proof.
  intros Hn0 Hne Hv Hid x rx [d H].
  assert (Hr0 : rooted (assign m n0 v) r0 r0 0).
  { apply root_root. exists v. split; [|exact Hid].
    rewrite FindOrNull_assign_other by congruence. exact Hv. }
  induction H as [n p Hp Hidp | n p r d Hp Hidp H IH].
  - destruct (eq_dec n n0) as [-> | Hn].
    + exfalso. apply Hne. symmetry. eapply root_of_root; [|exact Hn0].
      econstructor; eassumption.
    + exists 0%nat. econstructor; [|exact Hidp].
      rewrite FindOrNull_assign_other by exact Hn. exact Hp.
  - destruct (eq_dec n n0) as [-> | Hn].
    + assert (r = r0) as ->.
      { eapply root_of_fun; [|exact Hn0]. exists (S d). econstructor; eassumption. }
      exists 1%nat. econstructor.
      * eapply FindOrNull_assign_same. exact Hp.
      * congruence.
      * rewrite Hid. exact Hr0.
    + destruct IH as [d' IH]. exists (S d'). econstructor; [|exact Hidp|exact IH].
      rewrite FindOrNull_assign_other by exact Hn. exact Hp.
Qed.

(** A root hung under another root: its nodes move to the other root, the
    others stay. *)
Lemma link_root_of m r1 r2 v :
  rooted m r1 r1 0 -> rooted m r2 r2 0 -> r1 <> r2 -> id T v = r2 ->
  forall x rx, root_of m x rx ->
               root_of (assign m r1 v) x (if eqb rx r1 then r2 else rx).
Proof.
  intros H1 H2 Hne Hid x rx [d H].
  apply root_root in H1. destruct H1 as (v1 & Hv1 & Hid1).
  assert (Hr2 : rooted (assign m r1 v) r2 r2 0).
  { apply root_root in H2. destruct H2 as (v2 & Hv2 & Hid2).
    apply root_root. exists v2. split; [|exact Hid2].
    rewrite FindOrNull_assign_other by congruence. exact Hv2. }
  induction H as [n p Hp Hidp | n p r d Hp Hidp H IH].
  - destruct (eq_dec n r1) as [-> | Hn].
    + rewrite eqb_refl. exists 1%nat. econstructor.
      * eapply FindOrNull_assign_same. exact Hp.
      * congruence.
      * rewrite Hid. exact Hr2.
    + rewrite eqb_neq by exact Hn. exists 0%nat. econstructor; [|exact Hidp].
      rewrite FindOrNull_assign_other by exact Hn. exact Hp.
  - assert (Hn : n <> r1) by (intros ->; congruence).
    destruct IH as [d' IH]. exists (S d'). econstructor; [|exact Hidp|exact IH].
    rewrite FindOrNull_assign_other by exact Hn. exact Hp.
Qed.

(** A new size for an entry changes no root. *)
Lemma resize_rooted m r v s x rx d :
  FindOrNull m r = Some v ->
  rooted m x rx d <-> rooted (assign m r (mkRoot T (id T v) s)) x rx d.
Proof.
  intros Hv.
  assert (Hsame : forall k,
    option_map (id T) (FindOrNull (assign m r (mkRoot T (id T v) s)) k)
    = option_map (id T) (FindOrNull m k)).
  { intros k. destruct (eq_dec k r) as [-> | Hk].
    - rewrite (FindOrNull_assign_same _ _ _ _ Hv), Hv. reflexivity.
    - now rewrite FindOrNull_assign_other. }
  split; apply rooted_parents; [exact Hsame | intros k; symmetry; apply Hsame].
Qed.

(** A new node, its own root. *)
Lemma insert_rooted m n x rx d :
  ~ In n (keys m) -> rooted m x rx d -> rooted ((n, mkRoot T n 1) :: m) x rx d.
Proof.
  intros Hn H. induction H as [k p Hp Hidp | k p r d Hp Hidp H IH].
  - econstructor; [|exact Hidp]. cbn.
    rewrite eqb_neq; [exact Hp|]. intros ->. apply Hn. eapply FindOrNull_key, Hp.
  - econstructor; [|exact Hidp|exact IH]. cbn.
    rewrite eqb_neq; [exact Hp|]. intros ->. apply Hn. eapply FindOrNull_key, Hp.
Qed.

Lemma insert_rooted_new m n : rooted ((n, mkRoot T n 1) :: m) n n 0.
Proof. econstructor; [cbn; rewrite eqb_refl; reflexivity | reflexivity]. Qed.

(** *** Components *)

(** From where the roots go to where they come from. *)
Lemma root_of_back m m' (f : T -> T) x r' :
  (forall n, In n (keys m) -> exists r, root_of m n r) ->
  (forall x rx, root_of m x rx -> root_of m' x (f rx)) ->
  In x (keys m) -> root_of m' x r' -> exists rx, root_of m x rx /\ r' = f rx.
Proof.
  intros Hall Hfwd Hx Hr'. destruct (Hall x Hx) as [rx Hrx].
  exists rx. split; [exact Hrx|].
  eapply root_of_fun; [exact Hr' | now apply Hfwd].
Qed.

Lemma component_length m r l l' : component m r l -> component m r l' -> length l = length l'.
Proof.
  intros [Hnd Hl] [Hnd' Hl'].
  apply Nat.le_antisymm; apply NoDup_incl_length; trivial;
    intros x Hx; [apply Hl', Hl | apply Hl, Hl']; exact Hx.
Qed.

Lemma component_keys m r l : component m r l -> incl l (keys m).
Proof.
  intros [_ Hl] x Hx. apply Hl in Hx. destruct Hx as [d Hx]. eapply rooted_key, Hx.
Qed.

(** Two components fit in the map together. *)
Lemma components_disjoint m r1 r2 l1 l2 :
  r1 <> r2 -> component m r1 l1 -> component m r2 l2 ->
  NoDup (l1 ++ l2) /\ (length l1 + length l2 <= length m)%nat.
Proof.
  intros Hne H1 H2.
  assert (Hnd : NoDup (l1 ++ l2)).
  { destruct H1 as [Hnd1 Hl1], H2 as [Hnd2 Hl2].
    apply NoDup_app; trivial. intros x Hx1 Hx2. apply Hne.
    eapply root_of_fun; [apply Hl1, Hx1 | apply Hl2, Hx2]. }
  split; [exact Hnd|].
  rewrite <- length_app, <- (length_map fst m).
  apply NoDup_incl_length; [exact Hnd|].
  intros x [Hx | Hx]%in_app_or; [eapply component_keys, Hx | eapply component_keys, Hx];
    eassumption.
Qed.

(** A map with the same keys, the same roots for its nodes and the same
    entries for its roots is a forest too. *)
Lemma forest_same m m' :
  forest m -> keys m' = keys m ->
  (forall x rx, root_of m x rx -> root_of m' x rx) ->
  (forall r v, FindOrNull m' r = Some v -> id T v = r -> FindOrNull m r = Some v) ->
  forest m' /\ forall x rx, root_of m' x rx <-> root_of m x rx.
Proof.
  intros (Hnd & Hall & Hsize) Hkeys Hfwd Hroots.
  assert (Hiff : forall x rx, root_of m' x rx <-> root_of m x rx).
  { intros x rx. split; [|apply Hfwd]. intros H.
    destruct (root_of_back m m' (fun r => r) x rx Hall Hfwd) as (r & Hr & ->); trivial.
    rewrite <- Hkeys. destruct H as [d H]. eapply rooted_key, H. }
  split; [|exact Hiff]. split; [now rewrite Hkeys|]. split.
  - intros n Hn. rewrite Hkeys in Hn. destruct (Hall n Hn) as [r Hr]. exists r. now apply Hfwd.
  - intros r v Hv Hid. destruct (Hsize r v (Hroots r v Hv Hid) Hid) as (l & [Hndl Hl] & Hlen).
    exists l. split; [|exact Hlen]. split; [exact Hndl|].
    intros x. rewrite Hl. symmetry. apply Hiff.
Qed.

(** *** [FindRoot] *)

#[local] Abbreviation FindRoot_rec := (FindRoot_rec T eqb).
#[local] Abbreviation flat := (flat T eqb).
#[local] Abbreviation FindRoot := (FindRoot T eqb).
#[local] Abbreviation FindOrInsert := (FindOrInsert T eqb).

Lemma FindRoot_rec_spec m n r d :
  rooted m n r d -> forall fuel, (d < fuel)%nat ->
  exists m',
    FindRoot_rec fuel m n = Some (m', r) /\
    keys m' = keys m /\
    (forall x rx, root_of m x rx -> root_of m' x rx) /\
    (forall k v, FindOrNull m' k = Some v -> id T v = k -> FindOrNull m k = Some v) /\
    (forall k v, FindOrNull m k = Some v -> id T v = k -> FindOrNull m' k = Some v) /\
    (forall x, flat m x -> flat m' x) /\
    flat m' n.
Proof.
  intros H. induction H as [n p Hp Hidp | n p r d Hp Hidp H IH]; intros [|fuel] Hfuel; try lia.
  - exists m. cbn [ConnectedComponents.FindRoot_rec]. rewrite Hp. cbn [bind].
    rewrite Hidp, eqb_refl. repeat split; auto. exists p. split; [exact Hp|].
    rewrite Hidp. exists 0%nat. econstructor; eassumption.
  - destruct (IH fuel) as (m1 & Hrun & Hkeys & Hfwd & Hback & Hkeep & Hflat & _); [lia|].
    pose proof (rooted_root _ _ _ _ H) as Hr. apply root_root in Hr.
    destruct Hr as (vr & Hvr & Hidr).
    assert (Hne : n <> r) by (intros ->; congruence).
    assert (Hn1 : exists v1, FindOrNull m1 n = Some v1).
    { apply key_FindOrNull. rewrite Hkeys. eapply FindOrNull_key, Hp. }
    destruct Hn1 as [v1 Hv1].
    exists (assign m1 n vr). cbn [ConnectedComponents.FindRoot_rec]. rewrite Hp. cbn [bind].
    rewrite (eqb_neq n (id T p)) by congruence.
    rewrite Hrun. cbn [bind]. unfold deref. rewrite (Hkeep r vr Hvr Hidr). cbn [bind].
    assert (Hn : root_of m1 n r).
    { apply Hfwd. exists (S d). econstructor; eassumption. }
    pose proof (compress_root_of m1 n r vr Hn Hne (Hkeep r vr Hvr Hidr) Hidr) as Hfwd1.
    split; [reflexivity|]. split; [now rewrite keys_assign|].
    split; [|split; [|split; [|split]]].
    + intros x rx Hx. apply Hfwd1, Hfwd, Hx.
    + intros k v Hv Hidv. destruct (eq_dec k n) as [-> | Hk].
      * rewrite (FindOrNull_assign_same _ _ _ _ Hv1) in Hv. injection Hv as <-. congruence.
      * rewrite FindOrNull_assign_other in Hv by exact Hk. now apply Hback.
    + intros k v Hv Hidv.
      assert (Hk : k <> n) by (intros ->; congruence).
      rewrite FindOrNull_assign_other by exact Hk. now apply Hkeep.
    + intros x Hx. apply Hflat in Hx. destruct Hx as (v & Hv & Hx).
      destruct (eq_dec x n) as [-> | Hxn].
      * exists vr. split; [eapply FindOrNull_assign_same, Hv1|].
        rewrite Hidr. apply Hfwd1, Hn.
      * exists v. split; [|apply Hfwd1, Hx].
        rewrite FindOrNull_assign_other by exact Hxn. exact Hv.
    + exists vr. split; [eapply FindOrNull_assign_same, Hv1|].
      rewrite Hidr. apply Hfwd1, Hn.
Qed.

(** In a forest [FindRoot] returns the root of the node; it keeps the keys,
    the root of every node and the entry of every root, and leaves the node
    under its root. *)
Lemma FindRoot_spec m n :
  forest m -> In n (keys m) ->
  exists m' r,
    FindRoot m n = Some (m', r) /\
    root_of m n r /\
    forest m' /\
    keys m' = keys m /\
    (forall x rx, root_of m' x rx <-> root_of m x rx) /\
    (forall k v, id T v = k -> (FindOrNull m' k = Some v <-> FindOrNull m k = Some v)) /\
    (forall x, flat m x -> flat m' x) /\
    flat m' n.
Proof.
  intros Hf Hn. pose proof Hf as (Hnd & Hall & Hsize).
  destruct (Hall n Hn) as [r [d Hr]].
  destruct (FindRoot_rec_spec m n r d Hr (length m) (rooted_bound _ _ _ _ Hr))
    as (m' & Hrun & Hkeys & Hfwd & Hback & Hkeep & Hflat & Hpoint).
  destruct (forest_same m m' Hf Hkeys Hfwd Hback) as [Hf' Hiff].
  exists m', r. split; [exact Hrun|]. split; [now exists d|]. split; [exact Hf'|].
  split; [exact Hkeys|]. split; [exact Hiff|]. split; [|split; [exact Hflat|exact Hpoint]].
  intros k v Hid. split; intros Hv; [now apply Hback | now apply Hkeep].
Qed.

(** *** [FindOrInsert] *)

Lemma insert_forest m n :
  forest m -> ~ In n (keys m) ->
  forest ((n, mkRoot T n 1) :: m) /\
  forall x rx, root_of ((n, mkRoot T n 1) :: m) x rx
               <-> root_of m x rx \/ (x = n /\ rx = n).
Proof.
  intros (Hnd & Hall & Hsize) Hn.
  set (m' := (n, mkRoot T n 1) :: m).
  assert (Hiff : forall x rx, root_of m' x rx <-> root_of m x rx \/ (x = n /\ rx = n)).
  { intros x rx. split.
    - intros Hx. destruct (eq_dec x n) as [-> | Hne].
      + right. split; [reflexivity|]. eapply root_of_root; [|exact Hx]. apply insert_rooted_new.
      + left. assert (Hk : In x (keys m)).
        { destruct Hx as [d Hx]. apply rooted_key in Hx. destruct Hx as [Hx | Hx]; [|exact Hx].
          cbn in Hx. congruence. }
        destruct (Hall x Hk) as [r [d Hr]].
        assert (rx = r) as ->; [|now exists d].
        eapply root_of_fun; [exact Hx|]. exists d. now apply insert_rooted.
    - intros [[d Hx] | [-> ->]].
      + exists d. now apply insert_rooted.
      + exists 0%nat. apply insert_rooted_new. }
  split; [|exact Hiff]. split; [|split].
  - cbn. now constructor.
  - intros x [<- | Hx].
    + exists n, 0%nat. apply insert_rooted_new.
    + destruct (Hall x Hx) as [r [d Hr]]. exists r, d. now apply insert_rooted.
  - intros r v Hv Hid. cbn in Hv. destruct (eqb n r) eqn:E.
    + apply eqb_eq in E. subst r. injection Hv as <-. exists [n]. split; [|reflexivity].
      split; [repeat constructor; intros []|].
      intros x. rewrite Hiff. split.
      * intros [<- | []]. now right.
      * intros [Hx | [-> _]]; [|now left]. exfalso. apply Hn.
        destruct Hx as [d Hx]. eapply rooted_key, rooted_root, Hx.
    + destruct (Hsize r v Hv Hid) as (l & [Hndl Hl] & Hlen).
      exists l. split; [|exact Hlen]. split; [exact Hndl|].
      intros x. rewrite Hl, Hiff. split; [now left|].
      intros [Hx | [_ ->]]; [exact Hx|]. rewrite eqb_refl in E. discriminate.
Qed.

Lemma FindOrInsert_spec m n :
  forest m ->
  exists m' r,
    FindOrInsert m n = Some (m', r) /\
    forest m' /\
    root_of m' n r /\
    (forall x, In x (keys m') <-> x = n \/ In x (keys m)) /\
    (forall x rx, root_of m' x rx
                  <-> root_of m x rx \/ (~ In n (keys m) /\ x = n /\ rx = n)) /\
    (length m' <= S (length m))%nat.
Proof.
  intros Hf. unfold ConnectedComponents.FindOrInsert.
  destruct (FindOrNull m n) as [v|] eqn:Hv.
  - pose proof (FindOrNull_key _ _ _ Hv) as Hn.
    destruct (FindRoot_spec m n Hf Hn) as (m' & r & Hrun & Hr & Hf' & Hkeys & Hiff & _).
    exists m', r. split; [exact Hrun|]. split; [exact Hf'|]. split; [now apply Hiff|].
    split; [|split].
    + intros x. rewrite Hkeys. split; [now right|]. now intros [-> | Hx].
    + intros x rx. rewrite Hiff. split; [now left|]. now intros [Hx | [Habs _]].
    + rewrite <- (length_map fst m'), Hkeys, length_map. lia.
  - assert (Hn : ~ In n (keys m)).
    { intros Hn. apply key_FindOrNull in Hn. destruct Hn as [v Hv']. congruence. }
    destruct (insert_forest m n Hf Hn) as [Hf' Hiff].
    exists ((n, mkRoot T n 1) :: m), n.
    unfold InsertOrDie. rewrite Hv. cbn [bind ConnectedComponents.FindOrNull].
    rewrite eqb_refl. cbn [bind].
    split; [reflexivity|]. split; [exact Hf'|]. split; [apply Hiff; now right|].
    split; [|split].
    + intros x. cbn. split; intros [-> | Hx]; auto.
    + intros x rx. rewrite Hiff. split; intros [Hx | Hx]; auto; tauto.
    + cbn. lia.
Qed.

(** *** The union of two trees *)

Lemma union_spec m ra rb va vb s :
  forest m ->
  FindOrNull m ra = Some va -> id T va = ra ->
  FindOrNull m rb = Some vb -> id T vb = rb ->
  ra <> rb -> s = (size T va + size T vb)%Z ->
  let m2 := assign (assign m rb (mkRoot T (id T vb) s)) ra (mkRoot T (id T vb) s) in
  forest m2 /\
  keys m2 = keys m /\
  (forall x r', root_of m2 x r'
                <-> exists rx, root_of m x rx /\ r' = if eqb rx ra then rb else rx) /\
  (forall la lb, component m ra la -> component m rb lb ->
                 component m2 rb (la ++ lb) /\ s = Z.of_nat (length (la ++ lb))).
Proof.
  intros Hf Hva Hida Hvb Hidb Hne Hs m2.
  destruct Hf as (Hnd & Hall & Hsize) eqn:E. clear E.
  set (m1 := assign m rb (mkRoot T (id T vb) s)) in *.
  assert (Hkeys : keys m2 = keys m) by (unfold m2, m1; now rewrite !keys_assign).
  assert (H1a : FindOrNull m1 ra = Some va).
  { unfold m1. rewrite FindOrNull_assign_other by exact Hne. exact Hva. }
  assert (H1b : FindOrNull m1 rb = Some (mkRoot T (id T vb) s)).
  { unfold m1. eapply FindOrNull_assign_same, Hvb. }
  assert (Hfwd : forall x rx, root_of m x rx ->
                 root_of m2 x (if eqb rx ra then rb else rx)).
  { intros x rx [d Hx]. apply link_root_of.
    - apply root_root. now exists va.
    - apply root_root. exists (mkRoot T (id T vb) s). now split.
    - exact Hne.
    - exact Hidb.
    - exists d. unfold m1. now apply resize_rooted. }
  assert (Hiff : forall x r', root_of m2 x r'
                 <-> exists rx, root_of m x rx /\ r' = if eqb rx ra then rb else rx).
  { intros x r'. split.
    - intros Hx. apply (root_of_back m m2 (fun rx => if eqb rx ra then rb else rx)); trivial.
      rewrite <- Hkeys. destruct Hx as [d Hx]. eapply rooted_key, Hx.
    - intros (rx & Hx & ->). now apply Hfwd. }
  assert (Hcomp : forall la lb, component m ra la -> component m rb lb ->
                  component m2 rb (la ++ lb) /\ s = Z.of_nat (length (la ++ lb))).
  { intros la lb Ha Hb.
    destruct (components_disjoint m ra rb la lb Hne Ha Hb) as [Hndl _].
    split.
    - split; [exact Hndl|]. destruct Ha as [_ Hla], Hb as [_ Hlb].
      intros x. rewrite in_app_iff, Hla, Hlb, Hiff. split.
      + intros [Hx | Hx].
        * exists ra. split; [exact Hx|]. now rewrite eqb_refl.
        * exists rb. split; [exact Hx|]. rewrite eqb_neq; congruence.
      + intros (rx & Hx & Hrx). destruct (eqb rx ra) eqn:E.
        * apply eqb_eq in E. subst rx. now left.
        * subst rx. now right.
    - destruct (Hsize ra va Hva Hida) as (la' & Ha' & Hlena).
      destruct (Hsize rb vb Hvb Hidb) as (lb' & Hb' & Hlenb).
      rewrite length_app, Hs, Hlena, Hlenb.
      rewrite (component_length _ _ _ _ Ha Ha'), (component_length _ _ _ _ Hb Hb'). lia. }
  split; [|split; [exact Hkeys|split; [exact Hiff|exact Hcomp]]].
  split; [now rewrite Hkeys|]. split.
  - intros n Hn. rewrite Hkeys in Hn. destruct (Hall n Hn) as [r Hr].
    eexists. apply Hfwd, Hr.
  - intros r v Hv Hid.
    destruct (eq_dec r ra) as [-> | Hra].
    { unfold m2 in Hv. rewrite (FindOrNull_assign_same _ _ _ _ H1a) in Hv.
      injection Hv as <-. cbn in Hid. congruence. }
    unfold m2 in Hv. rewrite FindOrNull_assign_other in Hv by exact Hra.
    destruct (eq_dec r rb) as [-> | Hrb].
    + rewrite H1b in Hv. injection Hv as <-. cbn [size].
      destruct (Hsize ra va Hva Hida) as (la & Ha & _).
      destruct (Hsize rb vb Hvb Hidb) as (lb & Hb & _).
      exists (la ++ lb). now apply Hcomp.
    + unfold m1 in Hv. rewrite FindOrNull_assign_other in Hv by exact Hrb.
      destruct (Hsize r v Hv Hid) as (l & [Hndl Hl] & Hlen).
      exists l. split; [|exact Hlen]. split; [exact Hndl|].
      intros x. rewrite Hl, Hiff. split.
      * intros Hx. exists r. split; [exact Hx|]. now rewrite eqb_neq.
      * intros (rx & Hx & Hrx). destruct (eqb rx ra) eqn:E; congruence.
Qed.

(** The limit on the components, after the union. *)
Lemma union_limit m m2 ra rb la lb B :
  ra <> rb ->
  (forall x r', root_of m2 x r'
                <-> exists rx, root_of m x rx /\ r' = if eqb rx ra then rb else rx) ->
  component m ra la -> component m rb lb -> component m2 rb (la ++ lb) ->
  (forall r l, component m r l -> (Z.of_nat (length l) <= B)%Z) ->
  (Z.of_nat (length (la ++ lb)) <= B)%Z ->
  forall r l, component m2 r l -> (Z.of_nat (length l) <= B)%Z.
Proof.
  intros Hne Hiff Ha Hb Hab Hlim Hfit r l Hl.
  destruct (eq_dec r rb) as [-> | Hrb].
  { now rewrite (component_length _ _ _ _ Hl Hab). }
  destruct (eq_dec r ra) as [-> | Hra].
  - destruct l as [|x l]; [cbn; lia|]. exfalso.
    destruct Hl as [_ Hl]. destruct (proj1 (Hl x) (or_introl eq_refl)) as [d Hx].
    assert (Hx' : root_of m2 x ra) by now exists d.
    apply Hiff in Hx'. destruct Hx' as (rx & _ & Hrx).
    destruct (eqb rx ra) eqn:E; [congruence|].
    subst rx. rewrite eqb_refl in E. discriminate.
  - apply (Hlim r). destruct Hl as [Hnd Hl]. split; [exact Hnd|].
    intros x. rewrite Hl, Hiff. split.
    + intros (rx & Hx & Hrx). destruct (eqb rx ra) eqn:E; congruence.
    + intros Hx. exists r. split; [exact Hx|]. now rewrite eqb_neq.
Qed.

(** The limit on the components, after [FindOrInsert]. *)
Lemma insert_limit m m' n B :
  (forall x rx, root_of m' x rx
                <-> root_of m x rx \/ (~ In n (keys m) /\ x = n /\ rx = n)) ->
  (forall r l, component m r l -> (Z.of_nat (length l) <= B)%Z) ->
  (1 <= B)%Z ->
  forall r l, component m' r l -> (Z.of_nat (length l) <= B)%Z.
Proof.
  intros Hiff Hlim HB r l [Hnd Hl].
  destruct (eq_dec r n) as [-> | Hr].
  - destruct (key_dec m n) as [Hn | Hn].
    + apply (Hlim n). split; [exact Hnd|]. intros x. rewrite Hl, Hiff. tauto.
    + assert (Hall : forall x, In x l -> x = n).
      { intros x Hx. apply Hl, Hiff in Hx. destruct Hx as [[d Hx] | (_ & Hx & _)]; [|exact Hx].
        exfalso. apply Hn. eapply rooted_key, rooted_root, Hx. }
      destruct l as [|x [|y l]]; cbn; try lia. exfalso.
      inversion Hnd as [|? ? Hx _]; subst. apply Hx. left.
      rewrite (Hall x), (Hall y); cbn; auto.
  - apply (Hlim r). split; [exact Hnd|]. intros x. rewrite Hl, Hiff. tauto.
Qed.

(** *** [AddEdge] *)

#[local] Abbreviation AddEdge := (AddEdge T eqb).
#[local] Abbreviation consistent := (consistent T eqb).
#[local] Abbreviation same_component := (same_component T eqb).
#[local] Abbreviation joined := (joined T eqb).

Lemma to_uint64_small z : (0 <= z <= INT_MAX)%Z -> to_uint64 z = z.
Proof. unfold INT_MAX, to_uint64. intros Hz. apply Z.mod_small. lia. Qed.

(** Everything [AddEdge] does to a consistent structure: [m0] is the map
    after the two calls of [FindOrInsert], [r1] and [r2] the roots they
    return, [l1] and [l2] the components of these roots. *)
Lemma AddEdge_spec c node1 node2 :
  consistent c ->
  (Z.of_nat (length (disjoint_set_ T c)) + 2 <= INT_MAX)%Z ->
  let m := disjoint_set_ T c in
  let max := max_connected_component_size_ T c in
  exists m0 r1 r2 l1 l2 m',
    AddEdge c node1 node2 = Some (mk T max m') /\
    consistent (mk T max m') /\
    keys m' = keys m0 /\
    (forall x, In x (keys m0) <-> x = node1 \/ x = node2 \/ In x (keys m)) /\
    (forall x rx, root_of m0 x rx
                  <-> root_of m x rx \/
                      (~ In x (keys m) /\ (x = node1 \/ x = node2) /\ rx = x)) /\
    root_of m0 node1 r1 /\ root_of m0 node2 r2 /\
    component m0 r1 l1 /\ component m0 r2 l2 /\
    (((r1 = r2 \/ (max < Z.of_nat (length l1 + length l2))%Z) /\ m' = m0) \/
     (r1 <> r2 /\ (Z.of_nat (length l1 + length l2) <= max)%Z /\
      exists ra rb, ((ra = r1 /\ rb = r2) \/ (ra = r2 /\ rb = r1)) /\
        forall x r', root_of m' x r'
                     <-> exists rx, root_of m0 x rx /\ r' = if eqb rx ra then rb else rx)).
Proof.
  intros [Hf Hlim] Hlen m max.
  destruct (FindOrInsert_spec m node1 Hf)
    as (ma & r1 & Hrun1 & Hfa & Hr1a & Hkeysa & Hiffa & Hlena).
  destruct (FindOrInsert_spec ma node2 Hfa)
    as (m0 & r2 & Hrun2 & Hf0 & Hr2 & Hkeys0 & Hiff0 & Hlen0).
  assert (Hr1 : root_of m0 node1 r1) by (apply Hiff0; now left).
  assert (HB : (1 <= Z.max 1 max)%Z) by lia.
  assert (Hlim0 : forall r l, component m0 r l -> (Z.of_nat (length l) <= Z.max 1 max)%Z).
  { apply (insert_limit ma m0 node2 _ Hiff0); [|exact HB].
    apply (insert_limit m ma node1 _ Hiffa); [|exact HB]. exact Hlim. }
  assert (Hkeys : forall x, In x (keys m0) <-> x = node1 \/ x = node2 \/ In x (keys m)).
  { intros x. rewrite Hkeys0, Hkeysa. tauto. }
  assert (Hiff : forall x rx, root_of m0 x rx
                 <-> root_of m x rx \/
                     (~ In x (keys m) /\ (x = node1 \/ x = node2) /\ rx = x)).
  { intros x rx. rewrite Hiff0, Hiffa. split.
    - intros [[Hx | (Hn & -> & ->)] | (Hn & -> & ->)]; auto.
      + right. split; [|auto]. intros Hk. apply Hn, Hkeysa. now right.
    - intros [Hx | (Hn & [-> | ->] & ->)]; auto.
      destruct (eq_dec node2 node1) as [E | E].
      + left. right. rewrite E in *. auto.
      + right. split; [|auto]. intros [Hk | Hk]%Hkeysa; auto. }
  pose proof Hr1 as [d1 Hd1].
  pose proof Hr2 as [d2 Hd2].
  pose proof (proj1 (root_root _ _) (rooted_root _ _ _ _ Hd1)) as (v1 & Hv1 & Hid1).
  pose proof (proj1 (root_root _ _) (rooted_root _ _ _ _ Hd2)) as (v2 & Hv2 & Hid2).
  pose proof Hf0 as (Hnd0 & Hall0 & Hsize0).
  destruct (Hsize0 r1 v1 Hv1 Hid1) as (l1 & Hl1 & Hs1).
  destruct (Hsize0 r2 v2 Hv2 Hid2) as (l2 & Hl2 & Hs2).
  exists m0, r1, r2, l1, l2.
  unfold ConnectedComponents.AddEdge. fold m max. rewrite Hrun1. cbn [bind].
  rewrite Hrun2. cbn [bind]. unfold deref. rewrite Hv1, Hv2. cbn [bind].
  rewrite Hid1, Hid2.
  destruct (eq_dec r1 r2) as [Heq | Hne].
  { rewrite (proj2 (eqb_eq r1 r2) Heq). exists m0.
    split; [reflexivity|]. split; [split; assumption|]. split; [reflexivity|].
    split; [exact Hkeys|]. split; [exact Hiff|]. split; [exact Hr1|]. split; [exact Hr2|].
    split; [exact Hl1|]. split; [exact Hl2|]. left. auto. }
  rewrite (eqb_neq r1 r2) by exact Hne.
  destruct (components_disjoint m0 r1 r2 l1 l2 Hne Hl1 Hl2) as [_ Hfit].
  assert (Hsum : (size T v1 + size T v2 = Z.of_nat (length l1 + length l2))%Z) by lia.
  assert (Hrange : (0 <= size T v1 + size T v2 <= INT_MAX)%Z) by (unfold m in Hlena; lia).
  replace ((size T v1 + size T v2 <? INT_MIN)%Z || (INT_MAX <? size T v1 + size T v2)%Z)
    with false.
  2:{ symmetry. apply orb_false_iff. unfold INT_MIN. split; apply Z.ltb_ge; lia. }
  rewrite to_uint64_small by exact Hrange.
  destruct (Z.ltb_spec max (size T v1 + size T v2)) as [Hover | Hunder].
  { exists m0.
    split; [reflexivity|]. split; [split; assumption|]. split; [reflexivity|].
    split; [exact Hkeys|]. split; [exact Hiff|]. split; [exact Hr1|]. split; [exact Hr2|].
    split; [exact Hl1|]. split; [exact Hl2|]. left. split; [right; lia | reflexivity]. }
  destruct (Z.ltb_spec (size T v1) (size T v2)) as [Hsmall | Hlarge].
  - destruct (union_spec m0 r1 r2 v1 v2 _ Hf0 Hv1 Hid1 Hv2 Hid2 Hne eq_refl)
      as (Hf' & Hkeys' & Hiff' & Hcomp').
    destruct (Hcomp' l1 l2 Hl1 Hl2) as [Hc' Hlen'].
    rewrite (FindOrNull_assign_same _ _ _ _ Hv2). cbn [bind]. rewrite Hid2 in *.
    eexists. split; [reflexivity|]. split.
    { split; [exact Hf'|]. cbn [disjoint_set_ max_connected_component_size_].
      apply (union_limit m0 _ r1 r2 l1 l2); auto. rewrite length_app. lia. }
    split; [exact Hkeys'|].
    split; [exact Hkeys|]. split; [exact Hiff|]. split; [exact Hr1|]. split; [exact Hr2|].
    split; [exact Hl1|]. split; [exact Hl2|].
    right. split; [exact Hne|]. split; [lia|]. exists r1, r2. split; [auto|exact Hiff'].
  - assert (Hne' : r2 <> r1) by congruence.
    destruct (union_spec m0 r2 r1 v2 v1 (size T v1 + size T v2)%Z
                Hf0 Hv2 Hid2 Hv1 Hid1 Hne' (Z.add_comm _ _))
      as (Hf' & Hkeys' & Hiff' & Hcomp').
    destruct (Hcomp' l2 l1 Hl2 Hl1) as [Hc' Hlen'].
    rewrite (FindOrNull_assign_same _ _ _ _ Hv1). cbn [bind]. rewrite Hid1 in *.
    eexists. split; [reflexivity|]. split.
    { split; [exact Hf'|]. cbn [disjoint_set_ max_connected_component_size_].
      apply (union_limit m0 _ r2 r1 l2 l1); auto. rewrite length_app. lia. }
    split; [exact Hkeys'|].
    split; [exact Hkeys|]. split; [exact Hiff|]. split; [exact Hr1|]. split; [exact Hr2|].
    split; [exact Hl1|]. split; [exact Hl2|].
    right. split; [exact Hne|]. split; [lia|]. exists r2, r1. split; [auto|exact Hiff'].
Qed.

(** Two nodes of the same component after the two calls of [FindOrInsert]
    were joined before. *)
Lemma inserted_joined m m0 node1 node2 x y :
  (forall x rx, root_of m0 x rx
                <-> root_of m x rx \/
                    (~ In x (keys m) /\ (x = node1 \/ x = node2) /\ rx = x)) ->
  same_component m0 x y -> joined m x y.
Proof.
  intros Hiff (r & Hx & Hy). apply Hiff in Hx, Hy.
  destruct Hx as [Hx | (Hnx & _ & ->)], Hy as [Hy | (Hny & _ & Hr)].
  - right. now exists r.
  - exfalso. subst r. apply Hny. destruct Hx as [d Hx]. eapply rooted_key, rooted_root, Hx.
  - exfalso. apply Hnx. destruct Hy as [d Hy]. eapply rooted_key, rooted_root, Hy.
  - now left.
Qed.

(** X15. [AddEdge] on a consistent structure returns, and the structure is
    consistent again: the parents lead every node to a root, every root
    holds the number of nodes of its component, and no component has more
    nodes than [max_connected_component_size_] (or than one, when the limit
    is zero).  No [CHECK] fails and [FindRoot] comes back.  The nodes are
    the ones there were and the two of the edge. *)
Theorem AddEdge_consistent c node1 node2 :
  consistent c ->
  (Z.of_nat (length (disjoint_set_ T c)) + 2 <= INT_MAX)%Z ->
  exists c',
    AddEdge c node1 node2 = Some c' /\
    consistent c' /\
    max_connected_component_size_ T c' = max_connected_component_size_ T c /\
    forall x, In x (keys (disjoint_set_ T c'))
              <-> x = node1 \/ x = node2 \/ In x (keys (disjoint_set_ T c)).
Proof.
  intros Hc Hlen.
  destruct (AddEdge_spec c node1 node2 Hc Hlen)
    as (m0 & r1 & r2 & l1 & l2 & m' & Hrun & Hc' & Hkeys' & Hkeys & _).
  eexists. split; [exact Hrun|]. split; [exact Hc'|]. split; [reflexivity|].
  cbn [disjoint_set_]. intros x. rewrite Hkeys'. apply Hkeys.
Qed.

(** X16. [AddEdge] separates no two nodes, and it puts the two nodes of
    the edge in one component unless their two components have more nodes
    together than the limit allows; then they are left as two. *)
Theorem AddEdge_joins c node1 node2 c' :
  consistent c ->
  (Z.of_nat (length (disjoint_set_ T c)) + 2 <= INT_MAX)%Z ->
  AddEdge c node1 node2 = Some c' ->
  (forall x y, same_component (disjoint_set_ T c) x y ->
               same_component (disjoint_set_ T c') x y) /\
  (same_component (disjoint_set_ T c') node1 node2 \/
   exists r1 r2 l1 l2,
     r1 <> r2 /\
     component (disjoint_set_ T c') r1 l1 /\ In node1 l1 /\
     component (disjoint_set_ T c') r2 l2 /\ In node2 l2 /\
     (max_connected_component_size_ T c < Z.of_nat (length l1 + length l2))%Z).
Proof.
  intros Hc Hlen Hrun'.
  destruct (AddEdge_spec c node1 node2 Hc Hlen)
    as (m0 & r1 & r2 & l1 & l2 & m' & Hrun & _ & _ & _ & Hiff & Hr1 & Hr2 & Hl1 & Hl2 & Hcase).
  rewrite Hrun in Hrun'. injection Hrun' as <-. cbn [disjoint_set_].
  assert (Hin : forall x y, same_component (disjoint_set_ T c) x y -> same_component m0 x y).
  { intros x y (r & Hx & Hy). exists r. split; apply Hiff; now left. }
  destruct Hcase as [[Hcase ->] | (Hne & Hfit & ra & rb & Hab & Hiff')].
  - split; [exact Hin|].
    destruct (eq_dec r1 r2) as [<- | Hne]; [left; now exists r1|].
    destruct Hcase as [Heq | Hover]; [contradiction|].
    right. exists r1, r2, l1, l2. split; [exact Hne|].
    split; [exact Hl1|]. split; [now apply Hl1|].
    split; [exact Hl2|]. split; [now apply Hl2|]. exact Hover.
  - split.
    + intros x y Hxy. destruct (Hin x y Hxy) as (r & Hx & Hy).
      exists (if eqb r ra then rb else r). split; apply Hiff'; now exists r.
    + left. exists rb. split; apply Hiff'.
      * exists r1. split; [exact Hr1|].
        destruct Hab as [[-> ->] | [-> ->]]; [now rewrite eqb_refl | now rewrite eqb_neq].
      * exists r2. split; [exact Hr2|].
        destruct Hab as [[-> ->] | [-> ->]]; [rewrite eqb_neq; congruence | now rewrite eqb_refl].
Qed.

(** X17. [AddEdge] joins nothing but the two components of the edge: two
    nodes of one component afterwards were joined before, or one was joined
    to one node of the edge and the other to the other. *)
Theorem AddEdge_only_joins c node1 node2 c' :
  consistent c ->
  (Z.of_nat (length (disjoint_set_ T c)) + 2 <= INT_MAX)%Z ->
  AddEdge c node1 node2 = Some c' ->
  forall x y,
    same_component (disjoint_set_ T c') x y ->
    joined (disjoint_set_ T c) x y \/
    (joined (disjoint_set_ T c) x node1 /\ joined (disjoint_set_ T c) y node2) \/
    (joined (disjoint_set_ T c) x node2 /\ joined (disjoint_set_ T c) y node1).
Proof.
  intros Hc Hlen Hrun'.
  destruct (AddEdge_spec c node1 node2 Hc Hlen)
    as (m0 & r1 & r2 & l1 & l2 & m' & Hrun & _ & _ & _ & Hiff & Hr1 & Hr2 & _ & _ & Hcase).
  rewrite Hrun in Hrun'. injection Hrun' as <-. cbn [disjoint_set_].
  pose proof (inserted_joined (disjoint_set_ T c) m0 node1 node2) as Hj.
  intros x y Hxy.
  destruct Hcase as [[_ ->] | (Hne & _ & ra & rb & Hab & Hiff')].
  { left. now apply Hj. }
  destruct Hxy as (r & (rx & Hx & Hrx)%Hiff' & (ry & Hy & Hry)%Hiff').
  destruct (eq_dec rx ry) as [<- | Hxy].
  { left. apply Hj; [exact Hiff|]. now exists rx. }
  assert (Hcases : (rx = r1 /\ ry = r2) \/ (rx = r2 /\ ry = r1)).
  { subst r. destruct (eqb rx ra) eqn:Ex, (eqb ry ra) eqn:Ey.
    - apply eqb_eq in Ex, Ey. congruence.
    - apply eqb_eq in Ex. subst rx ry. destruct Hab as [[-> ->] | [-> ->]]; auto.
    - apply eqb_eq in Ey. subst rx ry. destruct Hab as [[-> ->] | [-> ->]]; auto.
    - contradiction. }
  destruct Hcases as [[-> ->] | [-> ->]].
  - right. left. split; apply Hj; trivial; [now exists r1 | now exists r2].
  - right. right. split; apply Hj; trivial; [now exists r2 | now exists r1].
Qed.

(** *** [Extract] *)

#[local] Abbreviation Extract_loop := (Extract_loop T eqb).
#[local] Abbreviation Extract := (Extract T eqb).
#[local] Abbreviation listed := (listed T).

Lemma set_insert_In s n x : In x (set_insert T eqb s n) <-> In x s \/ x = n.
Proof.
  unfold set_insert. destruct (existsb (eqb n) s) eqn:E.
  - split; [now left|]. intros [Hx | ->]; [exact Hx|].
    apply existsb_exists in E. destruct E as (y & Hy & E). apply eqb_eq in E. now subst y.
  - cbn. split; intros [Hx | Hx]; auto.
Qed.

Lemma insert_at_listed cc k n r x :
  listed (insert_at T eqb cc k n) r x <-> listed cc r x \/ (r = k /\ x = n).
Proof.
  induction cc as [|[k' s] cc IH];
    cbn [ConnectedComponents.listed ConnectedComponents.insert_at].
  - rewrite set_insert_In. cbn. split.
    + intros [[-> [[] | ->]] | []]. now right.
    + intros [[] | [-> ->]]. left. auto.
  - destruct (eqb k' k) eqn:E; cbn [ConnectedComponents.listed].
    + apply eqb_eq in E. subst k'. rewrite set_insert_In. split.
      * intros [[-> [Hx | ->]] | Hx]; auto.
      * intros [[[-> Hx] | Hx] | [-> ->]]; auto.
    + rewrite IH. tauto.
Qed.

Lemma Extract_loop_spec nodes :
  forall m cc, forest m -> incl nodes (keys m) ->
  exists m' cc',
    Extract_loop nodes m cc = Some (m', cc') /\
    forest m' /\
    keys m' = keys m /\
    (forall x r, root_of m' x r <-> root_of m x r) /\
    (forall r x, listed cc' r x <-> listed cc r x \/ (In x nodes /\ root_of m x r)) /\
    (forall x, flat m x \/ In x nodes -> flat m' x).
Proof.
  induction nodes as [|node nodes IH]; intros m cc Hf Hincl.
  - exists m, cc. split; [reflexivity|]. split; [exact Hf|]. split; [reflexivity|].
    split; [reflexivity|]. split; [intros r x; cbn; tauto|]. now intros x [Hx | []].
  - destruct (FindRoot_spec m node Hf (Hincl node (or_introl eq_refl)))
      as (m1 & rn & Hrun & Hrn & Hf1 & Hkeys1 & Hiff1 & Hroots1 & Hflat1 & Hnode1).
    pose proof Hrn as [d Hd].
    pose proof (proj1 (root_root _ _) (rooted_root _ _ _ _ Hd)) as (v & Hv & Hid).
    destruct (IH m1 (insert_at T eqb cc rn node) Hf1) as (m' & cc' & Hrun' & Hf' & Hkeys' & Hiff' & Hcc' & Hflat').
    { rewrite Hkeys1. intros x Hx. apply Hincl. now right. }
    exists m', cc'. cbn [ConnectedComponents.Extract_loop]. rewrite Hrun. cbn [bind].
    unfold deref. rewrite (proj2 (Hroots1 rn v Hid) Hv). cbn [bind]. rewrite Hid.
    split; [exact Hrun'|]. split; [exact Hf'|]. split; [congruence|].
    split; [|split].
    + intros x r. now rewrite Hiff', Hiff1.
    + intros r x. rewrite Hcc', insert_at_listed, Hiff1. cbn [In]. split.
      * intros [[Hx | [-> ->]] | [Hx Hr]]; auto.
      * intros [Hx | [[<- | Hx] Hr]]; auto.
        left. right. split; [|reflexivity]. eapply root_of_fun; eassumption.
    + intros x [Hx | [<- | Hx]]; apply Hflat'; auto.
Qed.


(** *** The constructors *)

Lemma empty_forest : forest [].
Proof.
  split; [constructor|]. split; [intros n []|]. intros r v Hv. discriminate.
Qed.

Lemma empty_consistent max : consistent (mk T max []).
Proof.
  split; [exact empty_forest|]. cbn. intros r l [_ Hl].
  destruct l as [|x l]; [cbn; lia|]. exfalso.
  destruct (proj1 (Hl x) (or_introl eq_refl)) as [d Hx].
  apply rooted_key in Hx. destruct Hx.
Qed.

(** *** Edge after edge *)

Lemma AddEdge_length c node1 node2 c' :
  consistent c ->
  (Z.of_nat (length (disjoint_set_ T c)) + 2 <= INT_MAX)%Z ->
  AddEdge c node1 node2 = Some c' ->
  (length (disjoint_set_ T c') <= 2 + length (disjoint_set_ T c))%nat.
Proof.
  intros Hc Hlen Hrun'.
  destruct (AddEdge_spec c node1 node2 Hc Hlen)
    as (m0 & r1 & r2 & l1 & l2 & m' & Hrun & [[Hnd _] _] & Hkeys' & Hkeys & _).
  rewrite Hrun in Hrun'. injection Hrun' as <-. cbn [disjoint_set_] in *.
  rewrite <- (length_map fst m'), <- (length_map fst (disjoint_set_ T c)).
  change (length (node1 :: node2 :: keys (disjoint_set_ T c)) >= length (keys m'))%nat.
  apply NoDup_incl_length; [exact Hnd|].
  intros x Hx. rewrite Hkeys' in Hx. apply Hkeys in Hx.
  destruct Hx as [-> | [-> | Hx]]; cbn; auto.
Qed.

(** Every structure built by [AddEdge] from a consistent one is
    consistent. *)
Lemma AddEdges_consistent edges :
  forall c,
    consistent c ->
    (Z.of_nat (length (disjoint_set_ T c)) + 2 * Z.of_nat (length edges) <= INT_MAX)%Z ->
    exists c', AddEdges T eqb c edges = Some c' /\ consistent c'.
Proof.
  induction edges as [|[node1 node2] edges IH]; intros c Hc Hlen.
  - now exists c.
  - cbn [length] in Hlen.
    assert (Hlen1 : (Z.of_nat (length (disjoint_set_ T c)) + 2 <= INT_MAX)%Z) by lia.
    destruct (AddEdge_spec c node1 node2 Hc Hlen1)
      as (m0 & r1 & r2 & l1 & l2 & m' & Hrun & Hc' & _).
    pose proof (AddEdge_length c node1 node2 _ Hc Hlen1 Hrun) as Hle.
    destruct (IH _ Hc') as (c'' & Hrun' & Hc''); [lia|].
    exists c''. cbn [ConnectedComponents.AddEdges]. rewrite Hrun. cbn [bind].
    split; assumption.
Qed.

(** X19. [Extract] flattens the forest: after it every node is right
    under its root, one step away, as the comment of [FindRoot] hopes. *)
Theorem Extract_flattens c c' cc :
  consistent c ->
  Extract c = Some (c', cc) ->
  forall n v,
    FindOrNull (disjoint_set_ T c') n = Some v ->
    exists d, (d <= 1)%nat /\ rooted (disjoint_set_ T c') n (id T v) d.
Proof.
  intros [Hf _] Hrun'.
  destruct (Extract_loop_spec (keys (disjoint_set_ T c)) (disjoint_set_ T c) [] Hf)
    as (m' & cc0 & Hrun & _ & Hkeys & _ & _ & Hflat); [apply incl_refl|].
  unfold ConnectedComponents.Extract in Hrun'. rewrite Hrun in Hrun'. cbn [bind] in Hrun'.
  injection Hrun' as <- <-. cbn [disjoint_set_]. intros n v Hv.
  destruct (Hflat n) as (v' & Hv' & [d Hd]).
  { right. rewrite <- Hkeys. eapply FindOrNull_key, Hv. }
  rewrite Hv in Hv'. injection Hv' as <-.
  exists d. split; [|exact Hd].
  inversion Hd as [n' p Hp Hid | n' p r d' Hp Hid Hd']; subst; [lia|].
  rewrite Hv in Hp. injection Hp as <-.
  apply rooted_root in Hd. pose proof (rooted_fun _ _ _ _ _ _ Hd Hd') as [_ <-]. lia.
Qed.

(** X20. [FindRoot] in a forest returns the root of a node of the map,
    leaves the node right under this root and changes the root of no node;
    on a node that is not in the map its [CHECK_NOTNULL] fails. *)
Theorem FindRoot_compresses m n :
  forest m ->
  (In n (keys m) ->
   exists m' r,
     FindRoot m n = Some (m', r) /\
     root_of m n r /\
     (exists v, FindOrNull m' n = Some v /\ id T v = r) /\
     keys m' = keys m /\
     forall x rx, root_of m' x rx <-> root_of m x rx) /\
  (~ In n (keys m) -> FindRoot m n = None).
Proof.
  intros Hf. split.
  - intros Hn.
    destruct (FindRoot_spec m n Hf Hn) as (m' & r & Hrun & Hr & _ & Hkeys & Hiff & _ & _ & Hflat).
    exists m', r. split; [exact Hrun|]. split; [exact Hr|]. split; [|split; assumption].
    destruct Hflat as (v & Hv & Hroot). exists v. split; [exact Hv|].
    eapply root_of_fun; [exact Hroot|]. now apply Hiff.
  - intros Hn. unfold ConnectedComponents.FindRoot.
    destruct (length m); cbn [ConnectedComponents.FindRoot_rec]; [reflexivity|].
    now rewrite (FindOrNull_none m n Hn).
Qed.

End Forest.

Lemma to_uint64_negative z :
  (INT_MIN <= z < 0)%Z -> to_uint64 z = (18446744073709551616 + z)%Z.
Proof.
  unfold INT_MIN, to_uint64. intros Hz. symmetry.
  apply Z.mod_unique_pos with (q := (-1)%Z); lia.
Qed.

(** X21. The constructor with a limit converts the [int] to [uint64_t]
    before it checks that it is above 0: the check fails for 0 alone, and a
    limit below 0 becomes one of more than [2^63], no limit at all. *)
Theorem make_max_check (T : Type) (max_size : Z) :
  (INT_MIN <= max_size <= INT_MAX)%Z ->
  (make_max T max_size = None <-> max_size = 0%Z) /\
  ((max_size < 0)%Z ->
   make_max T max_size = Some (mk T (18446744073709551616 + max_size) [])).
Proof.
  intros Hrange. unfold make_max.
  destruct (Z.lt_trichotomy max_size 0) as [Hneg | [-> | Hpos]].
  - rewrite to_uint64_negative by lia.
    destruct (Z.ltb_spec 0 (18446744073709551616 + max_size)) as [_ | Habs];
      [|unfold INT_MIN in Hrange; lia].
    split; [|reflexivity]. split; [discriminate | lia].
  - split; [|lia]. now split.
  - rewrite to_uint64_small by lia.
    destruct (Z.ltb_spec 0 max_size) as [_ | Habs]; [|lia].
    split; [|lia]. split; [discriminate | lia].
Qed.

(** *** [ConnectedComponents<int>] at work *)

Local Open Scope Z_scope.

Lemma sample_consistent : consistent Z Z.eqb sample.
Proof.
  destruct (AddEdges_consistent Z Z.eqb Z.eqb_eq [(1, 2); (3, 4)]%Z (mk Z 3 []))
    as (c' & Hrun & Hc').
  - apply empty_consistent. exact Z.eqb_eq.
  - unfold INT_MAX. cbn. lia.
  - vm_compute in Hrun. injection Hrun as <-. exact Hc'.
Qed.

Lemma deep_consistent : consistent Z Z.eqb deep.
Proof.
  destruct (AddEdges_consistent Z Z.eqb Z.eqb_eq [(1, 2); (3, 4); (2, 3)]%Z
              (make Z 2147483647)) as (c' & Hrun & Hc').
  - apply empty_consistent. exact Z.eqb_eq.
  - unfold INT_MAX. cbn. lia.
  - vm_compute in Hrun. injection Hrun as <-. exact Hc'.
Qed.

(** The edge 2-3 would make a component of four nodes: refused. *)
Example AddEdge_refused : AddEdge Z Z.eqb sample 2 3 = Some sample.
Proof. reflexivity. Qed.

(** The edge 4-5 makes a component of three nodes, and [Extract] lists
    it. *)
Example Extract_run :
  (c <- AddEdge Z Z.eqb sample 4 5 ;; '(_, cc) <- Extract Z Z.eqb c ;; Some cc)
  = Some [(3, [3; 4; 5]); (1, [1; 2])]%Z.
Proof. reflexivity. Qed.

Lemma AddEdge_consistent_witness :
  exists c',
    AddEdge Z Z.eqb sample 4 5 = Some c' /\
    consistent Z Z.eqb c' /\
    max_connected_component_size_ Z c' = max_connected_component_size_ Z sample /\
    forall x, In x (map fst (disjoint_set_ Z c'))
              <-> x = 4%Z \/ x = 5%Z \/ In x (map fst (disjoint_set_ Z sample)).
Proof.
  apply (AddEdge_consistent Z Z.eqb Z.eqb_eq sample 4%Z 5%Z sample_consistent).
  unfold INT_MAX. cbn. lia.
Defined.

Lemma AddEdge_joins_witness :
  (forall x y, same_component Z Z.eqb (disjoint_set_ Z sample) x y ->
               same_component Z Z.eqb (disjoint_set_ Z sample) x y) /\
  (same_component Z Z.eqb (disjoint_set_ Z sample) 2 3 \/
   exists r1 r2 l1 l2,
     r1 <> r2 /\
     component Z Z.eqb (disjoint_set_ Z sample) r1 l1 /\ In 2 l1 /\
     component Z Z.eqb (disjoint_set_ Z sample) r2 l2 /\ In 3 l2 /\
     max_connected_component_size_ Z sample < Z.of_nat (length l1 + length l2)).
Proof.
  apply (AddEdge_joins Z Z.eqb Z.eqb_eq sample 2 3 sample sample_consistent).
  - unfold INT_MAX. cbn. lia.
  - reflexivity.
Defined.

Lemma AddEdge_only_joins_witness :
  joined Z Z.eqb (disjoint_set_ Z sample) 1 4 \/
  (joined Z Z.eqb (disjoint_set_ Z sample) 1 2 /\
   joined Z Z.eqb (disjoint_set_ Z sample) 4 3) \/
  (joined Z Z.eqb (disjoint_set_ Z sample) 1 3 /\
   joined Z Z.eqb (disjoint_set_ Z sample) 4 2).
Proof.
  apply (AddEdge_only_joins Z Z.eqb Z.eqb_eq
           (mk Z 2147483647 (disjoint_set_ Z sample)) 2 3 deep).
  - split; [apply sample_consistent|]. intros r l Hl.
    pose proof (proj2 sample_consistent r l Hl) as Hle. cbn in *. lia.
  - unfold INT_MAX. cbn. lia.
  - reflexivity.
  - exists 1. split.
    + exists 0%nat. apply (rooted_here Z Z.eqb _ 1 (mkRoot Z 1 4)); reflexivity.
    + exists 2%nat.
      apply (rooted_step Z Z.eqb _ 4 (mkRoot Z 3 2)); [reflexivity | discriminate |].
      apply (rooted_step Z Z.eqb _ 3 (mkRoot Z 1 4)); [reflexivity | discriminate |].
      apply (rooted_here Z Z.eqb _ 1 (mkRoot Z 1 4)); reflexivity.
Defined.


Lemma Extract_flattens_witness :
  exists d, (d <= 1)%nat /\
    rooted Z Z.eqb
      [(4, mkRoot Z 1 4); (3, mkRoot Z 1 4); (2, mkRoot Z 1 4); (1, mkRoot Z 1 4)]
      4 (id Z (mkRoot Z 1 4)) d.
Proof.
  apply (Extract_flattens Z Z.eqb Z.eqb_eq deep
           (mk Z 2147483647
               [(4, mkRoot Z 1 4); (3, mkRoot Z 1 4); (2, mkRoot Z 1 4); (1, mkRoot Z 1 4)])
           [(1, [1; 2; 3; 4])] deep_consistent eq_refl 4 (mkRoot Z 1 4)).
  reflexivity.
Defined.

Lemma FindRoot_compresses_witness :
  (In 4 (map fst (disjoint_set_ Z deep)) ->
   exists m' r,
     FindRoot Z Z.eqb (disjoint_set_ Z deep) 4 = Some (m', r) /\
     root_of Z Z.eqb (disjoint_set_ Z deep) 4 r /\
     (exists v, FindOrNull Z Z.eqb m' 4 = Some v /\ id Z v = r) /\
     map fst m' = map fst (disjoint_set_ Z deep) /\
     forall x rx, root_of Z Z.eqb m' x rx <-> root_of Z Z.eqb (disjoint_set_ Z deep) x rx) /\
  (~ In 4 (map fst (disjoint_set_ Z deep)) ->
   FindRoot Z Z.eqb (disjoint_set_ Z deep) 4 = None).
Proof.
  apply (FindRoot_compresses Z Z.eqb Z.eqb_eq (disjoint_set_ Z deep) 4).
  apply deep_consistent.
Defined.

Lemma make_max_check_witness :
  (make_max Z (-1) = None <-> (-1 = 0)%Z) /\
  ((-1 < 0)%Z -> make_max Z (-1) = Some (mk Z (18446744073709551616 + -1) [])).
Proof. apply (make_max_check Z (-1)%Z). unfold INT_MIN, INT_MAX. lia. Defined.

End ComponentFacts.
